(** * Incremental feature builder: dependency order, fingerprints, decisions

    A shallow embedding of the Go builder
    ([cmd/apis/main.go], its REST twin, [internal/cache], [internal/config],
    [internal/hash] and [internal/feature]) and the properties of its
    dependency resolution, fingerprinting and skip/build loop.

    Conventions of the embedding
    - a Go [string] is a byte string: Rocq's [string];
    - a Go [map[string]T] is a [gmap string T]; a [map[string]bool] that is
      only read with the zero default is the [gset] of the keys held at
      [true] (assigning [false] removes the key);
    - a Go function returning [(T, error)] returns a [result];
    - [os.Exit], a returned error and a run-time panic end a run with an
      explicit [ending];
    - paths are Unix paths: the separator is [/]. *)

From Stdlib Require Import ZArith Ascii.
From stdpp Require Import gmap strings list sorting relations.

(** ** Results of fallible calls *)

Inductive result (E A : Type) : Type :=
| OK (a : A)
| Err (e : E).
Arguments OK {E A} a.
Arguments Err {E A} e.

#[global] Instance result_eq_dec {E A : Type} `{EqDecision E, EqDecision A} :
  EqDecision (result E A).
Proof. solve_decision. Defined.

(** ** [internal/config]: the registry *)

Module config.

Record Feature : Type := {
  Name : string;
  Inputs : list string;
  Command : string;
  DependsOn : list string
}.

(** [BuilderConfig.Features]; the values are the (non-nil) features. *)
Abbreviation BuilderConfig := (gmap string Feature).

End config.

(** ** [crypto/sha256] and [encoding/hex]

    The digest of the Go standard library, written out so that runs of the
    builder can be evaluated; 32-bit words are [Z] reduced modulo [2 ^ 32]. *)

Module sha256.

Local Open Scope Z_scope.

Definition wrap (x : Z) : Z := x mod 2 ^ 32.

Definition rotr (n x : Z) : Z :=
  Z.lor (Z.shiftr x n) (wrap (Z.shiftl x (32 - n))).

Definition Ch (x y z : Z) : Z :=
  Z.lxor (Z.land x y) (Z.land (Z.lxor x (2 ^ 32 - 1)) z).

Definition Maj (x y z : Z) : Z :=
  Z.lxor (Z.lxor (Z.land x y) (Z.land x z)) (Z.land y z).

Definition bsig0 (x : Z) : Z :=
  Z.lxor (Z.lxor (rotr 2 x) (rotr 13 x)) (rotr 22 x).

Definition bsig1 (x : Z) : Z :=
  Z.lxor (Z.lxor (rotr 6 x) (rotr 11 x)) (rotr 25 x).

Definition ssig0 (x : Z) : Z :=
  Z.lxor (Z.lxor (rotr 7 x) (rotr 18 x)) (Z.shiftr x 3).

Definition ssig1 (x : Z) : Z :=
  Z.lxor (Z.lxor (rotr 17 x) (rotr 19 x)) (Z.shiftr x 10).

(** The constants are the leading fraction bits of the square roots (initial
    state) and cube roots (round constants) of the first primes. *)
Definition is_prime (n : Z) : bool :=
  forallb (fun d => negb (n mod d =? 0)) (map Z.of_nat (seq 2 (Z.to_nat n - 2))).

Definition primes : list Z :=
  Eval vm_compute in
    filter (fun n => Is_true (is_prime n)) (map Z.of_nat (seq 2 310)).

Fixpoint cbrt_bits (bits : nat) (n r : Z) : Z :=
  match bits with
  | O => r
  | S b =>
      let r' := r + 2 ^ Z.of_nat b in
      cbrt_bits b n (if r' * r' * r' <=? n then r' else r)
  end.

Definition init : list Z :=
  Eval vm_compute in map (fun p => wrap (Z.sqrt (p * 2 ^ 64))) (take 8 primes).

Definition K : list Z :=
  Eval vm_compute in map (fun p => wrap (cbrt_bits 40 (p * 2 ^ 96) 0)) primes.

Definition byte_of (c : ascii) : Z := Z.of_N (N_of_ascii c).

Fixpoint bytes_of (s : string) : list Z :=
  match s with
  | EmptyString => []
  | String c s' => byte_of c :: bytes_of s'
  end.

(** The [n] low bytes of [x], most significant first. *)
Definition be_bytes (n : nat) (x : Z) : list Z :=
  map (fun i => Z.shiftr x (8 * Z.of_nat i) mod 256) (rev (seq 0 n)).

Definition pad (msg : list Z) : list Z :=
  let len := Z.of_nat (length msg) in
  msg ++ [128] ++ replicate (Z.to_nat ((55 - len) mod 64)) 0
      ++ be_bytes 8 (8 * len).

Fixpoint words (fuel : nat) (bs : list Z) : list Z :=
  match fuel, bs with
  | S f, b0 :: b1 :: b2 :: b3 :: rest =>
      (Z.shiftl b0 24 + Z.shiftl b1 16 + Z.shiftl b2 8 + b3) :: words f rest
  | _, _ => []
  end.

(** The message schedule, newest word first. *)
Fixpoint schedule (n : nat) (w : list Z) : list Z :=
  match n with
  | O => w
  | S n' =>
      schedule n'
        (wrap (ssig1 (nth 1 w 0) + nth 6 w 0 + ssig0 (nth 14 w 0) + nth 15 w 0)
           :: w)
  end.

Definition round (s : list Z) (kw : Z * Z) : list Z :=
  match s with
  | [a; b; c; d; e; f; g; h] =>
      let t1 := h + bsig1 e + Ch e f g + fst kw + snd kw in
      let t2 := bsig0 a + Maj a b c in
      [wrap (t1 + t2); a; b; c; wrap (d + t1); e; f; g]
  | _ => s
  end.

Definition block (s : list Z) (ws : list Z) : list Z :=
  zip_with (fun x y => wrap (x + y)) s
    (foldl round s (zip K (rev (schedule 48 (rev ws))))).

Fixpoint blocks (fuel : nat) (s : list Z) (ws : list Z) : list Z :=
  match fuel with
  | O => s
  | S f =>
      match ws with
      | [] => s
      | _ => blocks f (block s (take 16 ws)) (drop 16 ws)
      end
  end.

(** [sha256.Sum256], and [h.Sum(nil)] of a [sha256.New()] that was written
    the bytes [msg]. *)
Definition Sum256 (msg : string) : list Z :=
  let bs := pad (bytes_of msg) in
  let ws := words (length bs) bs in
  concat (map (be_bytes 4) (blocks (length ws) init ws)).

End sha256.

Module hex.

Definition digit (n : Z) : ascii :=
  ascii_of_N (Z.to_N (if (n <? 10)%Z then 48 + n else 87 + n)%Z).

Fixpoint EncodeToString (bs : list Z) : string :=
  match bs with
  | [] => EmptyString
  | b :: bs' =>
      String (digit (b / 16)) (String (digit (b mod 16)) (EncodeToString bs'))
  end.

End hex.

(** [hex.EncodeToString(h.Sum(nil))] for a hash [h] that was written [data]:
    a [hash.Hash] is modelled by the bytes written to it so far. *)
Definition sha256hex (data : string) : string :=
  hex.EncodeToString (sha256.Sum256 data).

(** [sort.Strings]: ascending byte-wise order. *)
Definition sortStrings (l : list string) : list string :=
  merge_sort String.le l.

(** The bytes of the strings of a list, one after the other. *)
Definition catenate (l : list string) : string := foldr String.app "" l.

(** ** The file system seen by the hashing code

    [filepath.Walk] and [os.Open]/[io.Copy] are the only accesses: [Walk]
    gives the entries handed to the callback (or the first error handed to it,
    which the callback returns), [ReadAll] the bytes copied from a file. *)

Module fsys.

Record FileInfo : Type := {
  path : string;
  IsDir : bool;
  Mode : N;
  ModTime : Z
}.

Record t : Type := {
  Walk : string → result string (list FileInfo);
  ReadAll : string → result string string
}.

End fsys.

(** The [files] slice of [HashDir]: the paths for which [!info.IsDir()],
    as appended by the callback and after [sort.Strings]. *)
Definition nonDirPaths (entries : list fsys.FileInfo) : list string :=
  fsys.path <$> filter (λ info, fsys.IsDir info = false) entries.

Definition walkedFiles (entries : list fsys.FileInfo) : list string :=
  sortStrings (nonDirPaths entries).

(** ** [cmd/apis]: hashing *)

Module main.

(** The [for _, f := range files] loop of [HashDir]; [h] is what the hash has
    been written so far. *)
Fixpoint copyFiles (fs : fsys.t) (files : list string) (h : string)
    : result string string :=
  match files with
  | [] => OK h
  | f :: files' =>
      match fsys.ReadAll fs f with
      | Err e => Err e
      | OK data => copyFiles fs files' (h +:+ data)
      end
  end.

Definition HashDir (fs : fsys.t) (dir : string) : result string string :=
  match fsys.Walk fs dir with
  | Err e => Err e
  | OK entries =>
      match copyFiles fs (walkedFiles entries) "" with
      | Err e => Err e
      | OK h => OK (sha256hex h)
      end
  end.

(** The [for _, input := range feat.Inputs] loop of [ComputeFeatureHash]. *)
Fixpoint writeInputs (fs : fsys.t) (inputs : list string) (h : string)
    : result string string :=
  match inputs with
  | [] => OK h
  | input :: inputs' =>
      match HashDir fs input with
      | Err e => Err e
      | OK hash => writeInputs fs inputs' (h +:+ hash)
      end
  end.

(** The [for _, dh := range depHashes] loop. *)
Definition writeAll (hs : list string) (h : string) : string :=
  foldl String.app h hs.

(** What [ComputeFeatureHash] has written to its hash when it sums it. *)
Definition featureBytes (fs : fsys.t) (feat : config.Feature)
    (depHashes : list string) : result string string :=
  match writeInputs fs (config.Inputs feat) (config.Command feat) with
  | Err e => Err e
  | OK h => OK (writeAll (sortStrings depHashes) h)
  end.

Definition ComputeFeatureHash (fs : fsys.t) (feat : config.Feature)
    (depHashes : list string) : result string string :=
  match featureBytes fs feat depHashes with
  | Err e => Err e
  | OK h => OK (sha256hex h)
  end.

End main.

(** ** [internal/hash] and [internal/feature]: the library twins *)

Module hash.

Definition HashString (s : string) : string := sha256hex s.

Definition HashFile (fs : fsys.t) (path : string) : result string string :=
  match fsys.ReadAll fs path with
  | Err e => Err e
  | OK data => OK (sha256hex data)
  end.

Fixpoint writeFileHashes (fs : fsys.t) (files : list string) (h : string)
    : result string string :=
  match files with
  | [] => OK h
  | f :: files' =>
      match HashFile fs f with
      | Err e => Err e
      | OK fileHash => writeFileHashes fs files' (h +:+ fileHash)
      end
  end.

Definition HashDir (fs : fsys.t) (dir : string) : result string string :=
  match fsys.Walk fs dir with
  | Err e => Err e
  | OK entries =>
      match writeFileHashes fs (walkedFiles entries) "" with
      | Err e => Err e
      | OK h => OK (sha256hex h)
      end
  end.

End hash.

Module feature.

Fixpoint inputParts (fs : fsys.t) (inputs : list string)
    : result string (list string) :=
  match inputs with
  | [] => OK []
  | input :: inputs' =>
      match hash.HashDir fs input with
      | Err e => Err e
      | OK h =>
          match inputParts fs inputs' with
          | Err e => Err e
          | OK parts => OK (h :: parts)
          end
      end
  end.

(** [deps] after [sort.Strings]: one string [dep+h] per entry of the map. *)
Definition depParts (depHashes : gmap string string) : list string :=
  sortStrings ((λ kv, kv.1 +:+ kv.2) <$> map_to_list depHashes).

Definition ComputeFeatureHash (fs : fsys.t) (f : config.Feature)
    (depHashes : gmap string string) : result string string :=
  match inputParts fs (config.Inputs f) with
  | Err e => Err e
  | OK parts =>
      OK (hash.HashString
            (String.concat "|"
               (hash.HashString (config.Command f) :: parts
                  ++ depParts depHashes)))
  end.

End feature.

(** ** [path/filepath], [os] and [internal/cache]: one file per feature *)

Module filepath.

(** [path/filepath] on Unix, for the calls of [internal/cache]. *)

(** [lacks c s]: the byte [c] does not occur in [s]. *)
Fixpoint lacks (c : ascii) (s : string) : bool :=
  match s with
  | EmptyString => true
  | String c' rest => negb (Ascii.eqb c' c) && lacks c rest
  end.

(** The elements of a path between its separators: [strings.Split(path, "/")]. *)
Fixpoint split (path : string) : list string :=
  match path with
  | EmptyString => [EmptyString]
  | String c rest =>
      if Ascii.eqb c "/" then EmptyString :: split rest
      else match split rest with
           | elem :: elems => String c elem :: elems
           | [] => [String c EmptyString]
           end
  end.

Definition rooted (path : string) : bool :=
  match path with
  | String c _ => Ascii.eqb c "/"
  | EmptyString => false
  end.

(** One element read by the loop of [Clean]; [out] holds the elements
    written so far, the last one first. *)
Definition step (rooted : bool) (out : list string) (elem : string)
    : list string :=
  if String.eqb elem "" || String.eqb elem "." then out
  else if String.eqb elem ".." then
    match out with
    | last :: out' =>
        if String.eqb last ".."
        then (if rooted then out else ".." :: out)
        else out'
    | [] => if rooted then out else ".." :: out
    end
  else elem :: out.

Definition Clean (path : string) : string :=
  match path with
  | EmptyString => "."
  | _ =>
      let out := foldl (step (rooted path)) [] (split path) in
      if rooted path then "/" +:+ String.concat "/" (reverse out)
      else match out with
           | [] => "."
           | _ => String.concat "/" (reverse out)
           end
  end.

Fixpoint Join (elem : list string) : string :=
  match elem with
  | [] => ""
  | e :: rest =>
      if String.eqb e "" then Join rest else Clean (String.concat "/" elem)
  end.

(** [path[:i+1]] for the index [i] of the last separator of [path]. *)
Fixpoint upToLastSeparator (path : string) : string :=
  match path with
  | EmptyString => EmptyString
  | String c rest =>
      if lacks "/" path then EmptyString
      else String c (upToLastSeparator rest)
  end.

Definition Dir (path : string) : string := Clean (upToLastSeparator path).

(** *** Vocabulary of the properties *)

(** An element without separator other than [..]. *)
Definition ordinary (e : string) : Prop :=
  String.eqb e ".." = false ∧ lacks "/" e = true.

(** An element other than the empty one and [.], which [Clean] drops. *)
Definition kept (e : string) : bool :=
  negb (String.eqb e "" || String.eqb e ".").

End filepath.

Module os.

(** The working directory as a tree of regular files and directories (no
    links), on a file system that compares names byte by byte.  What the
    system refuses is given with the disk, and the program does not change
    it: [sealed] holds the paths at which it refuses to make a directory or
    to open a file for writing, [hidden] the paths of the files that it
    refuses to open for reading, [short] the paths at which a write stops
    after the given number of bytes.  A relative path is resolved element by
    element (a leading [..] is an entry like any other); the paths of the
    cache are relative. *)

Set Warnings "-register-all".
(** What a path holds. *)
Inductive node : Type :=
| File (data : string)
| Folder (entries : gmap string node).
Set Warnings "register-all".

Record disk : Type := {
  root : node;
  sealed : gset string;
  hidden : gset string;
  short : gmap string nat
}.

Definition ENOENT : string := "no such file or directory".
Definition ENOTDIR : string := "not a directory".
Definition EISDIR : string := "is a directory".
Definition EACCES : string := "permission denied".
Definition ENOSPC : string := "no space left on device".

(** The elements through which the system resolves a relative path. *)
Definition elements (path : string) : list string :=
  List.filter (λ e, negb (String.eqb e "" || String.eqb e "."))
    (filepath.split path).

(** The path of the element [e] of the directory reached through [here]. *)
Definition below (here : list string) (e : string) : string :=
  String.concat "/" (here ++ [e]).

Fixpoint stat (n : node) (path : list string) : result string node :=
  match path, n with
  | [], _ => OK n
  | _ :: _, File _ => Err ENOTDIR
  | e :: rest, Folder entries =>
      match entries !! e with
      | None => Err ENOENT
      | Some child => stat child rest
      end
  end.

Fixpoint mkdirAll (sealed : gset string) (here : list string) (n : node)
    (path : list string) : node * result string unit :=
  match path, n with
  | _, File _ => (n, Err ENOTDIR)
  | [], Folder _ => (n, OK ())
  | e :: rest, Folder entries =>
      match entries !! e with
      | Some child =>
          let r := mkdirAll sealed (here ++ [e]) child rest in
          (Folder (<[e := r.1]> entries), r.2)
      | None =>
          if decide (below here e ∈ sealed) then (n, Err EACCES)
          else
            let r := mkdirAll sealed (here ++ [e]) (Folder ∅) rest in
            (Folder (<[e := r.1]> entries), r.2)
      end
  end.

(** [OpenFile(name, O_WRONLY|O_CREATE|O_TRUNC)], [Write] and [Close] at the
    element [e] of a directory. *)
Definition create (sealed : gset string) (short : gmap string nat)
    (here : list string) (entries : gmap string node) (e data : string)
    : node * result string unit :=
  match entries !! e with
  | Some (Folder _) => (Folder entries, Err EISDIR)
  | _ =>
      if decide (below here e ∈ sealed) then (Folder entries, Err EACCES)
      else match short !! below here e with
           | Some k =>
               (Folder (<[e := File (String.substring 0 k data)]> entries),
                Err ENOSPC)
           | None => (Folder (<[e := File data]> entries), OK ())
           end
  end.

Fixpoint writeFile (sealed : gset string) (short : gmap string nat)
    (here : list string) (n : node) (path : list string) (data : string)
    : node * result string unit :=
  match path, n with
  | [], _ => (n, Err EISDIR)
  | _ :: _, File _ => (n, Err ENOTDIR)
  | e :: rest, Folder entries =>
      match rest with
      | [] => create sealed short here entries e data
      | _ :: _ =>
          match entries !! e with
          | None => (n, Err ENOENT)
          | Some child =>
              let r := writeFile sealed short (here ++ [e]) child rest data in
              (Folder (<[e := r.1]> entries), r.2)
          end
      end
  end.

(** [mkdirAll] of all elements but the last followed, when it succeeds, by
    [writeFile], in one descent. *)
Fixpoint put (sealed : gset string) (short : gmap string nat)
    (here : list string) (n : node) (path : list string) (data : string)
    : node * result string unit :=
  match path, n with
  | [], _ => (n, Err EISDIR)
  | _ :: _, File _ => (n, Err ENOTDIR)
  | e :: rest, Folder entries =>
      match rest with
      | [] => create sealed short here entries e data
      | _ :: _ =>
          match entries !! e with
          | Some child =>
              let r := put sealed short (here ++ [e]) child rest data in
              (Folder (<[e := r.1]> entries), r.2)
          | None =>
              if decide (below here e ∈ sealed) then (n, Err EACCES)
              else
                let r := put sealed short (here ++ [e]) (Folder ∅) rest data in
                (Folder (<[e := r.1]> entries), r.2)
          end
      end
  end.

(** [n'] is [n] as far as the entry [y] can tell. *)
Definition same_entry (y : string) (n n' : node) : Prop :=
  match n, n' with
  | File a, File b => a = b
  | Folder m, Folder m' => m' !! y = m !! y
  | _, _ => False
  end.

Definition ReadFile (d : disk) (name : string) : result string string :=
  match stat (root d) (elements name) with
  | OK (File data) =>
      if decide (String.concat "/" (elements name) ∈ hidden d)
      then Err EACCES else OK data
  | OK (Folder _) => Err EISDIR
  | Err e => Err e
  end.

Definition MkdirAll (d : disk) (path : string) : disk * result string unit :=
  let r := mkdirAll (sealed d) [] (root d) (elements path) in
  ({| root := r.1; sealed := sealed d; hidden := hidden d;
      short := short d |}, r.2).

Definition WriteFile (d : disk) (name data : string)
    : disk * result string unit :=
  let r := writeFile (sealed d) (short d) [] (root d) (elements name) data in
  ({| root := r.1; sealed := sealed d; hidden := hidden d;
      short := short d |}, r.2).

End os.

Module cache.

(** [internal/cache]: the persisted fingerprint of [feature] is the content
    of the file [.builder-cache/<feature>/hash]. *)

Definition disk : Type := os.disk.

Definition FeatureHashPath (feature : string) : string :=
  filepath.Join [".builder-cache"; feature; "hash"].

Definition ReadFeatureHash (d : disk) (feature : string)
    : result string string :=
  os.ReadFile d (FeatureHashPath feature).

Definition WriteFeatureHash (d : disk) (feature hash : string)
    : disk * result string unit :=
  let dir := filepath.Dir (FeatureHashPath feature) in
  match os.MkdirAll d dir with
  | (d1, Err e) => (d1, Err e)
  | (d1, OK _) => os.WriteFile d1 (FeatureHashPath feature) hash
  end.

(** *** Vocabulary of the properties *)

(** A name that is one element of a path: not empty, [.] or [..], without
    separator or NUL byte, and of at most 255 bytes. *)
Definition plain (name : string) : bool :=
  negb (String.eqb name "") && negb (String.eqb name ".")
  && negb (String.eqb name "..")
  && filepath.lacks "/" name && filepath.lacks "000" name
  && (String.length name <=? 255).

Definition plainNames (names : list string) : Prop :=
  Forall (λ name, plain name = true) names.

(** [WriteFeatureHash] of the feature succeeds on [d]; what is written plays
    no part in that. *)
Definition writable (d : disk) (feature : string) : Prop :=
  (WriteFeatureHash d feature "").2 = OK ().

(** The system lets the record of the feature be read. *)
Definition readable (d : disk) (feature : string) : Prop :=
  String.concat "/" (os.elements (FeatureHashPath feature)) ∉ os.hidden d.

End cache.

(** ** Dependency graph ([buildGraph], [topoSort]) *)

Module Graph.

Abbreviation graph := (gmap string (list string)).

(** [graph[name] = feat.DependsOn] for every entry of the registry. *)
Definition buildGraph (cfg : config.BuilderConfig) : graph :=
  config.DependsOn <$> cfg.

(** The two [fmt.Errorf] of [topoSort]. *)
Inductive error : Type :=
| CycleDetected (node : string)
| UnknownDependency (dep : string).

(** The three mutable arguments of [topoSort]. *)
Record walk : Type := {
  visited : gset string;
  temp : gset string;
  order : list string
}.

Inductive outcome : Type :=
| Done (w : walk)
| Failed (e : error)
| OutOfFuel.

(** The [for _, dep := range graph[node]] loop, with the recursive call
    abstracted as [visit]. *)
Fixpoint eachDep (visit : string → walk → outcome) (g : graph)
    (deps : list string) (w : walk) : outcome :=
  match deps with
  | [] => Done w
  | dep :: deps' =>
      match g !! dep with
      | None => Failed (UnknownDependency dep)
      | Some _ =>
          match visit dep w with
          | Done w' => eachDep visit g deps' w'
          | r => r
          end
      end
  end.

(** [topoSort]; the recursion depth is bounded by [fuel]. *)
Fixpoint topoSort (fuel : nat) (g : graph) (node : string) (w : walk)
    : outcome :=
  match fuel with
  | O => OutOfFuel
  | S fuel' =>
      if decide (node ∈ temp w) then Failed (CycleDetected node)
      else if decide (node ∈ visited w) then Done w
      else
        let w1 := {| visited := visited w;
                     temp := {[node]} ∪ temp w;
                     order := order w |} in
        match eachDep (topoSort fuel' g) g (default [] (g !! node)) w1 with
        | Done w2 =>
            Done {| visited := {[node]} ∪ visited w2;
                    temp := temp w2 ∖ {[node]};
                    order := order w2 ++ [node] |}
        | r => r
        end
  end.

Inductive resolved : Type :=
| BuildOrder (names : list string)
| DependencyError (e : error)
| Unfinished.

(** The fresh maps and the empty order of [main] and [BuildFeature]. *)
Definition start : walk := {| visited := ∅; temp := ∅; order := [] |}.

(** The call of [main] and [BuildFeature].  Every nested call marks a
    registry key not marked before, so one more unit of fuel than the registry
    has keys is enough ([Resolve_finishes], [Resolve_any_fuel]). *)
Definition Resolve (g : graph) (target : string) : resolved :=
  match topoSort (S (size g)) g target start with
  | Done w => BuildOrder (order w)
  | Failed e => DependencyError e
  | OutOfFuel => Unfinished
  end.

(** *** Vocabulary of the properties *)

(** [dep] is listed in [dependsOn] of the registry entry [node]. *)
Definition edge (g : graph) (node dep : string) : Prop :=
  ∃ deps, g !! node = Some deps ∧ dep ∈ deps.

Definition reachable (g : graph) : relation string := rtc (edge g).

Definition on_cycle (g : graph) (node : string) : Prop := tc (edge g) node node.

Definition acyclic (g : graph) : Prop := ∀ node, ¬ on_cycle g node.

(** Every name listed by a feature reachable from [target] is a key. *)
Definition references_resolve (g : graph) (target : string) : Prop :=
  ∀ node dep, reachable g target node → edge g node dep → is_Some (g !! dep).

(** [dep] occurs in [names] at a smaller index than [node]. *)
Definition before (names : list string) (dep node : string) : Prop :=
  ∃ i j, names !! i = Some dep ∧ names !! j = Some node ∧ i < j.

(** *** Invariant of the traversal *)

(** The state between two calls: [visited] is what [order] lists, without
    repetition; nothing is both in progress and done; every listed node has
    its dependencies listed before it, all of them registry keys. *)
Record inv (g : graph) (w : walk) : Prop := {
  inv_visited : ∀ x, x ∈ visited w ↔ x ∈ order w;
  inv_nodup : NoDup (order w);
  inv_temp : temp w ## visited w;
  inv_deps : ∀ l1 n l2, order w = l1 ++ n :: l2 → ∀ d, edge g n d → d ∈ l1;
  inv_keys : ∀ n d, n ∈ order w → edge g n d → is_Some (g !! d)
}.

(** The registry keys not yet marked: the measure of the recursion. *)
Definition unmarked (g : graph) (w : walk) : gset string :=
  dom g ∖ (temp w ∪ visited w).

(** What a call on [node] from state [w] establishes. *)
Definition visit_post (g : graph) (node : string) (w : walk) (r : outcome)
    : Prop :=
  match r with
  | Done w' =>
      inv g w' ∧ temp w' = temp w ∧ visited w ⊆ visited w' ∧
      node ∈ visited w' ∧
      ∃ new, order w' = order w ++ new ∧ ∀ x, x ∈ new → reachable g node x
  | Failed (CycleDetected n) => on_cycle g n ∧ reachable g node n
  | Failed (UnknownDependency d) =>
      g !! d = None ∧ ∃ n, reachable g node n ∧ edge g n d
  | OutOfFuel => False
  end.

(** What the loop over the dependencies [deps] of [node] establishes. *)
Definition loop_post (g : graph) (node : string) (deps : list string)
    (w : walk) (r : outcome) : Prop :=
  match r with
  | Done w' =>
      inv g w' ∧ temp w' = temp w ∧ visited w ⊆ visited w' ∧
      (∀ d, d ∈ deps → d ∈ visited w' ∧ is_Some (g !! d)) ∧
      ∃ new, order w' = order w ++ new ∧ ∀ x, x ∈ new → reachable g node x
  | Failed (CycleDetected n) => on_cycle g n ∧ reachable g node n
  | Failed (UnknownDependency d) =>
      g !! d = None ∧ ∃ n, reachable g node n ∧ edge g n d
  | OutOfFuel => False
  end.

End Graph.

(** ** [cmd/apis]: the skip/build loop of [main] and [BuildFeature]

    The external [docker build] is an oracle [docker tag context] telling
    whether [cmd.Run()] succeeds. *)

Module builder.

Inductive event : Type :=
| PrintBuildOrder (names : list string)
| PrintSKIP (fname : string)
| PrintBUILD (fname : string)
| DockerBuild (tag context : string).

Inductive ending : Type :=
| Success
| DependencyFailure (e : Graph.error)
| HashFailure (fname : string) (e : string)
| DockerFailure (fname : string)
| Panic (reason : string)
| Unresolved.

(** [hashCache], the cache directory on disk, and what was printed and run. *)
Record state : Type := {
  hashCache : gmap string string;
  disk : cache.disk;
  log : list event
}.

Inductive progress : Type :=
| Continue (s : state)
| Stop (e : ending) (s : state).

(** The [depHashes] slice collected from [hashCache]; a missing key reads as
    the empty string. *)
Definition collectDepHashes (hc : gmap string string) (deps : list string)
    : list string :=
  (λ dep, default "" (hc !! dep)) <$> deps.

(** [err == nil && oldHash == newHash]. *)
Definition upToDate (d : cache.disk) (fname newHash : string) : bool :=
  match cache.ReadFeatureHash d fname with
  | OK oldHash => bool_decide (oldHash = newHash)
  | Err _ => false
  end.

(** The [docker build] branch.  [newHash] is a digest of 64 characters
    ([sha256hex_length]), so [newHash[:8]] is in range; [feat.Inputs[0]]
    panics on a feature without inputs. *)
Definition dockerBuild (docker : string → string → bool)
    (feat : config.Feature) (fname newHash : string) (s : state) : progress :=
  let s1 := {| hashCache := hashCache s; disk := disk s;
               log := log s ++ [PrintBUILD fname] |} in
  let dockerTag := fname +:+ ":" +:+ String.substring 0 8 newHash in
  match config.Inputs feat with
  | [] => Stop (Panic "index out of range [0] with length 0") s1
  | context :: _ =>
      let ran := log s1 ++ [DockerBuild dockerTag context] in
      if docker dockerTag context
      then Continue
             {| hashCache := <[fname := newHash]> (hashCache s);
                disk := (cache.WriteFeatureHash (disk s) fname newHash).1;
                log := ran |}
      else Stop (DockerFailure fname)
             {| hashCache := hashCache s; disk := disk s; log := ran |}
  end.

(** One iteration of [for _, fname := range buildOrder]. *)
Definition buildOne (cfg : config.BuilderConfig) (fs : fsys.t)
    (docker : string → string → bool) (s : state) (fname : string)
    : progress :=
  match cfg !! fname with
  | None => Stop (Panic "nil pointer dereference") s
  | Some feat =>
      match main.ComputeFeatureHash fs feat
              (collectDepHashes (hashCache s) (config.DependsOn feat)) with
      | Err e => Stop (HashFailure fname e) s
      | OK newHash =>
          if upToDate (disk s) fname newHash
          then Continue
                 {| hashCache := <[fname := newHash]> (hashCache s);
                    disk := disk s;
                    log := log s ++ [PrintSKIP fname] |}
          else dockerBuild docker feat fname newHash s
      end
  end.

Fixpoint buildAll (cfg : config.BuilderConfig) (fs : fsys.t)
    (docker : string → string → bool) (buildOrder : list string) (s : state)
    : progress :=
  match buildOrder with
  | [] => Continue s
  | fname :: rest =>
      match buildOne cfg fs docker s fname with
      | Continue s' => buildAll cfg fs docker rest s'
      | stop => stop
      end
  end.

(** [main] from the dependency sort on, and [BuildFeature] from the same
    point: the ending of the run and the state it leaves. *)
Definition BuildFeature (cfg : config.BuilderConfig) (fs : fsys.t)
    (docker : string → string → bool) (d : cache.disk) (featureName : string)
    : ending * state :=
  let start := {| hashCache := ∅; disk := d; log := [] |} in
  match Graph.Resolve (Graph.buildGraph cfg) featureName with
  | Graph.Unfinished => (Unresolved, start)
  | Graph.DependencyError e => (DependencyFailure e, start)
  | Graph.BuildOrder buildOrder =>
      let s := {| hashCache := ∅; disk := d;
                  log := [PrintBuildOrder buildOrder] |} in
      match buildAll cfg fs docker buildOrder s with
      | Continue s' => (Success, s')
      | Stop e s' => (e, s')
      end
  end.

(** How often [docker build] was run according to a log. *)
Definition isDockerBuild (ev : event) : bool :=
  match ev with
  | DockerBuild _ _ => true
  | _ => false
  end.

Definition dockerRuns (l : list event) : nat :=
  length (filter (λ ev, isDockerBuild ev = true) l).

#[global] Instance event_eq_dec : EqDecision event.
Proof. solve_decision. Defined.

(** *** Vocabulary of the properties *)

(** The cases of one iteration. *)
Inductive iteration (cfg : config.BuilderConfig) (fs : fsys.t)
    (docker : string → string → bool) (s : state) (fname : string)
    : progress → Prop :=
| it_nil :
    cfg !! fname = None →
    iteration cfg fs docker s fname (Stop (Panic "nil pointer dereference") s)
| it_hash feat e :
    cfg !! fname = Some feat →
    main.ComputeFeatureHash fs feat
      (collectDepHashes (hashCache s) (config.DependsOn feat)) = Err e →
    iteration cfg fs docker s fname (Stop (HashFailure fname e) s)
| it_skip feat newHash :
    cfg !! fname = Some feat →
    main.ComputeFeatureHash fs feat
      (collectDepHashes (hashCache s) (config.DependsOn feat)) = OK newHash →
    cache.ReadFeatureHash (disk s) fname = OK newHash →
    iteration cfg fs docker s fname
      (Continue {| hashCache := <[fname := newHash]> (hashCache s);
                   disk := disk s;
                   log := log s ++ [PrintSKIP fname] |})
| it_noinput feat newHash :
    cfg !! fname = Some feat →
    main.ComputeFeatureHash fs feat
      (collectDepHashes (hashCache s) (config.DependsOn feat)) = OK newHash →
    cache.ReadFeatureHash (disk s) fname ≠ OK newHash →
    config.Inputs feat = [] →
    iteration cfg fs docker s fname
      (Stop (Panic "index out of range [0] with length 0")
         {| hashCache := hashCache s; disk := disk s;
            log := log s ++ [PrintBUILD fname] |})
| it_built feat newHash context rest :
    cfg !! fname = Some feat →
    main.ComputeFeatureHash fs feat
      (collectDepHashes (hashCache s) (config.DependsOn feat)) = OK newHash →
    cache.ReadFeatureHash (disk s) fname ≠ OK newHash →
    config.Inputs feat = context :: rest →
    docker (fname +:+ ":" +:+ String.substring 0 8 newHash) context = true →
    iteration cfg fs docker s fname
      (Continue
         {| hashCache := <[fname := newHash]> (hashCache s);
            disk := (cache.WriteFeatureHash (disk s) fname newHash).1;
            log := log s ++
              [PrintBUILD fname;
               DockerBuild (fname +:+ ":" +:+ String.substring 0 8 newHash)
                 context] |})
| it_failed feat newHash context rest :
    cfg !! fname = Some feat →
    main.ComputeFeatureHash fs feat
      (collectDepHashes (hashCache s) (config.DependsOn feat)) = OK newHash →
    cache.ReadFeatureHash (disk s) fname ≠ OK newHash →
    config.Inputs feat = context :: rest →
    docker (fname +:+ ":" +:+ String.substring 0 8 newHash) context = false →
    iteration cfg fs docker s fname
      (Stop (DockerFailure fname)
         {| hashCache := hashCache s; disk := disk s;
            log := log s ++
              [PrintBUILD fname;
               DockerBuild (fname +:+ ":" +:+ String.substring 0 8 newHash)
                 context] |}).

(** Every entry of a per-run map is the fingerprint of its feature computed
    from the entries of the feature's dependencies in the same map. *)
Definition sound (cfg : config.BuilderConfig) (fs : fsys.t)
    (m : gmap string string) : Prop :=
  ∀ g h, m !! g = Some h →
    ∃ feat, cfg !! g = Some feat ∧
      (∀ dep, dep ∈ config.DependsOn feat → is_Some (m !! dep)) ∧
      main.ComputeFeatureHash fs feat
        (collectDepHashes m (config.DependsOn feat)) = OK h.

(** Dependencies are listed first. *)
Definition deps_first (cfg : config.BuilderConfig) (names : list string)
    : Prop :=
  ∀ l1 x l2, names = l1 ++ x :: l2 →
    ∀ feat dep, cfg !! x = Some feat → dep ∈ config.DependsOn feat → dep ∈ l1.

(** The state of a run started on disk [d0] after the features [passed]:
    the per-run map holds exactly their fingerprints and only they were
    printed.  When their names are plain, each was printed SKIP or BUILD
    according to what [d0] holds for it, the records of the other plain
    features read and can be written as in [d0], and the record of a passed
    feature holds its fingerprint unless writing or reading it fails. *)
Record run_inv (cfg : config.BuilderConfig) (fs : fsys.t) (d0 : cache.disk)
    (passed : list string) (s : state) : Prop := {
  ri_dom : ∀ g, is_Some (hashCache s !! g) ↔ g ∈ passed;
  ri_sound : sound cfg fs (hashCache s);
  ri_logged : ∀ g, PrintSKIP g ∈ log s ∨ PrintBUILD g ∈ log s → g ∈ passed;
  ri_decided : cache.plainNames passed →
    ∀ g h, hashCache s !! g = Some h →
      if upToDate d0 g h then PrintSKIP g ∈ log s else PrintBUILD g ∈ log s;
  ri_skip : cache.plainNames passed →
    ∀ g, PrintSKIP g ∈ log s →
      ∃ h, hashCache s !! g = Some h ∧ upToDate d0 g h = true;
  ri_build : cache.plainNames passed →
    ∀ g, PrintBUILD g ∈ log s →
      ∃ h, hashCache s !! g = Some h ∧ upToDate d0 g h = false;
  ri_disk : cache.plainNames passed →
    ∀ g, cache.plain g = true → g ∉ passed →
      cache.ReadFeatureHash (disk s) g = cache.ReadFeatureHash d0 g;
  ri_write : cache.plainNames passed →
    ∀ g h, cache.plain g = true → g ∉ passed →
      (cache.WriteFeatureHash (disk s) g h).2 =
      (cache.WriteFeatureHash d0 g h).2;
  ri_hidden : os.hidden (disk s) = os.hidden d0;
  ri_cached : cache.plainNames passed →
    ∀ g h, hashCache s !! g = Some h →
      cache.ReadFeatureHash (disk s) g = OK h ∨
      (PrintBUILD g ∈ log s ∧
       ((cache.WriteFeatureHash d0 g h).2 ≠ OK () ∨ ¬ cache.readable d0 g))
}.

End builder.

(** ** Registries, trees and caches used as concrete inputs *)

Module examples.

Definition file (p : string) : fsys.FileInfo :=
  {| fsys.path := p; fsys.IsDir := false; fsys.Mode := 420; fsys.ModTime := 0 |}.

Definition dir (p : string) : fsys.FileInfo :=
  {| fsys.path := p; fsys.IsDir := true; fsys.Mode := 493; fsys.ModTime := 0 |}.

(** A file system given by what [Walk] lists under each root and by the
    content of each file. *)
Definition tree (roots : gmap string (list fsys.FileInfo))
    (contents : gmap string string) : fsys.t :=
  {| fsys.Walk := λ d,
       match roots !! d with
       | Some entries => OK entries
       | None => Err "no such file or directory"
       end;
     fsys.ReadAll := λ p,
       match contents !! p with
       | Some c => OK c
       | None => Err "no such file or directory"
       end |}.

Definition feature (name : string) (inputs : list string) (command : string)
    (dependsOn : list string) : config.Feature :=
  {| config.Name := name; config.Inputs := inputs;
     config.Command := command; config.DependsOn := dependsOn |}.

Definition emptyDisk : cache.disk :=
  {| os.root := os.Folder ∅; os.sealed := ∅; os.hidden := ∅;
     os.short := ∅ |}.

Definition dockerOK : string → string → bool := λ _ _, true.

(** [docker build] fails for the tags of feature [fname]. *)
Definition dockerFailsFor (fname : string) : string → string → bool :=
  λ tag _, negb (String.prefix (fname +:+ ":") tag).

(** The registry of the end-to-end scenario: [app] depends on [base]. *)
Definition reg2 : config.BuilderConfig :=
  <["base" := feature "base" ["dirX"] "c1" []]>
    (<["app" := feature "app" ["dirY"] "c2" ["base"]]> ∅).

Definition roots2 : gmap string (list fsys.FileInfo) :=
  <["dirX" := [dir "dirX"; file "dirX/Dockerfile"]]>
    (<["dirY" := [dir "dirY"; file "dirY/Dockerfile"; file "dirY/main.go"]]> ∅).

Definition fs2 : fsys.t :=
  tree roots2
    (<["dirX/Dockerfile" := "FROM alpine"]>
       (<["dirY/Dockerfile" := "FROM base"]>
          (<["dirY/main.go" := "package main"]> ∅))).

(** [fs2] after one byte of the file under [dirX] was changed. *)
Definition fs2' : fsys.t :=
  tree roots2
    (<["dirX/Dockerfile" := "FROM alpinf"]>
       (<["dirY/Dockerfile" := "FROM base"]>
          (<["dirY/main.go" := "package main"]> ∅))).

(** [app] names a feature that the registry does not have. *)
Definition regDangling : config.BuilderConfig :=
  <["app" := feature "app" ["dirY"] "c2" ["base"]]> ∅.

(** [A] and [B] depend on each other. *)
Definition regLoop : config.BuilderConfig :=
  <["A" := feature "A" ["dirX"] "c1" ["B"]]>
    (<["B" := feature "B" ["dirY"] "c2" ["A"]]> ∅).

(** The same loop, with a missing [X] listed before [B]. *)
Definition regMasked : config.BuilderConfig :=
  <["A" := feature "A" ["dirX"] "c1" ["X"; "B"]]>
    (<["B" := feature "B" ["dirY"] "c2" ["A"]]> ∅).

(** Two libraries built by the same command, and an application on both. *)
Definition app3 : config.Feature :=
  feature "app" ["dirZ"] "link" ["lib1"; "lib2"].

Definition reg3 : config.BuilderConfig :=
  <["lib1" := feature "lib1" ["dirX"] "make" []]>
    (<["lib2" := feature "lib2" ["dirY"] "make" []]>
       (<["app" := app3]> ∅)).

Definition roots3 : gmap string (list fsys.FileInfo) :=
  <["dirX" := [dir "dirX"; file "dirX/f"]]>
    (<["dirY" := [dir "dirY"; file "dirY/f"]]>
       (<["dirZ" := [dir "dirZ"; file "dirZ/main.c"]]> ∅)).

Definition fsA : fsys.t :=
  tree roots3
    (<["dirX/f" := "P"]>
       (<["dirY/f" := "Q"]> (<["dirZ/main.c" := "int main;"]> ∅))).

(** [fsA] with the contents of the two library files exchanged. *)
Definition fsB : fsys.t :=
  tree roots3
    (<["dirX/f" := "Q"]>
       (<["dirY/f" := "P"]> (<["dirZ/main.c" := "int main;"]> ∅))).

Definition runA : builder.ending * builder.state :=
  builder.BuildFeature reg3 fsA dockerOK emptyDisk "app".

Definition runB : builder.ending * builder.state :=
  builder.BuildFeature reg3 fsB dockerOK (builder.disk runA.2) "app".

(** The end-to-end scenario on an empty cache, and the same with a failing
    [docker build] of [app]. *)
Definition run2 : builder.ending * builder.state :=
  builder.BuildFeature reg2 fs2 dockerOK emptyDisk "app".

Definition runFail : builder.ending * builder.state :=
  builder.BuildFeature reg2 fs2 (dockerFailsFor "app") emptyDisk "app".

(** The end-to-end scenario on a cache directory where the file of [base]
    cannot be written: the directory of [base] is there, and the system
    refuses to open [hash] in it. *)
Definition sealedDisk : cache.disk :=
  {| os.root :=
       os.Folder
         {[".builder-cache" := os.Folder {["base" := os.Folder ∅]}]};
     os.sealed := {[cache.FeatureHashPath "base"]};
     os.hidden := ∅;
     os.short := ∅ |}.

Definition runSealed : builder.ending * builder.state :=
  builder.BuildFeature reg2 fs2 dockerOK sealedDisk "app".

(** Two trees with the same bytes, cut into files differently. *)
Definition fsCut : fsys.t :=
  tree (<["d" := [dir "d"; file "d/a"; file "d/b"; dir "d/empty"]]>
          (<["e" := [dir "e"; file "e/x"]]> ∅))
    (<["d/a" := "ab"]> (<["d/b" := "c"]> (<["e/x" := "abc"]> ∅))).

(** The directory [d] of [fsCut] after its files were touched and made
    executable and empty directories were added and removed. *)
Definition fsTouched : fsys.t :=
  tree (<["d" :=
          [{| fsys.path := "d"; fsys.IsDir := true; fsys.Mode := 448;
              fsys.ModTime := 1700000000 |};
           {| fsys.path := "d/a"; fsys.IsDir := false; fsys.Mode := 493;
              fsys.ModTime := 1700000001 |};
           {| fsys.path := "d/b"; fsys.IsDir := false; fsys.Mode := 493;
              fsys.ModTime := 1700000002 |};
           dir "d/new"; dir "d/new/er"]]> ∅)
    (<["d/a" := "ab"]> (<["d/b" := "c"]> ∅)).

(** A feature without input paths. *)
Definition regMeta : config.BuilderConfig :=
  <["meta" := feature "meta" [] "./build.sh" []]> ∅.

(** The order of the dependency fingerprints that the name of the
    dependency would give: [dependsOn] sorted, each name replaced by its
    fingerprint in the per-run map. *)
Definition collectByName (hc : gmap string string) (deps : list string)
    : list string :=
  (λ dep, default "" (hc !! dep)) <$> sortStrings deps.

End examples.

(** ** What a log reports, and further concrete inputs *)

Module runlog.

(** The feature a line decides: SKIP and BUILD lines name one. *)
Definition decision (ev : builder.event) : option string :=
  match ev with
  | builder.PrintSKIP fname | builder.PrintBUILD fname => Some fname
  | _ => None
  end.

(** The features decided in a log, in the order printed. *)
Definition decisions (l : list builder.event) : list string :=
  omap decision l.

Definition isBUILD (ev : builder.event) : bool :=
  match ev with
  | builder.PrintBUILD _ => true
  | _ => false
  end.

(** How many BUILD lines a log has. *)
Definition buildLines (l : list builder.event) : nat :=
  length (filter (λ ev, isBUILD ev = true) l).

End runlog.

Module inputs.

(** [fsCut] with the file [d/b] listed by the walk but not readable. *)
Definition fsDenied : fsys.t :=
  {| fsys.Walk := fsys.Walk examples.fsCut;
     fsys.ReadAll := λ p,
       if decide (p = "d/b") then Err "permission denied"
       else fsys.ReadAll examples.fsCut p |}.

(** A directory with nothing but directories, and one with empty files. *)
Definition fsEmpty : fsys.t :=
  examples.tree
    (<["empty" := [examples.dir "empty"; examples.dir "empty/sub"]]>
       (<["zero" := [examples.dir "zero"; examples.file "zero/f";
                     examples.file "zero/g"]]> ∅))
    (<["zero/f" := ""]> (<["zero/g" := ""]> ∅)).

(** [fs2] without the directory [dirY]. *)
Definition fsNoY : fsys.t :=
  examples.tree
    (<["dirX" := [examples.dir "dirX"; examples.file "dirX/Dockerfile"]]> ∅)
    (<["dirX/Dockerfile" := "FROM alpine"]> ∅).

Definition runNoY : builder.ending * builder.state :=
  builder.BuildFeature examples.reg2 fsNoY examples.dockerOK
    examples.emptyDisk "app".

(** A feature whose second input directory does not exist. *)
Definition mixed : config.Feature :=
  examples.feature "mixed" ["d"; "gone"; "e"] "make" [].

(** The feature [app] of [reg2]. *)
Definition app2 : config.Feature :=
  examples.feature "app" ["dirY"] "c2" ["base"].

(** [reg2] with one more feature, which nothing depends on. *)
Definition regOther : config.BuilderConfig :=
  <["other" := examples.feature "other" ["dirZ"] "c3" ["app"]]> examples.reg2.



(** Two equal features whose names [x] and [./x] share one record. *)
Definition regTwin : config.BuilderConfig :=
  <["x" := examples.feature "x" ["dirX"] "c1" []]>
    (<["./x" := examples.feature "./x" ["dirX"] "c1" []]>
       (<["top" := examples.feature "top" ["dirY"] "c2" ["x"; "./x"]]> ∅)).

Definition runTwin : builder.ending * builder.state :=
  builder.BuildFeature regTwin examples.fs2 examples.dockerOK
    examples.emptyDisk "top".

(** The record of [a] is the directory that the record of [a/hash] needs. *)
Definition regNested : config.BuilderConfig :=
  <["a" := examples.feature "a" ["dirX"] "c1" []]>
    (<["a/hash" := examples.feature "a/hash" ["dirY"] "c2" ["a"]]> ∅).

Definition runNested : builder.ending * builder.state :=
  builder.BuildFeature regNested examples.fs2 examples.dockerOK
    examples.emptyDisk "a/hash".

(** A cache directory where the write of the record of [base] stops after
    eight bytes. *)
Definition shortDisk : cache.disk :=
  {| os.root := os.Folder ∅; os.sealed := ∅; os.hidden := ∅;
     os.short := {[cache.FeatureHashPath "base" := 8]} |}.

(** A cache directory where the record of [base] can be written and not
    read. *)
Definition writeOnlyDisk : cache.disk :=
  {| os.root := os.Folder ∅; os.sealed := ∅;
     os.hidden := {[cache.FeatureHashPath "base"]};
     os.short := ∅ |}.

End inputs.

(** * Properties *)

Set Warnings "-clear-no-such-hyp".

(** ** Byte strings *)

Section strings.

Lemma app_cons c (s t : string) : String c s +:+ t = String c (s +:+ t).
Proof. reflexivity. Qed.

Lemma app_empty_r (s : string) : s +:+ "" = s.
Proof. induction s as [|c s IH]; [done|]. by rewrite app_cons, IH. Qed.

Lemma app_assoc_s (s t u : string) : (s +:+ t) +:+ u = s +:+ t +:+ u.
Proof. induction s as [|c s IH]; [done|]. by rewrite !app_cons, IH. Qed.

Lemma length_app_s (s t : string) :
  String.length (s +:+ t) = String.length s + String.length t.
Proof. induction s as [|c s IH]; [done|]. rewrite app_cons. simpl. by rewrite IH. Qed.

Lemma app_inj_length (s1 s2 t1 t2 : string) :
  String.length s1 = String.length s2 →
  s1 +:+ t1 = s2 +:+ t2 → s1 = s2 ∧ t1 = t2.
Proof.
  revert s2. induction s1 as [|c s1 IH]; intros [|c2 s2] Hlen Heq; try done.
  rewrite !app_cons in Heq. injection Heq as -> Heq. injection Hlen as Hlen.
  destruct (IH s2 Hlen Heq) as [-> ->]. done.
Qed.

Lemma app_inv_tail_s (s1 s2 t : string) : s1 +:+ t = s2 +:+ t → s1 = s2.
Proof.
  intros Heq. apply (app_inj_length s1 s2 t t); [|done].
  apply (f_equal String.length) in Heq. rewrite !length_app_s in Heq. lia.
Qed.

Lemma foldl_app_catenate (h : string) (l : list string) :
  foldl String.app h l = h +:+ catenate l.
Proof.
  revert h. induction l as [|x l IH]; intros h; simpl.
  - by rewrite app_empty_r.
  - by rewrite IH, app_assoc_s.
Qed.

Lemma catenate_app (l k : list string) :
  catenate (l ++ k) = catenate l +:+ catenate k.
Proof.
  induction l as [|x l IH]; simpl; [done|]. by rewrite IH, app_assoc_s.
Qed.

Lemma catenate_inj (n : nat) (l k : list string) :
  Forall (λ s, String.length s = n) l → Forall (λ s, String.length s = n) k →
  0 < n → catenate l = catenate k → l = k.
Proof.
  intros Hl. revert k. induction Hl as [|x l Hx Hl IH]; intros k Hk Hn Heq.
  - destruct Hk as [|y k Hy Hk]; [done|]. simpl in Heq.
    apply (f_equal String.length) in Heq. rewrite length_app_s in Heq. simpl in Heq. lia.
  - destruct Hk as [|y k Hy Hk]; simpl in Heq.
    + apply (f_equal String.length) in Heq. rewrite length_app_s in Heq. simpl in Heq. lia.
    + apply app_inj_length in Heq as [-> Heq]; [|congruence]. f_equal. by apply IH.
Qed.

End strings.

(** ** The digest is 64 hexadecimal characters *)

Section digest.

Lemma length_EncodeToString bs :
  String.length (hex.EncodeToString bs) = 2 * length bs.
Proof. induction bs as [|b bs IH]; simpl; [done|]. rewrite IH. lia. Qed.

Lemma length_round s kw : length s = 8 → length (sha256.round s kw) = 8.
Proof.
  intros H. do 9 (destruct s as [|? s]; try discriminate H). done.
Qed.

Lemma length_rounds kws s : length s = 8 → length (foldl sha256.round s kws) = 8.
Proof.
  revert s. induction kws as [|kw kws IH]; intros s H; simpl; [done|].
  by apply IH, length_round.
Qed.

Lemma length_block s ws : length s = 8 → length (sha256.block s ws) = 8.
Proof.
  intros H. unfold sha256.block. rewrite length_zip_with, length_rounds by done. lia.
Qed.

Lemma length_blocks fuel s ws : length s = 8 → length (sha256.blocks fuel s ws) = 8.
Proof.
  revert s ws. induction fuel as [|fuel IH]; intros s ws H; simpl; [done|].
  destruct ws; [done|]. by apply IH, length_block.
Qed.

Lemma length_Sum256 msg : length (sha256.Sum256 msg) = 32.
Proof.
  unfold sha256.Sum256.
  pose proof (length_blocks
    (length (sha256.words (length (sha256.pad (sha256.bytes_of msg))) (sha256.pad (sha256.bytes_of msg))))
    sha256.init
    (sha256.words (length (sha256.pad (sha256.bytes_of msg))) (sha256.pad (sha256.bytes_of msg))) eq_refl) as H.
  destruct (sha256.blocks _ _ _) as [|? l]; [done|].
  do 8 (destruct l as [|? l]; try discriminate H). done.
Qed.

Lemma sha256hex_length data : String.length (sha256hex data) = 64.
Proof. unfold sha256hex. by rewrite length_EncodeToString, length_Sum256. Qed.

End digest.

(** ** [sort.Strings] *)

Section sorting_facts.

Lemma sortStrings_Permutation l : sortStrings l ≡ₚ l.
Proof. apply merge_sort_Permutation. Qed.

Lemma sortStrings_Sorted l : Sorted String.le (sortStrings l).
Proof. apply (Sorted_merge_sort String.le). Qed.

Lemma sortStrings_perm l k : l ≡ₚ k → sortStrings l = sortStrings k.
Proof.
  intros Hp. apply (Sorted_unique String.le); [apply sortStrings_Sorted..|].
  by rewrite !sortStrings_Permutation.
Qed.

Lemma sortStrings_length l : length (sortStrings l) = length l.
Proof. apply Permutation_length, sortStrings_Permutation. Qed.

End sorting_facts.

(** ** The hashing loops *)

Section hashing.
Context (fs : fsys.t).

Lemma copyFiles_contents files contents h :
  Forall2 (λ f c, fsys.ReadAll fs f = OK c) files contents →
  main.copyFiles fs files h = OK (h +:+ catenate contents).
Proof.
  intros H. revert h. induction H as [|f c files contents Hf _ IH]; intros h; simpl.
  - by rewrite app_empty_r.
  - by rewrite Hf, IH, app_assoc_s.
Qed.

Lemma writeInputs_hashes inputs hashes h :
  Forall2 (λ i x, main.HashDir fs i = OK x) inputs hashes →
  main.writeInputs fs inputs h = OK (h +:+ catenate hashes).
Proof.
  intros H. revert h. induction H as [|i x inputs hashes Hi _ IH]; intros h; simpl.
  - by rewrite app_empty_r.
  - by rewrite Hi, IH, app_assoc_s.
Qed.

Lemma writeInputs_OK inputs h b :
  main.writeInputs fs inputs h = OK b →
  ∃ hashes, Forall2 (λ i x, main.HashDir fs i = OK x) inputs hashes ∧
            b = h +:+ catenate hashes.
Proof.
  revert h. induction inputs as [|i inputs IH]; intros h; simpl.
  - intros [= <-]. exists []. by rewrite app_empty_r.
  - destruct (main.HashDir fs i) as [x|e] eqn:Hi; [|done].
    intros (hashes & HF & ->)%IH. exists (x :: hashes).
    split; [by constructor|]. by rewrite app_assoc_s.
Qed.

Lemma HashDir_contents dir entries contents :
  fsys.Walk fs dir = OK entries →
  Forall2 (λ f c, fsys.ReadAll fs f = OK c) (walkedFiles entries) contents →
  main.HashDir fs dir = OK (sha256hex (catenate contents)).
Proof.
  intros Hw Hc. unfold main.HashDir. by rewrite Hw, (copyFiles_contents _ contents).
Qed.

Lemma writeFileHashes_contents files contents h :
  Forall2 (λ f c, fsys.ReadAll fs f = OK c) files contents →
  hash.writeFileHashes fs files h = OK (h +:+ catenate (sha256hex <$> contents)).
Proof.
  intros H. revert h. induction H as [|f c files contents Hf _ IH]; intros h; simpl.
  - by rewrite app_empty_r.
  - unfold hash.HashFile. by rewrite Hf, IH, app_assoc_s.
Qed.

Lemma ComputeFeatureHash_perm feat hs1 hs2 :
  hs1 ≡ₚ hs2 →
  main.ComputeFeatureHash fs feat hs1 = main.ComputeFeatureHash fs feat hs2.
Proof.
  intros Hp. unfold main.ComputeFeatureHash, main.featureBytes.
  by rewrite (sortStrings_perm hs1 hs2).
Qed.

Lemma ComputeFeatureHash_length feat hs h :
  main.ComputeFeatureHash fs feat hs = OK h → String.length h = 64.
Proof.
  unfold main.ComputeFeatureHash. destruct (main.featureBytes fs feat hs); [|done].
  intros [= <-]. apply sha256hex_length.
Qed.

End hashing.

(** ** Directory digests and feature fingerprints *)

Lemma walkedFiles_perm entries entries' :
  nonDirPaths entries' ≡ₚ nonDirPaths entries →
  walkedFiles entries' = walkedFiles entries.
Proof. apply sortStrings_perm. Qed.

Lemma Forall2_ReadAll_ext fs fs' files contents :
  (∀ f, f ∈ files → fsys.ReadAll fs' f = fsys.ReadAll fs f) →
  Forall2 (λ f c, fsys.ReadAll fs f = OK c) files contents →
  Forall2 (λ f c, fsys.ReadAll fs' f = OK c) files contents.
Proof.
  intros Hext H. induction H as [|f c files contents Hf _ IH]; constructor.
  - rewrite Hext; [done|]. apply elem_of_cons. by left.
  - apply IH. intros f' Hf'. apply Hext, elem_of_cons. by right.
Qed.

(** C4 (amended).  [HashDir] of [cmd/apis] takes every entry under the path
    that is not a directory, sorts the full paths byte-wise and streams the raw
    bytes of the files, in that order, into one single digest: the result is
    the digest of the concatenated contents, no file is digested on its own.
    Any other tree with the same non-directory paths and the same contents
    gets the same digest, whatever its modes, modification times, directory
    entries and walk order. *)
Theorem HashDir_streams_files (fs : fsys.t) dir entries contents :
  fsys.Walk fs dir = OK entries →
  Forall2 (λ f c, fsys.ReadAll fs f = OK c) (walkedFiles entries) contents →
  main.HashDir fs dir = OK (sha256hex (catenate contents)) ∧
  Sorted String.le (walkedFiles entries) ∧
  walkedFiles entries ≡ₚ nonDirPaths entries ∧
  ∀ (fs' : fsys.t) dir' entries',
    fsys.Walk fs' dir' = OK entries' →
    nonDirPaths entries' ≡ₚ nonDirPaths entries →
    (∀ f, f ∈ walkedFiles entries → fsys.ReadAll fs' f = fsys.ReadAll fs f) →
    main.HashDir fs' dir' = main.HashDir fs dir.
Proof.
  intros Hw Hc. split_and!.
  - by apply (HashDir_contents fs dir entries).
  - apply sortStrings_Sorted.
  - apply sortStrings_Permutation.
  - intros fs' dir' entries' Hw' Hp Hext.
    rewrite (HashDir_contents fs dir entries contents Hw Hc).
    apply (HashDir_contents fs' dir' entries' contents Hw').
    rewrite (walkedFiles_perm _ _ Hp). by apply (Forall2_ReadAll_ext fs).
Qed.


Lemma library_HashDir_contents (fs : fsys.t) dir entries contents :
  fsys.Walk fs dir = OK entries →
  Forall2 (λ f c, fsys.ReadAll fs f = OK c) (walkedFiles entries) contents →
  hash.HashDir fs dir = OK (sha256hex (catenate (sha256hex <$> contents))).
Proof.
  intros Hw Hc. unfold hash.HashDir.
  by rewrite Hw, (writeFileHashes_contents fs _ contents).
Qed.

Lemma inputParts_hashes (fs : fsys.t) inputs parts :
  Forall2 (λ i x, hash.HashDir fs i = OK x) inputs parts →
  feature.inputParts fs inputs = OK parts.
Proof.
  intros H. induction H as [|i x inputs parts Hi _ IH]; simpl; [done|].
  by rewrite Hi, IH.
Qed.

(** C3 (amended).  [ComputeFeatureHash] of [cmd/apis] digests the raw command
    bytes, then the digests of the input directories in list order, then the
    dependency fingerprints sorted by their own value (byte-wise), in that
    sorted order.  The library twin [internal/feature] digests, joined by a
    bar, the command digest, the input digests and the strings name+fingerprint
    of its map sorted as strings. *)
Theorem dependency_hashes_sorted_by_value (fs : fsys.t) (feat : config.Feature)
    (depHashes hashes : list string) :
  Forall2 (λ i x, main.HashDir fs i = OK x) (config.Inputs feat) hashes →
  main.ComputeFeatureHash fs feat depHashes =
    OK (sha256hex (config.Command feat +:+ catenate hashes
                     +:+ catenate (sortStrings depHashes))) ∧
  Sorted String.le (sortStrings depHashes) ∧
  sortStrings depHashes ≡ₚ depHashes ∧
  ∀ (m : gmap string string) parts,
    Forall2 (λ i x, hash.HashDir fs i = OK x) (config.Inputs feat) parts →
    feature.ComputeFeatureHash fs feat m =
      OK (sha256hex
            (String.concat "|"
               (sha256hex (config.Command feat) :: parts
                  ++ feature.depParts m))) ∧
    Sorted String.le (feature.depParts m) ∧
    feature.depParts m ≡ₚ (λ kv, kv.1 +:+ kv.2) <$> map_to_list m.
Proof.
  intros Hin. split_and!.
  - unfold main.ComputeFeatureHash, main.featureBytes.
    rewrite (writeInputs_hashes fs _ hashes _ Hin).
    unfold main.writeAll. by rewrite foldl_app_catenate, app_assoc_s.
  - apply sortStrings_Sorted.
  - apply sortStrings_Permutation.
  - intros m parts Hparts. split_and!.
    + unfold feature.ComputeFeatureHash. by rewrite (inputParts_hashes fs _ parts Hparts).
    + apply sortStrings_Sorted.
    + apply sortStrings_Permutation.
Qed.

(** ** Dependency resolution *)

Import Graph.

Section walk_facts.
Context (g : graph).

Lemma eachDep_post visit node T V0 deps :
  (∀ d, d ∈ deps → edge g node d) →
  (∀ d w, d ∈ deps → inv g w → temp w = T → V0 ⊆ visited w → visit_post g d w (visit d w)) →
  ∀ w, inv g w → temp w = T → V0 ⊆ visited w →
    loop_post g node deps w (eachDep visit g deps w).
Proof.
  induction deps as [|d deps IH]; intros Hedge Hvisit w Hinv HT HV; simpl.
  - split_and!; [done..| |exists []; rewrite app_nil_r; split; [done|]].
    + by intros d ?%elem_of_nil.
    + by intros x ?%elem_of_nil.
  - assert (Hd0 : d ∈ d :: deps) by (apply elem_of_cons; by left).
    assert (Hnode : edge g node d) by by apply Hedge.
    destruct (g !! d) as [ds|] eqn:Hd.
    2:{ split; [done|]. exists node. split; [apply rtc_refl|done]. }
    pose proof (Hvisit d w Hd0 Hinv HT HV) as Hv.
    destruct (visit d w) as [w'|[n|u]|]; simpl in Hv.
    + destruct Hv as (Hinv' & HT' & HV' & Hdv & new & Hnew & Hreach).
      assert (IH' : loop_post g node deps w' (eachDep visit g deps w')).
      { apply IH.
        - intros d' Hd'. apply Hedge, elem_of_cons. by right.
        - intros d' w0 Hd'. apply Hvisit, elem_of_cons. by right.
        - done.
        - congruence.
        - set_solver. }
      destruct (eachDep visit g deps w') as [w''|[n|u]|]; simpl in *; try done.
      destruct IH' as (Hinv'' & HT'' & HV'' & Hall & new' & Hnew' & Hreach').
      split_and!; [done|congruence|set_solver| |].
      * intros d' [->|Hin]%elem_of_cons; [|by apply Hall].
        split; [set_solver|by rewrite Hd].
      * exists (new ++ new'). split; [by rewrite Hnew', Hnew, app_assoc|].
        intros x [Hx|Hx]%elem_of_app; [|by apply Hreach'].
        eapply rtc_l; [exact Hnode|by apply Hreach].
    + destruct Hv as [Hc Hr]. split; [done|].
      eapply rtc_l; [exact Hnode|done].
    + destruct Hv as [Hc (n & Hr & He)]. split; [done|].
      exists n. split; [|done]. eapply rtc_l; [exact Hnode|done].
    + done.
Qed.

Lemma unmarked_shrinks node (w : walk) :
  node ∈ dom g → node ∉ temp w → node ∉ visited w →
  size (dom g ∖ (({[node]} ∪ temp w) ∪ visited w)) < size (unmarked g w).
Proof.
  intros Hdom Ht Hv. apply subset_size. unfold unmarked. set_solver.
Qed.

Lemma unmarked_mono (w w' : walk) :
  temp w' = temp w → visited w ⊆ visited w' →
  size (unmarked g w') ≤ size (unmarked g w).
Proof.
  intros HT HV. apply subseteq_size. unfold unmarked. rewrite HT. set_solver.
Qed.

Lemma inv_finish node (w1 w2 : walk) :
  inv g w2 → node ∈ temp w2 →
  (∀ d, edge g node d → d ∈ visited w2 ∧ is_Some (g !! d)) →
  inv g {| visited := {[node]} ∪ visited w2;
         temp := temp w2 ∖ {[node]};
         order := order w2 ++ [node] |}.
Proof.
  intros [Hvis Hnd Htemp Hdeps Hkeys] Hin Hall.
  assert (Hfresh : node ∉ order w2).
  { rewrite <-Hvis. set_solver. }
  split; simpl.
  - intros x. rewrite elem_of_app, list_elem_of_singleton, <-Hvis. set_solver.
  - apply NoDup_app. split_and!; [done| |apply NoDup_singleton].
    intros x Hx ->%list_elem_of_singleton. done.
  - set_solver.
  - intros l1 n l2 Heq d Hed.
    destruct l2 as [|y l2 _] using rev_ind.
    + apply app_inj_tail in Heq as [<- <-].
      apply Hvis, Hall, Hed.
    + rewrite app_comm_cons, app_assoc in Heq.
      apply app_inj_tail in Heq as [Heq _].
      by eapply Hdeps.
  - intros n d [Hn| ->%list_elem_of_singleton]%elem_of_app Hed.
    + by eapply Hkeys.
    + by apply Hall.
Qed.

Lemma topoSort_post fuel :
  ∀ node w,
    inv g w → (∀ t, t ∈ temp w → tc (edge g) t node) →
    size (unmarked g w) < fuel →
    visit_post g node w (topoSort fuel g node w).
Proof.
  induction fuel as [|fuel IH]; intros node w Hinv Hstack Hfuel; [lia|].
  simpl. destruct (decide (node ∈ temp w)) as [Ht|Ht].
  { split; [by apply Hstack|apply rtc_refl]. }
  destruct (decide (node ∈ visited w)) as [Hv|Hv].
  { split_and!; [done..|]. exists []. rewrite app_nil_r. split; [done|].
    by intros x ?%elem_of_nil. }
  set (w1 := {| visited := visited w; temp := {[node]} ∪ temp w; order := order w |}).
  assert (Hinv1 : inv g w1).
  { destruct Hinv as [Hvis Hnd Htemp Hdeps Hkeys]. split; simpl; try done. set_solver. }
  assert (Hloop : loop_post g node (default [] (g !! node)) w1
            (eachDep (topoSort fuel g) g (default [] (g !! node)) w1)).
  { apply (eachDep_post _ _ (temp w1) (visited w1)); [| |done..].
    - intros d Hd. destruct (g !! node) as [ds|] eqn:Hg; simpl in Hd.
      + by exists ds.
      + by apply elem_of_nil in Hd.
    - intros d w0 Hd Hinv0 HT0 HV0. apply IH; [done| |].
      + assert (Hed : edge g node d).
        { destruct (g !! node) as [ds|] eqn:Hg; simpl in Hd.
          - by exists ds.
          - by apply elem_of_nil in Hd. }
        intros t. rewrite HT0. simpl. intros [->%elem_of_singleton|Hin]%elem_of_union.
        * by apply tc_once.
        * eapply tc_r; [by apply Hstack|done].
      + assert (Hdom : node ∈ dom g).
        { apply elem_of_dom. destruct (g !! node); [done|]. by apply elem_of_nil in Hd. }
        pose proof (unmarked_shrinks node w Hdom Ht Hv) as Hlt.
        pose proof (unmarked_mono w1 w0 HT0 HV0) as Hle.
        unfold unmarked in Hle at 2. simpl in Hle. lia. }
  destruct (eachDep (topoSort fuel g) g (default [] (g !! node)) w1)
    as [w2|[n|u]|]; simpl in Hloop |- *; try done.
  destruct Hloop as (Hinv2 & HT2 & HV2 & Hall & new & Hnew & Hreach).
  split_and!.
  - apply (inv_finish node w1 w2); [done|rewrite HT2; set_solver|].
    intros d [ds [Hg Hd]]. apply Hall. by rewrite Hg.
  - rewrite HT2. simpl. set_solver.
  - simpl. set_solver.
  - simpl. set_solver.
  - exists (new ++ [node]). simpl. split; [by rewrite Hnew, app_assoc|].
    intros x [Hx| ->%list_elem_of_singleton]%elem_of_app; [by apply Hreach|apply rtc_refl].
Qed.

Lemma inv_start : inv g start.
Proof.
  split; simpl; try set_solver.
  - apply NoDup_nil_2.
  - intros [|??] ? ? Heq; discriminate Heq.
Qed.

Lemma topoSort_start target :
  visit_post g target start (topoSort (S (size g)) g target start).
Proof.
  apply topoSort_post; [apply inv_start|set_solver|].
  apply Nat.lt_succ_r. rewrite <-(size_dom (D:=gset string)).
  apply subseteq_size. unfold unmarked. set_solver.
Qed.

(* in a list closed under [edge] and listing dependencies first, an edge
   leads to a smaller index *)
Lemma deps_before names n d :
  NoDup names →
  (∀ l1 x l2, names = l1 ++ x :: l2 → ∀ y, edge g x y → y ∈ l1) →
  n ∈ names → edge g n d → before names d n.
Proof.
  intros Hnd Hdeps Hn Hed.
  apply list_elem_of_split in Hn as (l1 & l2 & ->).
  pose proof (Hdeps l1 n l2 eq_refl d Hed) as Hd.
  apply list_elem_of_lookup in Hd as [i Hi].
  exists i, (length l1). split_and!.
  - by apply lookup_app_l_Some.
  - by rewrite list_lookup_middle.
  - by eapply lookup_lt_Some.
Qed.

Lemma before_lt names i j x y :
  NoDup names → names !! i = Some x → names !! j = Some y → before names x y → i < j.
Proof.
  intros Hnd Hi Hj (i' & j' & Hi' & Hj' & Hlt).
  pose proof (NoDup_lookup _ _ _ _ Hnd Hi Hi').
  pose proof (NoDup_lookup _ _ _ _ Hnd Hj Hj'). lia.
Qed.

Lemma closed_reachable (names : list string) target :
  target ∈ names →
  (∀ n d, n ∈ names → edge g n d → d ∈ names) →
  ∀ x, reachable g target x → x ∈ names.
Proof.
  intros Ht Hcl x Hr. induction Hr as [|x y z Hxy _ IH]; [done|].
  apply IH. by eapply Hcl.
Qed.

(* along a path inside such a list the index strictly decreases *)
Lemma tc_before names n m :
  NoDup names →
  (∀ l1 x l2, names = l1 ++ x :: l2 → ∀ y, edge g x y → y ∈ l1) →
  n ∈ names → tc (edge g) n m → before names m n.
Proof.
  intros Hnd Hdeps Hn Htc. induction Htc as [x y Hxy|x y z Hxy Hyz IH].
  - by apply deps_before.
  - pose proof (deps_before names x y Hnd Hdeps Hn Hxy) as Hb.
    assert (Hy : y ∈ names).
    { destruct Hb as (i & _ & Hi & _). by eapply list_elem_of_lookup_2. }
    destruct (IH Hy) as (i & j & Hi & Hj & Hlt).
    destruct Hb as (i' & j' & Hi' & Hj' & Hlt').
    exists i, j'. split_and!; [done..|].
    pose proof (NoDup_lookup _ _ _ _ Hnd Hj Hi'). lia.
Qed.

Lemma before_irrefl names x : NoDup names → ¬ before names x x.
Proof.
  intros Hnd (i & j & Hi & Hj & Hlt).
  pose proof (NoDup_lookup _ _ _ _ Hnd Hi Hj). lia.
Qed.

Lemma Resolve_finishes target : Resolve g target ≠ Unfinished.
Proof.
  unfold Resolve. pose proof (topoSort_start target) as H. 
  by destruct (topoSort _ g target start) as [w|e|].
Qed.

Lemma Resolve_order target names :
  Resolve g target = BuildOrder names →
  NoDup names ∧
  (∀ x, x ∈ names ↔ reachable g target x) ∧
  (∀ l1 x l2, names = l1 ++ x :: l2 → ∀ y, edge g x y → y ∈ l1) ∧
  (∀ n d, n ∈ names → edge g n d → is_Some (g !! d)).
Proof.
  unfold Resolve. pose proof (topoSort_start target) as H. 
  destruct (topoSort _ g target start) as [w|e|]; intros [= <-].
  destruct H as ([Hvis Hnd Htemp Hdeps Hkeys] & _ & _ & Ht & new & Hnew & Hreach).
  simpl in Hnew. split_and!; [done| |done..].
  intros x. split.
  - rewrite Hnew. apply Hreach.
  - apply closed_reachable; [by apply Hvis|].
    intros n d Hn Hed. apply list_elem_of_split in Hn as (l1 & l2 & Heq).
    rewrite Heq. apply elem_of_app. left. by eapply Hdeps.
Qed.

Lemma Resolve_cycle target n :
  Resolve g target = DependencyError (CycleDetected n) →
  on_cycle g n ∧ reachable g target n.
Proof.
  unfold Resolve. pose proof (topoSort_start target) as H. 
  by destruct (topoSort _ g target start) as [w|[?|?]|]; intros [= <-].
Qed.

Lemma Resolve_unknown target d :
  Resolve g target = DependencyError (UnknownDependency d) →
  g !! d = None ∧ ∃ n, reachable g target n ∧ edge g n d.
Proof.
  unfold Resolve. pose proof (topoSort_start target) as H. 
  by destruct (topoSort _ g target start) as [w|[?|?]|]; intros [= <-].
Qed.

End walk_facts.

Lemma edge_buildGraph (cfg : config.BuilderConfig) n d :
  edge (buildGraph cfg) n d ↔
  ∃ feat, cfg !! n = Some feat ∧ d ∈ config.DependsOn feat.
Proof.
  unfold edge, buildGraph. setoid_rewrite lookup_fmap. split.
  - intros (deps & Hn & Hd). destruct (cfg !! n) as [feat|]; [|done].
    injection Hn as <-. by exists feat.
  - intros (feat & -> & Hd). by exists (config.DependsOn feat).
Qed.

Lemma acyclic_by_rank g (rank : string → nat) :
  (∀ n d, edge g n d → rank d < rank n) → acyclic g.
Proof.
  intros Hrank n Hc.
  assert (H : ∀ x y, tc (edge g) x y → rank y < rank x).
  { intros x y Htc. induction Htc as [x y Hxy|x y z Hxy _ IH].
    - by apply Hrank.
    - apply Hrank in Hxy. lia. }
  apply H in Hc. lia.
Qed.

(** C1 (amended).  For every acyclic registry in which every name listed by
    a feature reachable from the target is a registry key, and every target
    present in it, [Resolve] returns a build order that contains each feature
    reachable from the target exactly once, contains nothing unreachable from
    it, and places every dependency strictly before every feature that
    depends on it. *)
Theorem resolve_acyclic_order (cfg : config.BuilderConfig) target :
  acyclic (buildGraph cfg) →
  references_resolve (buildGraph cfg) target →
  is_Some (cfg !! target) →
  ∃ names,
    Resolve (buildGraph cfg) target = BuildOrder names ∧
    NoDup names ∧
    (∀ x, x ∈ names ↔ reachable (buildGraph cfg) target x) ∧
    (∀ n d, n ∈ names → edge (buildGraph cfg) n d → before names d n).
Proof.
  intros Hacyc Href _.
  destruct (Resolve (buildGraph cfg) target) as [names|[n|d]|] eqn:HR.
  - exists names. apply Resolve_order in HR as (Hnd & Hmem & Hdeps & _).
    split_and!; [done..|]. intros n d. by apply deps_before.
  - apply Resolve_cycle in HR as [Hc _]. by apply Hacyc in Hc.
  - apply Resolve_unknown in HR as (Hnone & n & Hr & He).
    destruct (Href n d Hr He) as [? Hsome]. congruence.
  - by apply Resolve_finishes in HR.
Qed.

(** C6 (amended).  When a dependency cycle is reachable from the target (in
    particular when the target lies on it), [Resolve] returns no build order:
    it fails either with the cycle error, naming a node that lies on a cycle
    and is reachable from the target, or, when a listed name missing from the
    registry is met first, with the unknown-dependency error naming it.  When
    every name listed by a feature reachable from the target is a registry
    key, it is the cycle error. *)
Theorem resolve_cycle_fails (g : graph) target c :
  reachable g target c → on_cycle g c →
  (∃ e, Resolve g target = DependencyError e ∧
        match e with
        | CycleDetected n => on_cycle g n ∧ reachable g target n
        | UnknownDependency d =>
            g !! d = None ∧ ∃ n, reachable g target n ∧ edge g n d
        end) ∧
  (references_resolve g target →
   ∃ n, Resolve g target = DependencyError (CycleDetected n) ∧
        on_cycle g n ∧ reachable g target n).
Proof.
  intros Hr Hc.
  assert (Hno : ∀ names, Resolve g target ≠ BuildOrder names).
  { intros names HR. apply Resolve_order in HR as (Hnd & Hmem & Hdeps & _).
    apply (before_irrefl names c Hnd).
    apply (tc_before g); [done..| |done]. by apply Hmem. }
  destruct (Resolve g target) as [names|[n|d]|] eqn:HR.
  - by destruct (Hno names).
  - pose proof (Resolve_cycle _ _ _ HR) as [Hcn Hrn]. split; [by eexists|].
    intros _. by exists n.
  - pose proof (Resolve_unknown _ _ _ HR) as (Hnone & n & Hrn & He).
    split; [eexists; split; [done|]; simpl; eauto|].
    intros Href. destruct (Href n d Hrn He) as [? Hsome]. congruence.
  - by apply Resolve_finishes in HR.
Qed.

Lemma Resolve_absent_target (g : graph) target :
  g !! target = None → Resolve g target = BuildOrder [target].
Proof.
  intros Hnone. unfold Resolve. simpl.
  rewrite decide_False by set_solver. rewrite decide_False by set_solver.
  by rewrite Hnone.
Qed.

(** *** The fuel is no restriction

    A call that ends with some fuel ends in the same way with more, and the
    fuel of [Resolve] always suffices: [Resolve] is the recursion of the
    source. *)

Lemma eachDep_more_fuel (visit1 visit2 : string → walk → outcome) (g : graph) deps :
  (∀ d w r, visit1 d w = r → r ≠ OutOfFuel → visit2 d w = r) →
  ∀ w r, eachDep visit1 g deps w = r → r ≠ OutOfFuel →
         eachDep visit2 g deps w = r.
Proof.
  intros Hv. induction deps as [|d deps IH]; intros w r; simpl; [done|].
  destruct (g !! d); [|done].
  destruct (visit1 d w) as [w'|e|] eqn:H1.
  - rewrite (Hv d w (Done w') H1); [|done]. apply IH.
  - rewrite (Hv d w (Failed e) H1); done.
  - by intros <-.
Qed.

Lemma topoSort_more_fuel (g : graph) n :
  ∀ m node w r, n ≤ m → topoSort n g node w = r → r ≠ OutOfFuel →
                topoSort m g node w = r.
Proof.
  induction n as [|n IH]; intros m node w r Hle; simpl.
  { by intros <-. }
  destruct m as [|m]; [lia|]. simpl.
  destruct (decide (node ∈ temp w)); [done|].
  destruct (decide (node ∈ visited w)); [done|].
  destruct (eachDep (topoSort n g) g _ _) as [w2|e|] eqn:Hloop; intros <- Hr;
    try done.
  - assert (eachDep (topoSort m g) g (default [] (g !! node))
              {| visited := visited w; temp := {[node]} ∪ temp w;
                 order := order w |} = Done w2) as ->; [|done].
    apply (eachDep_more_fuel (topoSort n g)); [|done..].
    intros d w' r. apply IH. lia.
  - assert (eachDep (topoSort m g) g (default [] (g !! node))
              {| visited := visited w; temp := {[node]} ∪ temp w;
                 order := order w |} = Failed e) as ->; [|done].
    apply (eachDep_more_fuel (topoSort n g)); [|done..].
    intros d w' r. apply IH. lia.
Qed.

Lemma Resolve_any_fuel (g : graph) target fuel :
  S (size g) ≤ fuel →
  match topoSort fuel g target start with
  | Done w => Resolve g target = BuildOrder (order w)
  | Failed e => Resolve g target = DependencyError e
  | OutOfFuel => False
  end.
Proof.
  intros Hle. pose proof (Resolve_finishes g target) as Hfin. unfold Resolve in *.
  destruct (topoSort (S (size g)) g target start) as [w|e|] eqn:H; [| |done].
  - by rewrite (topoSort_more_fuel g _ fuel target start (Done w) Hle H).
  - by rewrite (topoSort_more_fuel g _ fuel target start (Failed e) Hle H).
Qed.

(** ** The cache files *)

Import builder.

(** *** Paths of plain names *)

Ltac solve_ordinary :=
  repeat first [apply Forall_nil_2 | apply Forall_cons_2];
  first [assumption | by repeat split].

Section paths.

Lemma split_elem a rest :
  filepath.lacks "/" a = true →
  filepath.split (a +:+ String "/" rest) = a :: filepath.split rest.
Proof.
  induction a as [|c a IH]; simpl; [done|].
  intros [Hc Ha]%andb_prop. apply negb_true_iff in Hc. rewrite Hc.
  by rewrite (IH Ha).
Qed.

Lemma split_single a :
  filepath.lacks "/" a = true → filepath.split a = [a].
Proof.
  induction a as [|c a IH]; simpl; [done|].
  intros [Hc Ha]%andb_prop. apply negb_true_iff in Hc. rewrite Hc.
  by rewrite (IH Ha).
Qed.

Lemma concat_cons (x y : string) l :
  String.concat "/" (x :: y :: l) = x +:+ String "/" (String.concat "/" (y :: l)).
Proof. done. Qed.

Lemma split_concat l :
  l ≠ [] → Forall (λ e, filepath.lacks "/" e = true) l →
  filepath.split (String.concat "/" l) = l.
Proof.
  induction l as [|x [|y l] IH]; intros Hne Hl; [done| |].
  - apply split_single. by apply Forall_inv in Hl.
  - rewrite concat_cons. apply Forall_cons in Hl as [Hx Hl].
    rewrite (split_elem x) by done. by rewrite IH.
Qed.

Lemma lacks_app_separator a rest :
  filepath.lacks "/" (a +:+ String "/" rest) = false.
Proof.
  induction a as [|c a IH]; simpl; [done|]. rewrite IH. apply andb_false_r.
Qed.

Lemma upToLastSeparator_elem a rest :
  filepath.upToLastSeparator (a +:+ String "/" rest) =
  a +:+ String "/" (filepath.upToLastSeparator rest).
Proof.
  induction a as [|c a IH].
  - done.
  - change (String c a +:+ String "/" rest) with (String c (a +:+ String "/" rest)).
    cbn [filepath.upToLastSeparator].
    change (filepath.lacks "/" (String c (a +:+ String "/" rest)))
      with (negb (Ascii.eqb c "/") && filepath.lacks "/" (a +:+ String "/" rest)).
    rewrite lacks_app_separator, andb_false_r. by rewrite IH.
Qed.

Lemma upToLastSeparator_single a :
  filepath.lacks "/" a = true → filepath.upToLastSeparator a = "".
Proof. destruct a as [|c a]; [done|]. intros H. cbn [filepath.upToLastSeparator]. by rewrite H. Qed.

Lemma upToLastSeparator_concat l e :
  l ≠ [] → filepath.lacks "/" e = true →
  filepath.upToLastSeparator (String.concat "/" (l ++ [e])) =
  String.concat "/" (l ++ [""]).
Proof.
  intros Hne He. induction l as [|x [|y l] IH]; [done| |].
  - change (filepath.upToLastSeparator (x +:+ String "/" e) = x +:+ String "/" "").
    by rewrite upToLastSeparator_elem, upToLastSeparator_single.
  - change (filepath.upToLastSeparator
              (x +:+ String "/" (String.concat "/" ((y :: l) ++ [e]))) =
            x +:+ String "/" (String.concat "/" ((y :: l) ++ [""]))).
    by rewrite upToLastSeparator_elem, IH.
Qed.

Lemma foldl_step r l :
  Forall filepath.ordinary l →
  ∀ out, foldl (filepath.step r) out l =
         reverse (List.filter filepath.kept l) ++ out.
Proof.
  induction 1 as [|e l (H2 & _) _ IH]; intros out; simpl; [done|].
  rewrite IH. unfold filepath.step, filepath.kept. rewrite H2.
  destruct (String.eqb e "" || String.eqb e "."); simpl; [done|].
  by rewrite reverse_cons, <-app_assoc.
Qed.

Lemma Clean_relative path :
  path ≠ "" → filepath.rooted path = false →
  filepath.Clean path =
  match foldl (filepath.step false) [] (filepath.split path) with
  | [] => "."
  | out => String.concat "/" (reverse out)
  end.
Proof.
  destruct path as [|c p]; [done|]. intros _ Hr.
  unfold filepath.Clean. rewrite Hr. by destruct (foldl _ _ _).
Qed.

Lemma concat_head (e : string) l :
  e ≠ "" → filepath.lacks "/" e = true →
  String.concat "/" (e :: l) ≠ "" ∧
  filepath.rooted (String.concat "/" (e :: l)) = false.
Proof.
  destruct e as [|c e]; [done|]. intros _ [Hc _]%andb_prop.
  apply negb_true_iff in Hc. by destruct l.
Qed.

Lemma kept_ne_empty e : filepath.kept e = true → e ≠ "".
Proof. by intros ? ->. Qed.

(** [Clean] of elements joined by separators drops the empty elements and
    the [.] elements after the first. *)
Lemma Clean_concat e l :
  filepath.kept e = true → Forall filepath.ordinary (e :: l) →
  filepath.Clean (String.concat "/" (e :: l)) =
  String.concat "/" (e :: List.filter filepath.kept l).
Proof.
  intros Hk Hl. pose proof Hl as [(_ & He) _]%Forall_cons.
  destruct (concat_head e l (kept_ne_empty e Hk) He) as [Hpath Hroot].
  rewrite (Clean_relative _ Hpath Hroot).
  rewrite split_concat; [|done|].
  2:{ eapply Forall_impl; [done|]. by intros x (_ & ?). }
  rewrite (foldl_step false _ Hl), app_nil_r.
  assert (List.filter filepath.kept (e :: l) = e :: List.filter filepath.kept l)
    as -> by (simpl; by rewrite Hk).
  destruct (reverse (e :: List.filter filepath.kept l)) as [|x out] eqn:Heq.
  - apply (f_equal reverse) in Heq. by rewrite reverse_involutive in Heq.
  - by rewrite <-Heq, reverse_involutive.
Qed.

Lemma elements_concat l :
  l ≠ [] → Forall filepath.ordinary l →
  os.elements (String.concat "/" l) = List.filter filepath.kept l.
Proof.
  intros Hne Hl. unfold os.elements. rewrite split_concat; [done..|].
  eapply Forall_impl; [done|]. by intros x (_ & ?).
Qed.

Lemma plain_ordinary name :
  cache.plain name = true → filepath.kept name = true ∧ filepath.ordinary name.
Proof.
  unfold cache.plain, filepath.ordinary, filepath.kept.
  rewrite !andb_true_iff, !negb_true_iff.
  intros (((((H0 & H1) & ?) & ?) & _) & _). by rewrite H0, H1.
Qed.

Lemma FeatureHashPath_plain f :
  cache.plain f = true →
  cache.FeatureHashPath f = String.concat "/" [".builder-cache"; f; "hash"].
Proof.
  intros [Hk Hf]%plain_ordinary.
  change (cache.FeatureHashPath f)
    with (filepath.Clean (String.concat "/" [".builder-cache"; f; "hash"])).
  rewrite Clean_concat; [|done|solve_ordinary].
  simpl. by rewrite Hk.
Qed.

Lemma Dir_FeatureHashPath f :
  cache.plain f = true →
  filepath.Dir (cache.FeatureHashPath f) =
  String.concat "/" [".builder-cache"; f].
Proof.
  intros Hp. rewrite (FeatureHashPath_plain f Hp).
  destruct (plain_ordinary f Hp) as [Hk Hf].
  unfold filepath.Dir.
  change [".builder-cache"; f; "hash"] with ([".builder-cache"; f] ++ ["hash"]).
  rewrite (upToLastSeparator_concat [".builder-cache"; f] "hash") by done.
  change ([".builder-cache"; f] ++ [""]) with [".builder-cache"; f; ""].
  rewrite Clean_concat; [|done|solve_ordinary].
  simpl. by rewrite Hk.
Qed.

Lemma elements_FeatureHashPath f :
  cache.plain f = true →
  os.elements (cache.FeatureHashPath f) = [".builder-cache"; f; "hash"].
Proof.
  intros Hp. rewrite (FeatureHashPath_plain f Hp).
  destruct (plain_ordinary f Hp) as [Hk Hf].
  rewrite elements_concat; [|done|solve_ordinary].
  simpl. by rewrite Hk.
Qed.

Lemma elements_Dir_FeatureHashPath f :
  cache.plain f = true →
  os.elements (filepath.Dir (cache.FeatureHashPath f)) = [".builder-cache"; f].
Proof.
  intros Hp. rewrite (Dir_FeatureHashPath f Hp).
  destruct (plain_ordinary f Hp) as [Hk Hf].
  rewrite elements_concat; [|done|solve_ordinary].
  simpl. by rewrite Hk.
Qed.

(** The paths of the cache are relative, whatever the feature name. *)
Lemma split_lacks path :
  Forall (λ e, filepath.lacks "/" e = true) (filepath.split path).
Proof.
  induction path as [|c path IH]; simpl; [by constructor|].
  destruct (Ascii.eqb c "/") eqn:Hc; [by constructor|].
  destruct (filepath.split path) as [|e l]; constructor; simpl; try done.
  - by rewrite Hc.
  - rewrite Hc. by apply Forall_inv in IH.
  - by apply Forall_inv_tail in IH.
Qed.

Lemma step_written r out e :
  filepath.lacks "/" e = true →
  Forall (λ x, x ≠ "" ∧ filepath.lacks "/" x = true) out →
  Forall (λ x, x ≠ "" ∧ filepath.lacks "/" x = true) (filepath.step r out e).
Proof.
  intros He Hout. unfold filepath.step.
  destruct (String.eqb e "" || String.eqb e ".") eqn:H1; [done|].
  destruct (String.eqb e "..") eqn:H2.
  - destruct out as [|x out].
    + destruct r; [done|]. by constructor.
    + destruct (String.eqb x "..").
      * destruct r; [done|]. by constructor.
      * by apply Forall_inv_tail in Hout.
  - constructor; [|done]. split; [|done]. by intros ->.
Qed.

Lemma foldl_step_written r l :
  Forall (λ e, filepath.lacks "/" e = true) l →
  ∀ out, Forall (λ x, x ≠ "" ∧ filepath.lacks "/" x = true) out →
         Forall (λ x, x ≠ "" ∧ filepath.lacks "/" x = true)
           (foldl (filepath.step r) out l).
Proof.
  induction 1 as [|e l He _ IH]; intros out Hout; simpl; [done|].
  by apply IH, step_written.
Qed.

Lemma Clean_not_rooted path :
  filepath.rooted path = false → filepath.rooted (filepath.Clean path) = false.
Proof.
  destruct path as [|c p]; [done|]. intros Hr. unfold filepath.Clean.
  rewrite Hr.
  pose proof (foldl_step_written false _ (split_lacks (String c p)) []
                (Forall_nil_2 _)) as Hout.
  destruct (foldl _ _ _) as [|x out] eqn:Hfold; [done|].
  apply Forall_reverse in Hout.
  destruct (reverse (x :: out)) as [|y l] eqn:Hrev.
  { apply (f_equal reverse) in Hrev. by rewrite reverse_involutive in Hrev. }
  apply Forall_inv in Hout as [Hne Hy].
  by apply concat_head.
Qed.

Lemma upToLastSeparator_not_rooted path :
  filepath.rooted path = false →
  filepath.rooted (filepath.upToLastSeparator path) = false.
Proof.
  destruct path as [|c p]; [done|]. intros Hr.
  cbn [filepath.upToLastSeparator]. by destruct (filepath.lacks _ _).
Qed.

Lemma FeatureHashPath_relative feature :
  filepath.rooted (cache.FeatureHashPath feature) = false ∧
  filepath.rooted (filepath.Dir (cache.FeatureHashPath feature)) = false.
Proof.
  assert (H : filepath.rooted (cache.FeatureHashPath feature) = false).
  { change (cache.FeatureHashPath feature)
      with (filepath.Clean
              (String.concat "/" [".builder-cache"; feature; "hash"])).
    by apply Clean_not_rooted. }
  split; [done|]. unfold filepath.Dir.
  by apply Clean_not_rooted, upToLastSeparator_not_rooted.
Qed.

End paths.

(** *** The directory tree *)

Section tree.
Context (S : gset string) (sh : gmap string nat).

Lemma stat_empty path : path ≠ [] → os.stat (os.Folder ∅) path = Err os.ENOENT.
Proof. destruct path; [done|]. intros _. simpl. by rewrite lookup_empty. Qed.

Lemma put_cons here m e rest data :
  rest ≠ [] →
  os.put S sh here (os.Folder m) (e :: rest) data =
  match m !! e with
  | Some child =>
      let r := os.put S sh (here ++ [e]) child rest data in
      (os.Folder (<[e := r.1]> m), r.2)
  | None =>
      if decide (os.below here e ∈ S) then (os.Folder m, Err os.EACCES)
      else
        let r := os.put S sh (here ++ [e]) (os.Folder ∅) rest data in
        (os.Folder (<[e := r.1]> m), r.2)
  end.
Proof. by destruct rest. Qed.

Lemma writeFile_cons here m e rest data :
  rest ≠ [] →
  os.writeFile S sh here (os.Folder m) (e :: rest) data =
  match m !! e with
  | None => (os.Folder m, Err os.ENOENT)
  | Some child =>
      let r := os.writeFile S sh (here ++ [e]) child rest data in
      (os.Folder (<[e := r.1]> m), r.2)
  end.
Proof. by destruct rest. Qed.

(** [MkdirAll] of the directory and [WriteFile] of the file are one descent. *)
Lemma put_mkdirAll_writeFile dir :
  ∀ here n e data,
    os.put S sh here n (dir ++ [e]) data =
    match (os.mkdirAll S here n dir).2 with
    | OK _ =>
        os.writeFile S sh here (os.mkdirAll S here n dir).1 (dir ++ [e]) data
    | Err err => ((os.mkdirAll S here n dir).1, Err err)
    end.
Proof.
  induction dir as [|x dir IH]; intros here n e data.
  - by destruct n.
  - destruct n as [|m]; [done|].
    assert (Hne : dir ++ [e] ≠ []) by by destruct dir.
    change ((x :: dir) ++ [e]) with (x :: (dir ++ [e])).
    rewrite put_cons by done. cbn [os.mkdirAll].
    destruct (m !! x) as [child|] eqn:Hx.
    + cbn zeta. rewrite (IH (here ++ [x]) child e data).
      destruct (os.mkdirAll S (here ++ [x]) child dir) as [c1 [[]|err]]; cbn [fst snd];
        [|done].
      rewrite writeFile_cons by done. rewrite lookup_insert_eq. cbn zeta.
      by rewrite insert_insert_eq.
    + destruct (decide (os.below here x ∈ S)); [done|].
      cbn zeta. rewrite (IH (here ++ [x]) (os.Folder ∅) e data).
      destruct (os.mkdirAll S (here ++ [x]) (os.Folder ∅) dir) as [c1 [[]|err]];
        cbn [fst snd]; [|done].
      rewrite writeFile_cons by done. rewrite lookup_insert_eq. cbn zeta.
      by rewrite insert_insert_eq.
Qed.

(** A descent through [x] leaves the other entries of a directory. *)
Lemma put_same_entry here n x q data y :
  x ≠ y → os.same_entry y n (os.put S sh here n (x :: q) data).1.
Proof.
  intros Hxy. destruct n as [a|m]; [done|].
  destruct q as [|z q].
  - cbn [os.put]. unfold os.create.
    destruct (m !! x) as [[|]|]; try done;
      destruct (decide (os.below here x ∈ S)); try done;
      destruct (sh !! os.below here x); cbn [fst os.same_entry];
      by rewrite lookup_insert_ne.
  - rewrite put_cons by done.
    destruct (m !! x) as [child|]; [|destruct (decide (os.below here x ∈ S))];
      cbn [fst os.same_entry]; try done; by rewrite lookup_insert_ne.
Qed.

Lemma stat_same_entry n n' y p :
  os.same_entry y n n' → os.stat n' (y :: p) = os.stat n (y :: p).
Proof. destruct n, n'; try done. simpl. by intros ->. Qed.

Lemma put_result_same_entry here n n' y p data :
  os.same_entry y n n' →
  (os.put S sh here n' (y :: p) data).2 = (os.put S sh here n (y :: p) data).2.
Proof.
  destruct n as [a|m], n' as [b|m']; try done. cbn [os.same_entry]. intros H.
  destruct p as [|z p].
  - cbn [os.put]. unfold os.create. rewrite H.
    destruct (m !! y) as [[|]|]; try done;
      destruct (decide (os.below here y ∈ S)); try done;
      by destruct (sh !! os.below here y).
  - rewrite (put_cons here m), (put_cons here m') by done. rewrite H.
    destruct (m !! y) as [child|]; [done|].
    by destruct (decide (os.below here y ∈ S)).
Qed.

(** Two descents that part ways at some directory do not meet again. *)
Lemma stat_put_other c :
  ∀ here n x y p q data,
    x ≠ y →
    os.stat (os.put S sh here n (c ++ x :: q) data).1 (c ++ y :: p) =
    os.stat n (c ++ y :: p).
Proof.
  induction c as [|e c IH]; intros here n x y p q data Hxy.
  - apply stat_same_entry. by apply put_same_entry.
  - destruct n as [a|m]; [done|].
    assert (Hq : c ++ x :: q ≠ []) by by destruct c.
    assert (Hp : c ++ y :: p ≠ []) by by destruct c.
    change ((e :: c) ++ x :: q) with (e :: (c ++ x :: q)).
    change ((e :: c) ++ y :: p) with (e :: (c ++ y :: p)).
    rewrite put_cons by done.
    destruct (m !! e) as [child|] eqn:He.
    + cbn [fst os.stat]. rewrite lookup_insert_eq, He. by apply IH.
    + destruct (decide (os.below here e ∈ S)); [done|].
      cbn [fst os.stat]. rewrite lookup_insert_eq, He.
      rewrite IH by done. by apply stat_empty.
Qed.

Lemma put_result_other c :
  ∀ here n x y p q d1 d2,
    x ≠ y →
    (os.put S sh here (os.put S sh here n (c ++ x :: q) d1).1 (c ++ y :: p) d2).2 =
    (os.put S sh here n (c ++ y :: p) d2).2.
Proof.
  induction c as [|e c IH]; intros here n x y p q d1 d2 Hxy.
  - apply put_result_same_entry. by apply put_same_entry.
  - destruct n as [a|m]; [done|].
    assert (Hq : c ++ x :: q ≠ []) by by destruct c.
    assert (Hp : c ++ y :: p ≠ []) by by destruct c.
    change ((e :: c) ++ x :: q) with (e :: (c ++ x :: q)).
    change ((e :: c) ++ y :: p) with (e :: (c ++ y :: p)).
    rewrite (put_cons here m e (c ++ x :: q)) by done.
    destruct (m !! e) as [child|] eqn:He.
    + cbn [fst]. rewrite (put_cons here m), (put_cons here (<[e:=_]> m)) by done.
      rewrite lookup_insert_eq, He. cbn [snd]. by apply IH.
    + destruct (decide (os.below here e ∈ S)) as [Hs|Hs]; [done|].
      cbn [fst]. rewrite (put_cons here m), (put_cons here (<[e:=_]> m)) by done.
      rewrite lookup_insert_eq, He.
      rewrite decide_False by done. cbn [snd]. by apply IH.
Qed.

Lemma writeFile_result_data p :
  ∀ here n d1 d2,
    (os.writeFile S sh here n p d1).2 = (os.writeFile S sh here n p d2).2.
Proof.
  induction p as [|e p IH]; intros here n d1 d2; [done|].
  destruct n as [a|m]; [done|]. destruct p as [|z p].
  - cbn [os.writeFile]. unfold os.create.
    destruct (m !! e) as [[|]|]; try done;
      destruct (decide (os.below here e ∈ S)); try done;
      by destruct (sh !! os.below here e).
  - rewrite (writeFile_cons here m e (z :: p) d1),
      (writeFile_cons here m e (z :: p) d2) by done.
    destruct (m !! e) as [child|]; [apply IH|done].
Qed.

(** What [WriteFile] wrote is what [ReadFile] then finds. *)
Lemma stat_writeFile q :
  ∀ here n data,
    (os.writeFile S sh here n q data).2 = OK () →
    os.stat (os.writeFile S sh here n q data).1 q = OK (os.File data).
Proof.
  induction q as [|e q IH]; intros here n data; [done|].
  destruct n as [a|m]; [done|]. destruct q as [|z q].
  - cbn [os.writeFile]. unfold os.create.
    destruct (m !! e) as [[|]|]; try done;
      destruct (decide (os.below here e ∈ S)); try done;
      destruct (sh !! os.below here e); try done; intros _; simpl;
      by rewrite lookup_insert_eq.
  - rewrite writeFile_cons by done.
    destruct (m !! e) as [child|]; [|done]. cbn [fst snd].
    intros H. cbn [os.stat]. rewrite lookup_insert_eq. by apply IH.
Qed.

End tree.

(** *** The records of the cache *)

Section records.

Lemma WriteFeatureHash_plain d f h :
  cache.plain f = true →
  cache.WriteFeatureHash d f h =
  ({| os.root := (os.put (os.sealed d) (os.short d) [] (os.root d)
                    [".builder-cache"; f; "hash"] h).1;
      os.sealed := os.sealed d; os.hidden := os.hidden d;
      os.short := os.short d |},
   (os.put (os.sealed d) (os.short d) [] (os.root d)
      [".builder-cache"; f; "hash"] h).2).
Proof.
  intros Hp. unfold cache.WriteFeatureHash, os.MkdirAll, os.WriteFile.
  rewrite (elements_Dir_FeatureHashPath f Hp), (elements_FeatureHashPath f Hp).
  pose proof (put_mkdirAll_writeFile (os.sealed d) (os.short d)
                [".builder-cache"; f] [] (os.root d) "hash" h) as Hput.
  change ([".builder-cache"; f] ++ ["hash"]) with [".builder-cache"; f; "hash"]
    in Hput.
  rewrite Hput.
  by destruct (os.mkdirAll (os.sealed d) [] (os.root d) [".builder-cache"; f])
    as [n1 [[]|err]].
Qed.

(** The record of a feature is not touched by writing the record of
    another, when both names are plain. *)
Lemma Read_after_Write d f h g :
  cache.plain f = true → cache.plain g = true → g ≠ f →
  cache.ReadFeatureHash (cache.WriteFeatureHash d f h).1 g =
  cache.ReadFeatureHash d g.
Proof.
  intros Hf Hg Hne. rewrite (WriteFeatureHash_plain d f h Hf).
  unfold cache.ReadFeatureHash, os.ReadFile.
  rewrite (elements_FeatureHashPath g Hg). cbn [fst os.root os.hidden].
  by rewrite (stat_put_other _ _ [".builder-cache"] [] (os.root d) f g
                ["hash"] ["hash"] h) by done.
Qed.

Lemma hidden_after_Write d f h :
  os.hidden (cache.WriteFeatureHash d f h).1 = os.hidden d.
Proof.
  unfold cache.WriteFeatureHash.
  by destruct (os.MkdirAll d _) as [d1 [[]|e]] eqn:Hm;
    unfold os.MkdirAll in Hm; injection Hm as <- _.
Qed.

Lemma Write_after_Write d f h g h' :
  cache.plain f = true → cache.plain g = true → g ≠ f →
  (cache.WriteFeatureHash (cache.WriteFeatureHash d f h).1 g h').2 =
  (cache.WriteFeatureHash d g h').2.
Proof.
  intros Hf Hg Hne. rewrite (WriteFeatureHash_plain d f h Hf).
  rewrite !(WriteFeatureHash_plain _ g h' Hg).
  cbn [fst snd os.root os.sealed os.short].
  by rewrite (put_result_other _ _ [".builder-cache"] [] (os.root d) f g
                ["hash"] ["hash"] h h') by done.
Qed.

Lemma Write_any_data d f h h' :
  (cache.WriteFeatureHash d f h).2 = (cache.WriteFeatureHash d f h').2.
Proof.
  unfold cache.WriteFeatureHash.
  destruct (os.MkdirAll d _) as [d1 [[]|e]]; [|done].
  unfold os.WriteFile. cbn [snd]. apply writeFile_result_data.
Qed.

Lemma writable_any_data d f h :
  cache.writable d f ↔ (cache.WriteFeatureHash d f h).2 = OK ().
Proof. unfold cache.writable. by rewrite (Write_any_data d f "" h). Qed.

Lemma Read_after_Write_same d f h :
  cache.readable d f →
  (cache.WriteFeatureHash d f h).2 = OK () →
  cache.ReadFeatureHash (cache.WriteFeatureHash d f h).1 f = OK h.
Proof.
  intros Hr Hw. unfold cache.ReadFeatureHash, os.ReadFile.
  rewrite hidden_after_Write. revert Hw. unfold cache.WriteFeatureHash.
  destruct (os.MkdirAll d _) as [d1 [[]|e]]; [|done].
  unfold os.WriteFile. cbn [fst snd os.root].
  intros H. rewrite stat_writeFile by done. by rewrite decide_False.
Qed.

End records.

(** ** One iteration of the build loop *)

Lemma upToDate_true d fname newHash :
  upToDate d fname newHash = true ↔ cache.ReadFeatureHash d fname = OK newHash.
Proof.
  unfold upToDate. destruct (cache.ReadFeatureHash d fname) as [old|e].
  - rewrite bool_decide_eq_true. split; [by intros ->|by intros [= ->]].
  - split; intros; discriminate.
Qed.

Lemma buildOne_iteration cfg fs docker s fname :
  iteration cfg fs docker s fname (buildOne cfg fs docker s fname).
Proof.
  unfold buildOne. destruct (cfg !! fname) as [feat|] eqn:Hf; [|by constructor].
  destruct (main.ComputeFeatureHash _ _ _) as [newHash|e] eqn:Hh; [|by econstructor].
  destruct (upToDate (disk s) fname newHash) eqn:Hu.
  { apply upToDate_true in Hu. by econstructor. }
  assert (Hne : cache.ReadFeatureHash (disk s) fname ≠ OK newHash).
  { intros Hr%upToDate_true. congruence. }
  unfold dockerBuild. destruct (config.Inputs feat) as [|context rest] eqn:Hi.
  { by econstructor. }
  destruct (docker _ context) eqn:Hd; simpl; rewrite <-app_assoc; simpl.
  - by eapply it_built.
  - by eapply it_failed.
Qed.

(** ** The run invariant *)

Section loop.
Context (cfg : config.BuilderConfig) (fs : fsys.t)
  (docker : string → string → bool) (d0 : cache.disk).

Lemma collect_insert (m : gmap string string) fname h deps :
  fname ∉ deps →
  collectDepHashes (<[fname := h]> m) deps = collectDepHashes m deps.
Proof.
  intros Hnotin. unfold collectDepHashes. apply list_fmap_ext.
  intros i dep Hdep. rewrite lookup_insert_ne; [done|].
  intros <-. apply Hnotin. by eapply list_elem_of_lookup_2.
Qed.

Lemma sound_insert (m : gmap string string) fname feat newHash :
  sound cfg fs m → m !! fname = None →
  cfg !! fname = Some feat →
  (∀ dep, dep ∈ config.DependsOn feat → is_Some (m !! dep)) →
  main.ComputeFeatureHash fs feat
    (collectDepHashes m (config.DependsOn feat)) = OK newHash →
  sound cfg fs (<[fname := newHash]> m).
Proof.
  intros Hs Hnone Hf Hdeps Hh g h Hg.
  assert (Hfresh : ∀ feat', (∀ dep, dep ∈ config.DependsOn feat' → is_Some (m !! dep)) →
            fname ∉ config.DependsOn feat').
  { intros feat' Hd Hin. destruct (Hd _ Hin) as [? Hsome]. congruence. }
  assert (Hup : ∀ feat', (∀ dep, dep ∈ config.DependsOn feat' → is_Some (m !! dep)) →
            ∀ dep, dep ∈ config.DependsOn feat' → is_Some (<[fname := newHash]> m !! dep)).
  { intros feat' Hd dep Hin. rewrite lookup_insert_ne; [by apply Hd|].
    intros <-. by apply (Hfresh feat' Hd). }
  destruct (decide (g = fname)) as [->|Hne].
  - rewrite lookup_insert_eq in Hg. injection Hg as <-.
    exists feat. split_and!; [done|by apply Hup|].
    rewrite collect_insert; [done|]. by apply Hfresh.
  - rewrite lookup_insert_ne in Hg by done.
    destruct (Hs g h Hg) as (feat' & Hf' & Hd' & Hh').
    exists feat'. split_and!; [done|by apply Hup|].
    rewrite collect_insert; [done|]. by apply Hfresh.
Qed.

Lemma iteration_run done s fname r :
  run_inv cfg fs d0 done s → fname ∉ done →
  (∀ feat dep, cfg !! fname = Some feat → dep ∈ config.DependsOn feat → dep ∈ done) →
  iteration cfg fs docker s fname r →
  match r with
  | Continue s' => run_inv cfg fs d0 (done ++ [fname]) s'
  | Stop _ _ => True
  end.
Proof.
  intros [Hdom Hsound Hlog Hdec Hskip Hbuild Hdisk Hwrite Hhid Hcached]
    Hfresh Hdeps Hit.
  assert (Hnone : hashCache s !! fname = None).
  { apply eq_None_not_Some. by rewrite Hdom. }
  assert (Hlogged : (PrintSKIP fname ∉ log s) ∧ (PrintBUILD fname ∉ log s)).
  { split; intros Hin; apply Hfresh, Hlog; [by left|by right]. }
  assert (Hplain : cache.plainNames (done ++ [fname]) →
            cache.plainNames done ∧ cache.plain fname = true).
  { by intros [Hd Hf%Forall_inv]%Forall_app. }
  assert (Hother : ∀ g, g ∉ done ++ [fname] → (g ∉ done) ∧ g ≠ fname).
  { intros g Hg. split.
    - intros Hin. apply Hg, elem_of_app. by left.
    - intros ->. apply Hg, elem_of_app. right. by apply list_elem_of_singleton. }
  assert (Hpassed : ∀ g h, g ≠ fname → hashCache s !! g = Some h →
            cache.plainNames done → cache.plain g = true).
  { intros g h Hne Hg Hd. assert (Hin : g ∈ done) by (apply Hdom; by eexists).
    by apply (proj1 (Forall_forall _ _) Hd). }
  destruct Hit as [|feat e|feat newHash Hf Hh Hr|feat newHash Hf Hh Hr Hi
                   |feat newHash context rest Hf Hh Hr Hi Hd|]; try done.
  - (* SKIP *)
    split; simpl.
    + intros g. rewrite elem_of_app, list_elem_of_singleton, <-Hdom.
      destruct (decide (g = fname)) as [->|Hne].
      * rewrite lookup_insert_eq. naive_solver.
      * rewrite lookup_insert_ne by done. naive_solver.
    + eapply sound_insert; [done..| |done].
      intros dep Hin. apply Hdom. by eapply Hdeps.
    + intros g Hg. apply elem_of_app.
      destruct Hg as [[Hin|Hin%list_elem_of_singleton]%elem_of_app
                     |[Hin|Hin%list_elem_of_singleton]%elem_of_app].
      * left. apply Hlog. by left.
      * right. injection Hin as ->. by apply list_elem_of_singleton.
      * left. apply Hlog. by right.
      * done.
    + intros [Hpd Hpf]%Hplain.
      assert (Hup : upToDate d0 fname newHash = true).
      { apply upToDate_true. by rewrite <-Hdisk. }
      intros g h. destruct (decide (g = fname)) as [->|Hne].
      * rewrite lookup_insert_eq. intros [= <-]. rewrite Hup.
        apply elem_of_app. right. by apply list_elem_of_singleton.
      * rewrite lookup_insert_ne by done. intros Hg. specialize (Hdec Hpd g h Hg).
        destruct (upToDate d0 g h); apply elem_of_app; by left.
    + intros [Hpd Hpf]%Hplain.
      assert (Hup : upToDate d0 fname newHash = true).
      { apply upToDate_true. by rewrite <-Hdisk. }
      intros g [Hin|Hin%list_elem_of_singleton]%elem_of_app.
      * destruct (Hskip Hpd g Hin) as (h & Hg & Hu). exists h.
        rewrite lookup_insert_ne; [done|]. intros <-. congruence.
      * injection Hin as ->. exists newHash. by rewrite lookup_insert_eq.
    + intros [Hpd Hpf]%Hplain.
      intros g [Hin|Hin%list_elem_of_singleton]%elem_of_app; [|done].
      destruct (Hbuild Hpd g Hin) as (h & Hg & Hu). exists h.
      rewrite lookup_insert_ne; [done|]. intros <-. congruence.
    + intros [Hpd Hpf]%Hplain g Hg [Hnd Hne]%Hother. by apply Hdisk.
    + intros [Hpd Hpf]%Hplain g h Hg [Hnd Hne]%Hother. by apply Hwrite.
    + done.
    + intros [Hpd Hpf]%Hplain g h.
      destruct (decide (g = fname)) as [->|Hne].
      * rewrite lookup_insert_eq. intros [= <-]. by left.
      * rewrite lookup_insert_ne by done. intros Hg.
        destruct (Hcached Hpd g h Hg) as [?|[Hin ?]]; [by left|right].
        split; [|done]. apply elem_of_app. by left.
  - (* BUILD, docker succeeds *)
    split; simpl.
    + intros g. rewrite elem_of_app, list_elem_of_singleton, <-Hdom.
      destruct (decide (g = fname)) as [->|Hne].
      * rewrite lookup_insert_eq. naive_solver.
      * rewrite lookup_insert_ne by done. naive_solver.
    + eapply sound_insert; [done..| |done].
      intros dep Hin. apply Hdom. by eapply Hdeps.
    + intros g Hg. apply elem_of_app.
      destruct Hg as [[Hin|Hin]%elem_of_app|[Hin|Hin]%elem_of_app].
      * left. apply Hlog. by left.
      * apply elem_of_cons in Hin as [Hin|Hin%list_elem_of_singleton]; done.
      * left. apply Hlog. by right.
      * apply elem_of_cons in Hin as [Hin|Hin%list_elem_of_singleton]; [|done].
        right. injection Hin as ->. by apply list_elem_of_singleton.
    + intros [Hpd Hpf]%Hplain.
      assert (Hup : upToDate d0 fname newHash = false).
      { apply not_true_is_false. intros Hu%upToDate_true.
        rewrite <-Hdisk in Hu; done. }
      intros g h. destruct (decide (g = fname)) as [->|Hne].
      * rewrite lookup_insert_eq. intros [= <-]. rewrite Hup.
        apply elem_of_app. right. apply elem_of_cons. by left.
      * rewrite lookup_insert_ne by done. intros Hg. specialize (Hdec Hpd g h Hg).
        destruct (upToDate d0 g h); apply elem_of_app; by left.
    + intros [Hpd Hpf]%Hplain.
      intros g [Hin|Hin]%elem_of_app.
      * destruct (Hskip Hpd g Hin) as (h & Hg & Hu). exists h.
        rewrite lookup_insert_ne; [done|]. intros <-. congruence.
      * apply elem_of_cons in Hin as [Hin|Hin%list_elem_of_singleton]; done.
    + intros [Hpd Hpf]%Hplain.
      assert (Hup : upToDate d0 fname newHash = false).
      { apply not_true_is_false. intros Hu%upToDate_true.
        rewrite <-Hdisk in Hu; done. }
      intros g [Hin|Hin]%elem_of_app.
      * destruct (Hbuild Hpd g Hin) as (h & Hg & Hu). exists h.
        rewrite lookup_insert_ne; [done|]. intros <-. congruence.
      * apply elem_of_cons in Hin as [Hin|Hin%list_elem_of_singleton]; [|done].
        injection Hin as ->. exists newHash. by rewrite lookup_insert_eq.
    + intros [Hpd Hpf]%Hplain g Hg [Hnd Hne]%Hother.
      rewrite Read_after_Write by done. by apply Hdisk.
    + intros [Hpd Hpf]%Hplain g h Hg [Hnd Hne]%Hother.
      rewrite Write_after_Write by done. by apply Hwrite.
    + by rewrite hidden_after_Write.
    + intros [Hpd Hpf]%Hplain g h.
      destruct (decide (g = fname)) as [->|Hne].
      * rewrite lookup_insert_eq. intros [= <-].
        assert (Hb : PrintBUILD fname ∈ log s ++
                  [PrintBUILD fname;
                   DockerBuild (fname +:+ ":" +:+ String.substring 0 8 newHash)
                     context]).
        { apply elem_of_app. right. apply elem_of_cons. by left. }
        destruct ((cache.WriteFeatureHash d0 fname newHash).2) as [[]|e] eqn:Hw;
          [|right; split; [done|by left]].
        destruct (decide (cache.readable d0 fname)) as [Hrd|Hrd];
          [left|right; split; [done|by right]].
        apply Read_after_Write_same; [|by rewrite Hwrite].
        unfold cache.readable. by rewrite Hhid.
      * rewrite lookup_insert_ne by done. intros Hg.
        rewrite Read_after_Write; [|done|by eapply Hpassed|done].
        destruct (Hcached Hpd g h Hg) as [?|[Hin ?]]; [by left|right].
        split; [|done]. apply elem_of_app. by left.
Qed.

End loop.

Section runs.
Context (cfg : config.BuilderConfig) (fs : fsys.t)
  (docker : string → string → bool) (d0 : cache.disk).

Lemma buildAll_run todo :
  ∀ done s,
    run_inv cfg fs d0 done s → NoDup (done ++ todo) → deps_first cfg (done ++ todo) →
    match buildAll cfg fs docker todo s with
    | Continue s' => run_inv cfg fs d0 (done ++ todo) s'
    | Stop e s' =>
        ∃ pre fname post sk,
          todo = pre ++ fname :: post ∧ run_inv cfg fs d0 (done ++ pre) sk ∧
          buildOne cfg fs docker sk fname = Stop e s'
    end.
Proof.
  induction todo as [|fname todo IH]; intros done s Hinv Hnd Hdf; simpl.
  - by rewrite app_nil_r.
  - pose proof (buildOne_iteration cfg fs docker s fname) as Hit.
    assert (Hfresh : fname ∉ done).
    { apply NoDup_app in Hnd as (_ & Hno & _). intros Hin.
      apply (Hno _ Hin), elem_of_cons. by left. }
    pose proof (iteration_run cfg fs docker d0 done s fname _ Hinv Hfresh
                  (λ feat dep, Hdf done fname todo eq_refl feat dep) Hit) as Hstep.
    destruct (buildOne cfg fs docker s fname) as [s1|e s1] eqn:Hone.
    + specialize (IH (done ++ [fname]) s1 Hstep).
      rewrite <-!app_assoc in IH. simpl in IH. specialize (IH Hnd Hdf).
      destruct (buildAll cfg fs docker todo s1) as [s'|e s']; [done|].
      destruct IH as (pre & f & post & sk & -> & Hsk & Hstop).
      exists (fname :: pre), f, post, sk. split_and!; [done| |done].
      by rewrite <-app_assoc in Hsk.
    + exists [], fname, todo, s. rewrite app_nil_r. done.
Qed.

Lemma run_inv_start names :
  run_inv cfg fs d0 []
    {| hashCache := ∅; disk := d0; log := [PrintBuildOrder names] |}.
Proof.
  split; simpl.
  - intros g. rewrite lookup_empty. split; [by intros [? ?]|by intros ?%elem_of_nil].
  - intros g h Hg. by rewrite lookup_empty in Hg.
  - by intros g [Hin%list_elem_of_singleton|Hin%list_elem_of_singleton].
  - intros _ g h Hg. by rewrite lookup_empty in Hg.
  - by intros _ g Hin%list_elem_of_singleton.
  - by intros _ g Hin%list_elem_of_singleton.
  - done.
  - done.
  - done.
  - intros _ g h Hg. by rewrite lookup_empty in Hg.
Qed.

Lemma Resolve_deps_first target names :
  Graph.Resolve (Graph.buildGraph cfg) target = Graph.BuildOrder names →
  NoDup names ∧ deps_first cfg names.
Proof.
  intros (Hnd & _ & Hdeps & _)%Resolve_order. split; [done|].
  intros l1 x l2 Heq feat dep Hf Hdep. eapply Hdeps; [done|].
  apply edge_buildGraph. by exists feat.
Qed.

(* where a run stands when it ends: the features it has passed form a prefix
   of the build order that satisfies the invariant; the last iteration may
   have added the BUILD line (and the docker run) of the feature it failed on *)
Lemma BuildFeature_run target e s' :
  BuildFeature cfg fs docker d0 target = (e, s') →
  (∃ err, e = DependencyFailure err ∧
          Graph.Resolve (Graph.buildGraph cfg) target = Graph.DependencyError err ∧
          s' = {| hashCache := ∅; disk := d0; log := [] |}) ∨
  (∃ names, Graph.Resolve (Graph.buildGraph cfg) target = Graph.BuildOrder names ∧
     ((e = Success ∧ run_inv cfg fs d0 names s') ∨
      (∃ pre fname post sk,
         names = pre ++ fname :: post ∧ run_inv cfg fs d0 pre sk ∧
         buildOne cfg fs docker sk fname = Stop e s'))).
Proof.
  unfold BuildFeature.
  destruct (Graph.Resolve (Graph.buildGraph cfg) target) as [names|err|] eqn:HR.
  - destruct (Resolve_deps_first target names HR) as [Hnd Hdf].
    pose proof (buildAll_run names [] _ (run_inv_start names) Hnd Hdf) as Hrun.
    destruct (buildAll cfg fs docker names _) as [s1|e1 s1]; intros [= <- <-]; right;
      exists names; (split; [done|]).
    + left. done.
    + right. done.
  - intros [= <- <-]. left. by exists err.
  - by apply Resolve_finishes in HR.
Qed.

End runs.

Section two_runs.
Context (cfg : config.BuilderConfig) (fs : fsys.t).

Lemma collect_ext (m1 m2 : gmap string string) deps :
  (∀ dep, dep ∈ deps → m1 !! dep = m2 !! dep) →
  collectDepHashes m1 deps = collectDepHashes m2 deps.
Proof.
  intros H. unfold collectDepHashes. apply list_fmap_ext.
  intros i dep Hdep. rewrite H; [done|]. by eapply list_elem_of_lookup_2.
Qed.

Lemma sound_agree names (m1 m2 : gmap string string) :
  deps_first cfg names → sound cfg fs m1 → sound cfg fs m2 →
  ∀ g, g ∈ names → ∀ h1 h2, m1 !! g = Some h1 → m2 !! g = Some h2 → h1 = h2.
Proof.
  intros Hdf Hs1 Hs2.
  assert (H : ∀ l1 l2, names = l1 ++ l2 →
            ∀ g, g ∈ l1 → ∀ h1 h2, m1 !! g = Some h1 → m2 !! g = Some h2 → h1 = h2).
  { induction l1 as [|x l1 IH] using rev_ind; intros l2 Heq g Hg h1 h2 H1 H2.
    { by apply elem_of_nil in Hg. }
    rewrite <-app_assoc in Heq. simpl in Heq.
    apply elem_of_app in Hg as [Hg|Hg%list_elem_of_singleton].
    { by eapply (IH (x :: l2)). }
    subst g.
    destruct (Hs1 x h1 H1) as (feat & Hf & Hd1 & Hh1).
    destruct (Hs2 x h2 H2) as (feat' & Hf' & Hd2 & Hh2).
    assert (feat' = feat) as -> by congruence.
    rewrite (collect_ext m1 m2) in Hh1; [congruence|].
    intros dep Hdep.
    destruct (Hd1 dep Hdep) as [a Ha], (Hd2 dep Hdep) as [b Hb].
    rewrite Ha, Hb. f_equal.
    eapply (IH (x :: l2) Heq dep); [|done..].
    by eapply Hdf. }
  intros g Hg. apply (H names []); [by rewrite app_nil_r|done].
Qed.

End two_runs.

(** A run never ends for lack of fuel. *)
Lemma BuildFeature_resolved cfg fs docker d target :
  (BuildFeature cfg fs docker d target).1 ≠ Unresolved.
Proof.
  unfold BuildFeature.
  destruct (Resolve (buildGraph cfg) target) as [names|e|] eqn:HR; simpl.
  - pose proof (buildAll_run cfg fs docker d names [] _ (run_inv_start cfg fs d names)) as H.
    destruct (Resolve_deps_first cfg target names HR) as [Hnd Hdf].
    specialize (H Hnd Hdf).
    destruct (buildAll cfg fs docker names _) as [s|e s] eqn:Hb; simpl; [done|].
    destruct H as (pre & f & post & sk & _ & _ & Hstop).
    pose proof (buildOne_iteration cfg fs docker sk f) as Hit.
    rewrite Hstop in Hit. inversion Hit; done.
  - done.
  - by apply Resolve_finishes in HR.
Qed.

Lemma buildOne_stop_log cfg fs docker sk fname e s' :
  buildOne cfg fs docker sk fname = Stop e s' →
  hashCache s' = hashCache sk ∧ disk s' = disk sk ∧
  ∃ l, log s' = log sk ++ l ∧ ∀ g, (PrintSKIP g ∉ l) ∧ (PrintBUILD g ∈ l → g = fname).
Proof.
  intros Heq. pose proof (buildOne_iteration cfg fs docker sk fname) as Hit.
  rewrite Heq in Hit. inversion Hit; subst; simpl; split_and!; try done.
  - exists []. rewrite app_nil_r. split; [done|]. intros g. split; by intros ?%elem_of_nil.
  - exists []. rewrite app_nil_r. split; [done|]. intros g. split; by intros ?%elem_of_nil.
  - eexists. split; [done|]. intros g. split.
    + by intros ?%list_elem_of_singleton.
    + by intros [= ->]%list_elem_of_singleton.
  - eexists. split; [done|]. intros g. split.
    + intros [?|?%list_elem_of_singleton]%elem_of_cons; done.
    + intros [[= ->]|?%list_elem_of_singleton]%elem_of_cons; done.
Qed.





Lemma run_inv_nothing cfg fs d0 :
  run_inv cfg fs d0 [] {| hashCache := ∅; disk := d0; log := [] |}.
Proof.
  split; simpl.
  - intros g. rewrite lookup_empty. split; [by intros [? ?]|by intros ?%elem_of_nil].
  - intros g h Hg. by rewrite lookup_empty in Hg.
  - by intros g [Hin%elem_of_nil|Hin%elem_of_nil].
  - intros _ g h Hg. by rewrite lookup_empty in Hg.
  - by intros _ g Hin%elem_of_nil.
  - by intros _ g Hin%elem_of_nil.
  - done.
  - done.
  - done.
  - intros _ g h Hg. by rewrite lookup_empty in Hg.
Qed.

Lemma BuildFeature_passed cfg fs docker d0 target e s' :
  BuildFeature cfg fs docker d0 target = (e, s') →
  ∃ passed sk l,
    run_inv cfg fs d0 passed sk ∧ hashCache s' = hashCache sk ∧
    disk s' = disk sk ∧ log s' = log sk ++ l ∧
    (∀ g, g ∈ passed → ¬ PrintSKIP g ∈ l ∧ ¬ PrintBUILD g ∈ l) ∧
    (∀ names, Resolve (buildGraph cfg) target = BuildOrder names →
              ∀ g, g ∈ passed → g ∈ names).
Proof.
  intros Hrun.
  apply BuildFeature_run in Hrun
    as [(err & _ & _ & ->)|(names & HR & [[_ Hinv]|(pre & f & post & sk & Hnames & Hinv & Hstop)])].
  - exists [], {| hashCache := ∅; disk := d0; log := [] |}, [].
    split_and!; [apply run_inv_nothing|done..| |].
    + by intros g ?%elem_of_nil.
    + by intros names _ g ?%elem_of_nil.
  - exists names, s', []. rewrite app_nil_r. split_and!; [done..| |].
    + intros g _. split; by intros ?%elem_of_nil.
    + intros names' HR' g Hg. congruence.
  - destruct (Resolve_deps_first cfg target names HR) as [Hnd _].
    apply buildOne_stop_log in Hstop as (Hhc & Hdk & l & Hl & Hnone).
    exists pre, sk, l. split_and!; [done..| |].
    + intros g Hg. split; [apply Hnone|]. intros ->%Hnone.
      rewrite Hnames in Hnd. apply NoDup_app in Hnd as (_ & Hno & _).
      apply (Hno _ Hg), elem_of_cons. by left.
    + intros names' HR' g Hg. assert (names' = names) as -> by congruence.
      rewrite Hnames. apply elem_of_app. by left.
Qed.

Lemma featureBytes_differ fs fs2 feat hs hs2 :
  Forall (λ x, String.length x = 64) hs →
  Forall (λ x, String.length x = 64) hs2 →
  main.writeInputs fs2 (config.Inputs feat) (config.Command feat) =
    main.writeInputs fs (config.Inputs feat) (config.Command feat) →
  (∃ b, main.featureBytes fs feat hs = OK b) →
  sortStrings hs2 ≠ sortStrings hs →
  main.featureBytes fs2 feat hs2 ≠ main.featureBytes fs feat hs.
Proof.
  intros Hl Hl2 Hin [b Hb] Hne. unfold main.featureBytes in *. rewrite Hin.
  destruct (main.writeInputs fs _ _) as [p|]; [|done].
  unfold main.writeAll. rewrite !foldl_app_catenate. intros [= Heq].
  apply (inj (String.app p)) in Heq. apply Hne.
  apply (catenate_inj 64); [| |lia|done].
  - by rewrite sortStrings_Permutation.
  - by rewrite sortStrings_Permutation.
Qed.

(** C2 (amended).  Whatever way a run ends, every fingerprint [h] in its
    per-run map belongs to a registry feature whose dependencies all have
    their fingerprint of this run in the same map, and [h] is computed from
    those map entries (never from the cache files), through their sorted
    values only: any rearrangement of them gives the same fingerprint, while
    any list of digests with a different sorted form changes the bytes that
    are digested, the feature's own input digests being equal.  When the
    names of the build order are plain, the feature was printed SKIP exactly
    when the cache held [h] for it when the run began, and BUILD exactly when
    it did not. *)
Theorem fingerprint_folds_run_map (cfg : config.BuilderConfig) (fs : fsys.t)
    (docker : string → string → bool) (d0 : cache.disk) target names e s'
    fname h :
  Resolve (buildGraph cfg) target = BuildOrder names →
  BuildFeature cfg fs docker d0 target = (e, s') →
  hashCache s' !! fname = Some h →
  ∃ feat,
    cfg !! fname = Some feat ∧
    (∀ dep, dep ∈ config.DependsOn feat →
       ∃ hd, hashCache s' !! dep = Some hd ∧ String.length hd = 64) ∧
    main.ComputeFeatureHash fs feat
      (collectDepHashes (hashCache s') (config.DependsOn feat)) = OK h ∧
    (∀ hs, hs ≡ₚ collectDepHashes (hashCache s') (config.DependsOn feat) →
       main.ComputeFeatureHash fs feat hs = OK h) ∧
    (∀ fs2 hs2,
       Forall (λ x, String.length x = 64) hs2 →
       main.writeInputs fs2 (config.Inputs feat) (config.Command feat) =
         main.writeInputs fs (config.Inputs feat) (config.Command feat) →
       sortStrings hs2 ≠
         sortStrings (collectDepHashes (hashCache s') (config.DependsOn feat)) →
       main.featureBytes fs2 feat hs2 ≠
         main.featureBytes fs feat
           (collectDepHashes (hashCache s') (config.DependsOn feat))) ∧
    (cache.plainNames names →
     (PrintSKIP fname ∈ log s' ↔ cache.ReadFeatureHash d0 fname = OK h) ∧
     (PrintBUILD fname ∈ log s' ↔ cache.ReadFeatureHash d0 fname ≠ OK h)).
Proof.
  intros HR Hrun Hlook.
  apply BuildFeature_passed in Hrun
    as (passed & sk & l & Hinv & Hhc & _ & Hlog & Hl & Hsub).
  rewrite Hhc in *. rewrite Hlog.
  destruct (ri_sound _ _ _ _ _ Hinv fname h Hlook) as (feat & Hf & Hdeps & Hh).
  assert (Hpassed : fname ∈ passed).
  { apply (ri_dom _ _ _ _ _ Hinv). by eexists. }
  destruct (Hl fname Hpassed) as [Hns Hnb].
  assert (Hlens : ∀ dep, dep ∈ config.DependsOn feat →
            ∃ hd, hashCache sk !! dep = Some hd ∧ String.length hd = 64).
  { intros dep Hdep. destruct (Hdeps dep Hdep) as [hd Hd]. exists hd. split; [done|].
    destruct (ri_sound _ _ _ _ _ Hinv dep hd Hd) as (fd & _ & _ & Hhd).
    by eapply ComputeFeatureHash_length. }
  exists feat. split_and!; [done..| | |].
  - intros hs Hp. by rewrite (ComputeFeatureHash_perm fs feat hs _ Hp).
  - intros fs2 hs2 Hl2 Hin Hne. apply featureBytes_differ; [|done..| |done].
    + unfold collectDepHashes. apply Forall_fmap, Forall_forall.
      intros dep Hdep. simpl. destruct (Hlens dep Hdep) as (hd & Hd & Hlen).
      by rewrite Hd.
    + unfold main.ComputeFeatureHash in Hh.
      destruct (main.featureBytes fs feat _) as [b|]; [by exists b|done].
  - intros Hplain.
    assert (Hpp : cache.plainNames passed).
    { apply Forall_forall. intros g Hg.
      by apply (proj1 (Forall_forall _ _) Hplain), (Hsub names HR). }
    split.
    + rewrite elem_of_app. split.
      * intros [Hin|Hin]; [|done].
        apply (ri_skip _ _ _ _ _ Hinv Hpp) in Hin as (h' & Hh' & Hu).
        apply upToDate_true. congruence.
      * intros Hr%upToDate_true. left.
        pose proof (ri_decided _ _ _ _ _ Hinv Hpp fname h Hlook) as Hdec.
        by rewrite Hr in Hdec.
    + rewrite elem_of_app. split.
      * intros [Hin|Hin]; [|done].
        apply (ri_build _ _ _ _ _ Hinv Hpp) in Hin as (h' & Hh' & Hu).
        intros Hr%upToDate_true. congruence.
      * intros Hr. left.
        pose proof (ri_decided _ _ _ _ _ Hinv Hpp fname h Hlook) as Hdec.
        destruct (upToDate d0 fname h) eqn:Hu; [|done].
        by apply upToDate_true in Hu.
Qed.

(** ** Checking a concrete registry *)

Lemma acyclic_ranked (g : graph) (rank : string → nat) :
  map_Forall (λ n deps, Forall (λ d, rank d < rank n) deps) g → acyclic g.
Proof.
  intros Hall. apply (acyclic_by_rank g rank).
  intros n d (deps & Hn & Hd). specialize (Hall n deps Hn).
  rewrite Forall_forall in Hall. by apply Hall.
Qed.

Lemma references_resolve_closed (g : graph) target :
  map_Forall (λ _ deps, Forall (λ d, is_Some (g !! d)) deps) g →
  references_resolve g target.
Proof.
  intros Hall node dep _ (deps & Hn & Hd). specialize (Hall node deps Hn).
  rewrite Forall_forall in Hall. by apply Hall.
Qed.

Lemma edge_lookup (g : graph) n deps d :
  g !! n = Some deps → d ∈ deps → edge g n d.
Proof. intros Hn Hd. by exists deps. Qed.

(** ** Dependency resolution on concrete registries *)

(** C1, as stated, fails: the registry with the single feature [app] that
    lists the missing [base] is acyclic and has the target, and [Resolve]
    returns the unknown-dependency error, not a build order. *)
Lemma resolve_acyclic_dangling :
  acyclic (buildGraph examples.regDangling) ∧
  is_Some (examples.regDangling !! "app") ∧
  Resolve (buildGraph examples.regDangling) "app" =
    DependencyError (UnknownDependency "base").
Proof.
  split_and!.
  - apply (acyclic_ranked _ (λ n, if decide (n = "app") then 1 else 0)).
    apply (bool_decide_unpack _). vm_compute. exact I.
  - apply (bool_decide_unpack _). vm_compute. exact I.
  - vm_compute. reflexivity.
Qed.

Lemma resolve_acyclic_order_witness :
  ∃ names,
    Resolve (buildGraph examples.reg2) "app" = BuildOrder names ∧
    NoDup names ∧
    (∀ x, x ∈ names ↔ reachable (buildGraph examples.reg2) "app" x) ∧
    (∀ n d, n ∈ names → edge (buildGraph examples.reg2) n d →
            before names d n).
Proof.
  apply (resolve_acyclic_order examples.reg2 "app").
  - apply (acyclic_ranked _ (λ n, if decide (n = "app") then 1 else 0)).
    apply (bool_decide_unpack _). vm_compute. exact I.
  - apply references_resolve_closed.
    apply (bool_decide_unpack _). vm_compute. exact I.
  - apply (bool_decide_unpack _). vm_compute. exact I.
Defined.

(** The order of the end-to-end scenario. *)
Example resolve_reg2 :
  Resolve (buildGraph examples.reg2) "app" = BuildOrder ["base"; "app"].
Proof. vm_compute. reflexivity. Qed.

(** C5.  A target that is not a registry key is not rejected: [Resolve]
    returns the order made of that one name, and the build loop then
    dereferences the nil feature. *)
Theorem absent_target_not_rejected :
  examples.reg2 !! "ghost" = None ∧
  Resolve (buildGraph examples.reg2) "ghost" = BuildOrder ["ghost"] ∧
  BuildFeature examples.reg2 examples.fs2 examples.dockerOK
    examples.emptyDisk "ghost" =
    (Panic "nil pointer dereference",
     {| hashCache := ∅; disk := examples.emptyDisk;
        log := [PrintBuildOrder ["ghost"]] |}).
Proof. split_and!; vm_compute; reflexivity. Qed.

(** C6, as stated, fails: [A] lies on the cycle [A], [B], [A] of
    [regMasked], and resolving [A] reports the missing [X], which [A] lists
    before [B], not the cycle. *)
Lemma cycle_masked_by_missing_name :
  on_cycle (buildGraph examples.regMasked) "A" ∧
  Resolve (buildGraph examples.regMasked) "A" =
    DependencyError (UnknownDependency "X").
Proof.
  split; [|vm_compute; reflexivity].
  apply (tc_l _ _ "B").
  - apply (edge_lookup _ _ ["X"; "B"]); [vm_compute; reflexivity|].
    apply (bool_decide_unpack _). vm_compute. exact I.
  - apply tc_once.
    apply (edge_lookup _ _ ["A"]); [vm_compute; reflexivity|].
    apply (bool_decide_unpack _). vm_compute. exact I.
Qed.

Lemma regLoop_cycle : on_cycle (buildGraph examples.regLoop) "A".
Proof.
  apply (tc_l _ _ "B").
  - apply (edge_lookup _ _ ["B"]); [vm_compute; reflexivity|].
    apply (bool_decide_unpack _). vm_compute. exact I.
  - apply tc_once.
    apply (edge_lookup _ _ ["A"]); [vm_compute; reflexivity|].
    apply (bool_decide_unpack _). vm_compute. exact I.
Qed.

Lemma resolve_cycle_fails_witness :
  (∃ e, Resolve (buildGraph examples.regLoop) "A" = DependencyError e ∧
        match e with
        | CycleDetected n =>
            on_cycle (buildGraph examples.regLoop) n ∧
            reachable (buildGraph examples.regLoop) "A" n
        | UnknownDependency d =>
            buildGraph examples.regLoop !! d = None ∧
            ∃ n, reachable (buildGraph examples.regLoop) "A" n ∧
                 edge (buildGraph examples.regLoop) n d
        end) ∧
  (references_resolve (buildGraph examples.regLoop) "A" →
   ∃ n, Resolve (buildGraph examples.regLoop) "A" =
          DependencyError (CycleDetected n) ∧
        on_cycle (buildGraph examples.regLoop) n ∧
        reachable (buildGraph examples.regLoop) "A" n).
Proof.
  apply (resolve_cycle_fails (buildGraph examples.regLoop) "A" "A").
  - apply rtc_refl.
  - exact regLoop_cycle.
Defined.

(** Either node of the loop, taken as target, gets the cycle error. *)
Example resolve_regLoop :
  Resolve (buildGraph examples.regLoop) "A" = DependencyError (CycleDetected "A") ∧
  Resolve (buildGraph examples.regLoop) "B" = DependencyError (CycleDetected "B").
Proof. split; vm_compute; reflexivity. Qed.

(** ** The digest on the standard test vectors *)

Example sha256hex_abc :
  sha256hex "abc" =
  "ba7816bf8f01cfea414140de5dae2223b00361a396177a9cb410ff61f20015ad".
Proof. vm_compute. reflexivity. Qed.

Example sha256hex_empty :
  sha256hex "" =
  "e3b0c44298fc1c149afbf4c8996fb92427ae41e4649b934ca495991b7852b855".
Proof. vm_compute. reflexivity. Qed.

Example sha256hex_two_blocks :
  sha256hex "abcdbcdecdefdefgefghfghighijhijkijkljklmklmnlmnomnopnopq" =
  "248d6a61d20638b8e5c026930c3e6039a33ce45964ff2167f6ecedd419db06c1".
Proof. vm_compute. reflexivity. Qed.

(** ** Directory digests on concrete trees *)

(** C4, as stated, fails: for the directory [d] with the files [d/a] holding
    [ab] and [d/b] holding [c], [HashDir] of [cmd/apis] is the digest of the
    three bytes [abc]; it is neither the digest of the two per-file digests
    nor what the library twin, which digests each file on its own, returns. *)
Lemma HashDir_not_per_file :
  main.HashDir examples.fsCut "d" = OK (sha256hex "abc") ∧
  main.HashDir examples.fsCut "d" ≠
    OK (sha256hex (sha256hex "ab" +:+ sha256hex "c")) ∧
  hash.HashDir examples.fsCut "d" =
    OK (sha256hex (sha256hex "ab" +:+ sha256hex "c")).
Proof.
  split_and!.
  - vm_compute. reflexivity.
  - apply (bool_decide_unpack _). vm_compute. exact I.
  - vm_compute. reflexivity.
Qed.

Lemma fsCut_d_contents :
  Forall2 (λ f c, fsys.ReadAll examples.fsCut f = OK c)
    (walkedFiles [examples.dir "d"; examples.file "d/a";
                  examples.file "d/b"; examples.dir "d/empty"])
    ["ab"; "c"].
Proof.
  change (walkedFiles _) with
    (sortStrings
       (nonDirPaths [examples.dir "d"; examples.file "d/a";
                     examples.file "d/b"; examples.dir "d/empty"])).
  replace (sortStrings _) with ["d/a"; "d/b"] by (vm_compute; reflexivity).
  do 2 (constructor; [vm_compute; reflexivity|]). constructor.
Qed.


Lemma HashDir_streams_files_witness :
  main.HashDir examples.fsCut "d" = OK (sha256hex (catenate ["ab"; "c"])) ∧
  Sorted String.le
    (walkedFiles [examples.dir "d"; examples.file "d/a";
                  examples.file "d/b"; examples.dir "d/empty"]) ∧
  walkedFiles [examples.dir "d"; examples.file "d/a";
               examples.file "d/b"; examples.dir "d/empty"] ≡ₚ
    nonDirPaths [examples.dir "d"; examples.file "d/a";
                 examples.file "d/b"; examples.dir "d/empty"] ∧
  ∀ (fs' : fsys.t) dir' entries',
    fsys.Walk fs' dir' = OK entries' →
    nonDirPaths entries' ≡ₚ
      nonDirPaths [examples.dir "d"; examples.file "d/a";
                   examples.file "d/b"; examples.dir "d/empty"] →
    (∀ f, f ∈ walkedFiles [examples.dir "d"; examples.file "d/a";
                            examples.file "d/b"; examples.dir "d/empty"] →
          fsys.ReadAll fs' f = fsys.ReadAll examples.fsCut f) →
    main.HashDir fs' dir' = main.HashDir examples.fsCut "d".
Proof.
  apply (HashDir_streams_files examples.fsCut "d").
  - vm_compute. reflexivity.
  - exact fsCut_d_contents.
Defined.

(** Modes, modification times and directories leave the digest alone. *)
Example HashDir_touched :
  main.HashDir examples.fsTouched "d" = main.HashDir examples.fsCut "d".
Proof. vm_compute. reflexivity. Qed.


(** ** Feature fingerprints on concrete runs *)

(** C3, as stated, fails: in the second run of the three-feature registry
    the fingerprint of [lib1] is the larger one, and the fingerprint of [app]
    folds the one of [lib2] first; the bytes digested for [app] are not those
    that the order of the names would give. *)
Lemma dependency_hashes_not_by_name :
  hashCache examples.runB.2 !! "lib1" =
    Some "915dce59b0432c904776188d89ee29775a6ffaaa5d6b7ef994fcf71aefa799fe" ∧
  hashCache examples.runB.2 !! "lib2" =
    Some "6ce4877fd0b56c19b928be12473123f13f27d443b3910528467a9f2d94c29543" ∧
  examples.collectByName (hashCache examples.runB.2)
    (config.DependsOn examples.app3) =
    ["915dce59b0432c904776188d89ee29775a6ffaaa5d6b7ef994fcf71aefa799fe";
     "6ce4877fd0b56c19b928be12473123f13f27d443b3910528467a9f2d94c29543"] ∧
  main.featureBytes examples.fsB examples.app3
    (collectDepHashes (hashCache examples.runB.2)
       (config.DependsOn examples.app3)) =
    OK ("link" +:+ sha256hex "int main;"
        +:+ "6ce4877fd0b56c19b928be12473123f13f27d443b3910528467a9f2d94c29543"
        +:+ "915dce59b0432c904776188d89ee29775a6ffaaa5d6b7ef994fcf71aefa799fe") ∧
  main.featureBytes examples.fsB examples.app3
    (collectDepHashes (hashCache examples.runB.2)
       (config.DependsOn examples.app3)) ≠
    OK ("link" +:+ sha256hex "int main;"
        +:+ catenate
              (examples.collectByName (hashCache examples.runB.2)
                 (config.DependsOn examples.app3))).
Proof.
  split_and!; try (vm_compute; reflexivity).
  apply (bool_decide_unpack _). vm_compute. exact I.
Qed.

Lemma dependency_hashes_sorted_by_value_witness :
  main.ComputeFeatureHash examples.fsB examples.app3
    ["915dce59b0432c904776188d89ee29775a6ffaaa5d6b7ef994fcf71aefa799fe";
     "6ce4877fd0b56c19b928be12473123f13f27d443b3910528467a9f2d94c29543"] =
    OK (sha256hex
          (config.Command examples.app3 +:+ catenate [sha256hex "int main;"]
             +:+ catenate
                   (sortStrings
                      ["915dce59b0432c904776188d89ee29775a6ffaaa5d6b7ef994fcf71aefa799fe";
                       "6ce4877fd0b56c19b928be12473123f13f27d443b3910528467a9f2d94c29543"]))) ∧
  Sorted String.le
    (sortStrings
       ["915dce59b0432c904776188d89ee29775a6ffaaa5d6b7ef994fcf71aefa799fe";
        "6ce4877fd0b56c19b928be12473123f13f27d443b3910528467a9f2d94c29543"]) ∧
  sortStrings
    ["915dce59b0432c904776188d89ee29775a6ffaaa5d6b7ef994fcf71aefa799fe";
     "6ce4877fd0b56c19b928be12473123f13f27d443b3910528467a9f2d94c29543"] ≡ₚ
    ["915dce59b0432c904776188d89ee29775a6ffaaa5d6b7ef994fcf71aefa799fe";
     "6ce4877fd0b56c19b928be12473123f13f27d443b3910528467a9f2d94c29543"] ∧
  ∀ (m : gmap string string) parts,
    Forall2 (λ i x, hash.HashDir examples.fsB i = OK x)
      (config.Inputs examples.app3) parts →
    feature.ComputeFeatureHash examples.fsB examples.app3 m =
      OK (sha256hex
            (String.concat "|"
               (sha256hex (config.Command examples.app3) :: parts
                  ++ feature.depParts m))) ∧
    Sorted String.le (feature.depParts m) ∧
    feature.depParts m ≡ₚ (λ kv, kv.1 +:+ kv.2) <$> map_to_list m.
Proof.
  apply (dependency_hashes_sorted_by_value examples.fsB examples.app3).
  constructor; [vm_compute; reflexivity|constructor].
Defined.

(** The library twin does not sort by name either: the entry of [a] comes
    after the entry of [ab] when the fingerprint of [a] starts with a
    character above [b]. *)
Example depParts_prefix_names :
  feature.depParts (<["a" := "c0"]> (<["ab" := "00"]> ∅)) = ["ab00"; "ac0"].
Proof. vm_compute. reflexivity. Qed.

(** C2, as stated, fails: between the two runs the contents of the two
    library directories are exchanged.  Both libraries get a new fingerprint
    and are built again, the fingerprint of [app] is the same in both runs,
    and the second run prints SKIP for [app] and no BUILD. *)
Lemma exchanged_contents_skip_dependent :
  examples.runA.1 = Success ∧ examples.runB.1 = Success ∧
  hashCache examples.runA.2 !! "lib1" =
    Some "6ce4877fd0b56c19b928be12473123f13f27d443b3910528467a9f2d94c29543" ∧
  hashCache examples.runB.2 !! "lib1" =
    Some "915dce59b0432c904776188d89ee29775a6ffaaa5d6b7ef994fcf71aefa799fe" ∧
  hashCache examples.runA.2 !! "app" =
    Some "ab772d13988c900d8b1dc47039a66d1fc8b0c73fb701e40f09dc51210a3090d1" ∧
  hashCache examples.runB.2 !! "app" =
    Some "ab772d13988c900d8b1dc47039a66d1fc8b0c73fb701e40f09dc51210a3090d1" ∧
  log examples.runB.2 =
    [PrintBuildOrder ["lib1"; "lib2"; "app"];
     PrintBUILD "lib1"; DockerBuild "lib1:915dce59" "dirX";
     PrintBUILD "lib2"; DockerBuild "lib2:6ce4877f" "dirY";
     PrintSKIP "app"] ∧
  (PrintBUILD "app" ∉ log examples.runB.2) ∧
  hashCache examples.runA.2 !! "lib1" ≠ hashCache examples.runB.2 !! "lib1".
Proof.
  split_and!; try (vm_compute; reflexivity);
    apply (bool_decide_unpack _); vm_compute; exact I.
Qed.

Lemma fingerprint_folds_run_map_witness :
  ∃ feat,
    examples.reg2 !! "app" = Some feat ∧
    (∀ dep, dep ∈ config.DependsOn feat →
       ∃ hd, hashCache examples.run2.2 !! dep = Some hd ∧
             String.length hd = 64) ∧
    main.ComputeFeatureHash examples.fs2 feat
      (collectDepHashes (hashCache examples.run2.2) (config.DependsOn feat)) =
      OK "bcb5bc66932cad6bcc55b9cf55248bdf6a2767cfcf617f4db5332d0b927c508e" ∧
    (∀ hs,
       hs ≡ₚ collectDepHashes (hashCache examples.run2.2)
               (config.DependsOn feat) →
       main.ComputeFeatureHash examples.fs2 feat hs =
         OK "bcb5bc66932cad6bcc55b9cf55248bdf6a2767cfcf617f4db5332d0b927c508e") ∧
    (∀ fs2 hs2,
       Forall (λ x, String.length x = 64) hs2 →
       main.writeInputs fs2 (config.Inputs feat) (config.Command feat) =
         main.writeInputs examples.fs2 (config.Inputs feat)
           (config.Command feat) →
       sortStrings hs2 ≠
         sortStrings (collectDepHashes (hashCache examples.run2.2)
                        (config.DependsOn feat)) →
       main.featureBytes fs2 feat hs2 ≠
         main.featureBytes examples.fs2 feat
           (collectDepHashes (hashCache examples.run2.2)
              (config.DependsOn feat))) ∧
    (cache.plainNames ["base"; "app"] →
     (PrintSKIP "app" ∈ log examples.run2.2 ↔
      cache.ReadFeatureHash examples.emptyDisk "app" =
        OK "bcb5bc66932cad6bcc55b9cf55248bdf6a2767cfcf617f4db5332d0b927c508e") ∧
     (PrintBUILD "app" ∈ log examples.run2.2 ↔
      cache.ReadFeatureHash examples.emptyDisk "app" ≠
        OK "bcb5bc66932cad6bcc55b9cf55248bdf6a2767cfcf617f4db5332d0b927c508e")).
Proof.
  apply (fingerprint_folds_run_map examples.reg2 examples.fs2 examples.dockerOK
           examples.emptyDisk "app" ["base"; "app"] Success examples.run2.2
           "app").
  - vm_compute. reflexivity.
  - vm_compute. reflexivity.
  - vm_compute. reflexivity.
Defined.

(** The names have to be plain: of two equal features named [x] and [./x]
    the second is printed SKIP on an empty cache, for the record that the
    first has just written is its own. *)
Example aliased_names_skip :
  cache.FeatureHashPath "./x" = cache.FeatureHashPath "x" ∧
  inputs.runTwin.1 = Success ∧
  log inputs.runTwin.2 =
    [PrintBuildOrder ["x"; "./x"; "top"];
     PrintBUILD "x"; DockerBuild "x:54005f79" "dirX";
     PrintSKIP "./x";
     PrintBUILD "top"; DockerBuild "top:61a075cc" "dirY"] ∧
  cache.ReadFeatureHash examples.emptyDisk "./x" =
    Err "no such file or directory".
Proof. split_and!; vm_compute; reflexivity. Qed.

(** ** Paths and the cache directory on concrete names *)

(** [Clean], [Join] and [Dir] on rows of the test tables of [path/filepath]. *)
Example Clean_table :
  filepath.Clean <$>
    [""; "abc"; "abc/def"; "."; ".."; "../.."; "../../abc"; "/abc"; "/";
     "abc/"; "abc/def/"; "./"; "../"; "../../"; "/abc/";
     "abc//def//ghi"; "abc//"; "abc/./def"; "/./abc/def"; "abc/.";
     "abc/def/ghi/../jkl"; "abc/def/../ghi/../jkl"; "abc/def/..";
     "abc/def/../.."; "/abc/def/../.."; "abc/def/../../..";
     "/abc/def/../../.."; "abc/def/../../../ghi/jkl/../../../mno";
     "/../abc"; "abc/./../def"; "abc//./../def"; "abc/../../././../def"] =
    ["."; "abc"; "abc/def"; "."; ".."; "../.."; "../../abc"; "/abc"; "/";
     "abc"; "abc/def"; "."; ".."; "../.."; "/abc";
     "abc/def/ghi"; "abc"; "abc/def"; "/abc/def"; "abc";
     "abc/def/jkl"; "abc/jkl"; "abc";
     "."; "/"; "..";
     "/"; "../../mno";
     "/abc"; "def"; "def"; "../../def"].
Proof. vm_compute. reflexivity. Qed.

Example Join_table :
  filepath.Join <$>
    [[]; [""]; ["a"]; ["a"; "b"]; ["a"; ""]; [""; "b"]; ["/"; "a"];
     ["a/"; "b"]; ["a/"; ""]; [""; ""]; ["/"; "a"; "b"]] =
    [""; ""; "a"; "a/b"; "a"; "b"; "/a"; "a/b"; "a"; ""; "/a/b"].
Proof. vm_compute. reflexivity. Qed.

Example Dir_table :
  filepath.Dir <$>
    [""; "."; "/."; "/"; "/foo"; "x/"; "abc"; "abc/def"; "a/b/.x";
     "a/b/c."; "a/b/c.x"] =
    ["."; "."; "/"; "/"; "/"; "x"; "."; "abc"; "a/b"; "a/b"; "a/b"].
Proof. vm_compute. reflexivity. Qed.

(** The record paths of names that are not plain. *)
Example record_paths :
  cache.FeatureHashPath <$> ["x"; "x/"; "./x"; "a/hash"; ""; ".."; "../.."] =
    [".builder-cache/x/hash"; ".builder-cache/x/hash"; ".builder-cache/x/hash";
     ".builder-cache/a/hash/hash"; ".builder-cache/hash"; "hash"; "../hash"].
Proof. vm_compute. reflexivity. Qed.

(** Once the record of [a] is written, [MkdirAll] fails for the record of
    [a/hash]: the run ends in success without that record, and the next run
    builds [a/hash] again. *)
Example nested_names_rebuild :
  inputs.runNested.1 = Success ∧
  cache.ReadFeatureHash (disk inputs.runNested.2) "a" =
    OK "54005f79542b1345feac2906116a76281a587265d3f56a728d3fb73031fff6d5" ∧
  (cache.WriteFeatureHash (disk inputs.runNested.2) "a/hash"
     "bcb5bc66932cad6bcc55b9cf55248bdf6a2767cfcf617f4db5332d0b927c508e").2 =
    Err "not a directory" ∧
  cache.ReadFeatureHash (disk inputs.runNested.2) "a/hash" =
    Err "not a directory" ∧
  log (BuildFeature inputs.regNested examples.fs2 examples.dockerOK
         (disk inputs.runNested.2) "a/hash").2 =
    [PrintBuildOrder ["a"; "a/hash"]; PrintSKIP "a";
     PrintBUILD "a/hash"; DockerBuild "a/hash:bcb5bc66" "dirY"].
Proof. split_and!; vm_compute; reflexivity. Qed.

(** In the other order the record of [a] finds a directory in its place. *)
Example nested_names_directory :
  (cache.WriteFeatureHash
     (cache.WriteFeatureHash examples.emptyDisk "a/hash" "h1").1 "a" "h2").2 =
    Err "is a directory".
Proof. vm_compute. reflexivity. Qed.

(** A record that can be written and not read is built in every run. *)
Example write_only_record_rebuilds :
  cache.writable inputs.writeOnlyDisk "base" ∧
  cache.ReadFeatureHash
    (disk (BuildFeature examples.reg2 examples.fs2 examples.dockerOK
             inputs.writeOnlyDisk "app").2) "base" =
    Err "permission denied" ∧
  log (BuildFeature examples.reg2 examples.fs2 examples.dockerOK
         (disk (BuildFeature examples.reg2 examples.fs2 examples.dockerOK
                  inputs.writeOnlyDisk "app").2) "app").2 =
    [PrintBuildOrder ["base"; "app"];
     PrintBUILD "base"; DockerBuild "base:54005f79" "dirX";
     PrintSKIP "app"].
Proof. split_and!; vm_compute; reflexivity. Qed.

(** A write that stops early fails and leaves what it wrote. *)
Example short_write_leaves_a_prefix :
  (cache.WriteFeatureHash inputs.shortDisk "base"
     "54005f79542b1345feac2906116a76281a587265d3f56a728d3fb73031fff6d5").2 =
    Err "no space left on device" ∧
  cache.ReadFeatureHash
    (cache.WriteFeatureHash inputs.shortDisk "base"
       "54005f79542b1345feac2906116a76281a587265d3f56a728d3fb73031fff6d5").1
    "base" = OK "54005f79".
Proof. split; vm_compute; reflexivity. Qed.

(** ** Decisions of one iteration *)

Lemma dockerRuns_app (l k : list event) :
  dockerRuns (l ++ k) = dockerRuns l + dockerRuns k.
Proof. unfold dockerRuns. by rewrite filter_app, length_app. Qed.

(** For a feature with an input path the iteration does what the decision
    rule says: SKIP without a docker run when the cache file holds the fresh
    fingerprint, otherwise BUILD with one docker run, after which the
    fingerprint is handed to [WriteFeatureHash] and stored in the per-run
    map, or the run stops with the cache untouched. *)
Lemma buildOne_decides cfg fs docker s fname feat newHash context rest :
  cfg !! fname = Some feat →
  main.ComputeFeatureHash fs feat
    (collectDepHashes (hashCache s) (config.DependsOn feat)) = OK newHash →
  config.Inputs feat = context :: rest →
  ∃ s',
    (cache.ReadFeatureHash (disk s) fname = OK newHash ∧
     buildOne cfg fs docker s fname = Continue s' ∧
     log s' = log s ++ [PrintSKIP fname] ∧
     dockerRuns (log s') = dockerRuns (log s) ∧
     disk s' = disk s ∧
     hashCache s' = <[fname := newHash]> (hashCache s)) ∨
    (cache.ReadFeatureHash (disk s) fname ≠ OK newHash ∧
     (∃ tag, log s' = log s ++ [PrintBUILD fname; DockerBuild tag context]) ∧
     dockerRuns (log s') = S (dockerRuns (log s)) ∧
     ((buildOne cfg fs docker s fname = Continue s' ∧
       disk s' = (cache.WriteFeatureHash (disk s) fname newHash).1 ∧
       hashCache s' = <[fname := newHash]> (hashCache s)) ∨
      (buildOne cfg fs docker s fname = Stop (DockerFailure fname) s' ∧
       disk s' = disk s ∧ hashCache s' = hashCache s))).
Proof.
  intros Hf Hh Hi. pose proof (buildOne_iteration cfg fs docker s fname) as Hit.
  destruct Hit as [Hf'|feat' e Hf' Hh'|feat' newHash' Hf' Hh' Hr
                   |feat' newHash' Hf' Hh' Hr Hi'
                   |feat' newHash' context' rest' Hf' Hh' Hr Hi' Hd
                   |feat' newHash' context' rest' Hf' Hh' Hr Hi' Hd];
    try congruence;
    assert (feat' = feat) as -> by congruence;
    try assert (newHash' = newHash) as -> by congruence;
    try congruence.
  - eexists. left. split_and!.
    2: reflexivity.
    all: try done.
    simpl. rewrite dockerRuns_app. unfold dockerRuns at 2. simpl. lia.
  - assert (context' = context) as -> by congruence.
    eexists. right. split_and!.
    4: (left; split_and!; reflexivity).
    + done.
    + by eexists.
    + simpl. rewrite dockerRuns_app. unfold dockerRuns at 2. simpl. lia.
  - assert (context' = context) as -> by congruence.
    eexists. right. split_and!.
    4: (right; split_and!; reflexivity).
    + done.
    + by eexists.
    + simpl. rewrite dockerRuns_app. unfold dockerRuns at 2. simpl. lia.
Qed.

(** A failing [WriteFeatureHash] does not stop the iteration: the feature is
    stored in the per-run map and the loop goes on with the cache as the
    failed write left it. *)
Lemma buildOne_ignores_write_failure cfg fs docker s fname feat newHash
    context rest e :
  cfg !! fname = Some feat →
  main.ComputeFeatureHash fs feat
    (collectDepHashes (hashCache s) (config.DependsOn feat)) = OK newHash →
  cache.ReadFeatureHash (disk s) fname ≠ OK newHash →
  config.Inputs feat = context :: rest →
  docker (fname +:+ ":" +:+ String.substring 0 8 newHash) context = true →
  (cache.WriteFeatureHash (disk s) fname newHash).2 = Err e →
  ∃ s', buildOne cfg fs docker s fname = Continue s' ∧
        disk s' = (cache.WriteFeatureHash (disk s) fname newHash).1 ∧
        hashCache s' !! fname = Some newHash.
Proof.
  intros Hf Hh Hr Hi Hd Hw.
  unfold buildOne. rewrite Hf, Hh.
  assert (upToDate (disk s) fname newHash = false) as ->.
  { apply not_true_is_false. by intros ?%upToDate_true. }
  unfold dockerBuild. rewrite Hi, Hd. eexists. split_and!; [done..|].
  simpl. by rewrite lookup_insert_eq.
Qed.

(** ** Decisions on concrete runs *)

(** The end-to-end scenario on an empty cache: both features are built. *)
Example run2_builds_both :
  examples.run2.1 = Success ∧
  log examples.run2.2 =
    [PrintBuildOrder ["base"; "app"];
     PrintBUILD "base"; DockerBuild "base:54005f79" "dirX";
     PrintBUILD "app"; DockerBuild "app:bcb5bc66" "dirY"] ∧
  cache.ReadFeatureHash (disk examples.run2.2) "base" =
    OK "54005f79542b1345feac2906116a76281a587265d3f56a728d3fb73031fff6d5" ∧
  cache.ReadFeatureHash (disk examples.run2.2) "app" =
    OK "bcb5bc66932cad6bcc55b9cf55248bdf6a2767cfcf617f4db5332d0b927c508e".
Proof. split_and!; vm_compute; reflexivity. Qed.

(** With nothing changed, the next run skips both. *)
Example run2_again_skips_both :
  (BuildFeature examples.reg2 examples.fs2 examples.dockerOK
     (disk examples.run2.2) "app").1 = Success ∧
  log (BuildFeature examples.reg2 examples.fs2 examples.dockerOK
         (disk examples.run2.2) "app").2 =
    [PrintBuildOrder ["base"; "app"]; PrintSKIP "base"; PrintSKIP "app"].
Proof. split; vm_compute; reflexivity. Qed.

(** After one byte changed under [dirX], the next run builds [base] and,
    with the fresh fingerprint of [base] folded in, [app]. *)
Example run2_after_change_builds_both :
  (BuildFeature examples.reg2 examples.fs2' examples.dockerOK
     (disk examples.run2.2) "app").1 = Success ∧
  log (BuildFeature examples.reg2 examples.fs2' examples.dockerOK
         (disk examples.run2.2) "app").2 =
    [PrintBuildOrder ["base"; "app"];
     PrintBUILD "base"; DockerBuild "base:f39f209d" "dirX";
     PrintBUILD "app"; DockerBuild "app:b225f4e5" "dirY"].
Proof. split; vm_compute; reflexivity. Qed.

(** C7.  A feature without input paths whose fingerprint is not the cached
    one is printed BUILD, and the run then panics on [feat.Inputs[0]]: docker
    is not run, nothing is stored. *)
Theorem build_without_inputs_panics :
  BuildFeature examples.regMeta examples.fs2 examples.dockerOK
    examples.emptyDisk "meta" =
    (Panic "index out of range [0] with length 0",
     {| hashCache := ∅; disk := examples.emptyDisk;
        log := [PrintBuildOrder ["meta"]; PrintBUILD "meta"] |}) ∧
  dockerRuns [PrintBuildOrder ["meta"]; PrintBUILD "meta"] = 0.
Proof. split; vm_compute; reflexivity. Qed.

(** C8.  With a cache directory in which the file of [base] cannot be
    written, [WriteFeatureHash] returns an error after the successful build
    of [base]; the run goes on to [app] and ends in success, and the cache
    still has no fingerprint for [base]. *)
Theorem cache_write_failure_is_silent :
  (cache.WriteFeatureHash examples.sealedDisk "base"
     "54005f79542b1345feac2906116a76281a587265d3f56a728d3fb73031fff6d5").2 =
    Err "permission denied" ∧
  examples.runSealed.1 = Success ∧
  log examples.runSealed.2 =
    [PrintBuildOrder ["base"; "app"];
     PrintBUILD "base"; DockerBuild "base:54005f79" "dirX";
     PrintBUILD "app"; DockerBuild "app:bcb5bc66" "dirY"] ∧
  cache.ReadFeatureHash (disk examples.runSealed.2) "base" =
    Err "no such file or directory" ∧
  cache.ReadFeatureHash (disk examples.runSealed.2) "app" =
    OK "bcb5bc66932cad6bcc55b9cf55248bdf6a2767cfcf617f4db5332d0b927c508e".
Proof. split_and!; vm_compute; reflexivity. Qed.



(** The failed run built [base] and stopped at [app]. *)
Example runFail_stops_at_app :
  examples.runFail.1 = DockerFailure "app" ∧
  log examples.runFail.2 =
    [PrintBuildOrder ["base"; "app"];
     PrintBUILD "base"; DockerBuild "base:54005f79" "dirX";
     PrintBUILD "app"; DockerBuild "app:bcb5bc66" "dirY"] ∧
  cache.ReadFeatureHash (disk examples.runFail.2) "app" =
    Err "no such file or directory".
Proof. split_and!; vm_compute; reflexivity. Qed.

(** * Further properties *)

Import runlog.

(** ** Dependency resolution *)

Lemma edge_key (g : graph) n d : edge g n d → is_Some (g !! n).
Proof. intros (deps & Hn & _). by eexists. Qed.

Lemma tc_first_edge (g : graph) n m : tc (edge g) n m → ∃ y, edge g n y.
Proof. intros H. destruct H as [x y H|x y z H _]; by exists y. Qed.

(** X1.  [topoSort] ends on every registry and target, cyclic or not: with
    one unit of fuel more than the registry has keys, or any larger amount,
    the call from the fresh state ends with an order or an error, the one
    [Resolve] returns. *)
Theorem topoSort_fuel_suffices (g : graph) target fuel :
  S (size g) ≤ fuel →
  Resolve g target ≠ Unfinished ∧
  match topoSort fuel g target start with
  | Done w => Resolve g target = BuildOrder (order w)
  | Failed e => Resolve g target = DependencyError e
  | OutOfFuel => False
  end.
Proof.
  intros Hle. split; [apply Resolve_finishes|by apply Resolve_any_fuel].
Qed.

(** X2.  [Resolve] returns a build order exactly when no node reachable from
    the target lies on a cycle and every name listed by a feature reachable
    from the target is a registry key. *)
Theorem resolve_succeeds_iff (g : graph) target :
  (∃ names, Resolve g target = BuildOrder names) ↔
  (∀ n, reachable g target n → ¬ on_cycle g n) ∧ references_resolve g target.
Proof.
  split.
  - intros [names HR]. apply Resolve_order in HR as (Hnd & Hmem & Hdeps & Hkeys).
    split.
    + intros n Hn Hc. apply (before_irrefl names n Hnd).
      apply (tc_before g); [done..| |done]. by apply Hmem.
    + intros n d Hn He. apply (Hkeys n d); [|done]. by apply Hmem.
  - intros [Hno Href].
    destruct (Resolve g target) as [names|[n|d]|] eqn:HR.
    + by exists names.
    + apply Resolve_cycle in HR as [Hc Hr]. by destruct (Hno n Hr).
    + apply Resolve_unknown in HR as (Hnone & n & Hr & He).
      destruct (Href n d Hr He) as [? Hsome]. congruence.
    + by apply Resolve_finishes in HR.
Qed.

(** X3.  The errors of [Resolve] are never spurious: the node named by the
    cycle error is a registry key that lies on a cycle and is reachable from
    the target; the name reported as unknown is not a registry key and is
    listed by a registry feature reachable from the target. *)
Theorem resolve_errors_sound (g : graph) target :
  match Resolve g target with
  | DependencyError (CycleDetected n) =>
      on_cycle g n ∧ reachable g target n ∧ is_Some (g !! n)
  | DependencyError (UnknownDependency d) =>
      g !! d = None ∧ ∃ n, reachable g target n ∧ edge g n d ∧ is_Some (g !! n)
  | BuildOrder _ => True
  | Unfinished => False
  end.
Proof.
  destruct (Resolve g target) as [names|[n|d]|] eqn:HR; [done| | |].
  - apply Resolve_cycle in HR as [Hc Hr]. split_and!; [done..|].
    destruct (tc_first_edge g n n Hc) as [y Hy]. by eapply edge_key.
  - apply Resolve_unknown in HR as (Hnone & n & Hr & He).
    split; [done|]. exists n. split_and!; [done..|]. by eapply edge_key.
  - by apply Resolve_finishes in HR.
Qed.

Lemma last_of_order (g : graph) names target :
  NoDup names → target ∈ names →
  (∀ x, x ∈ names → reachable g target x) →
  (∀ l1 x l2, names = l1 ++ x :: l2 → ∀ y, edge g x y → y ∈ l1) →
  last names = Some target.
Proof.
  intros Hnd Ht Hreach Hdeps.
  destruct names as [|x names _] using rev_ind; [by apply elem_of_nil in Ht|].
  rewrite last_snoc. f_equal.
  destruct (decide (x = target)) as [|Hne]; [done|].
  assert (Hx : reachable g target x).
  { apply Hreach, elem_of_app. right. by apply list_elem_of_singleton. }
  apply rtc_tc in Hx as [Heq|Htc]; [done|].
  assert (Hb : before (names ++ [x]) x target) by by apply (tc_before g).
  destruct Hb as (i & j & Hi & Hj & Hlt).
  assert (Hlast : (names ++ [x]) !! length names = Some x).
  { by rewrite list_lookup_middle. }
  pose proof (NoDup_lookup _ _ _ _ Hnd Hi Hlast) as ->.
  apply lookup_lt_Some in Hj. rewrite length_app in Hj. simpl in Hj. lia.
Qed.

(** X4.  Every build order that [Resolve] returns ends with the target. *)
Theorem target_is_built_last (g : graph) target :
  match Resolve g target with
  | BuildOrder names => last names = Some target
  | _ => True
  end.
Proof.
  destruct (Resolve g target) as [names| |] eqn:HR; [|done..].
  apply Resolve_order in HR as (Hnd & Hmem & Hdeps & _).
  apply (last_of_order g); [done| | |done].
  - apply Hmem, rtc_refl.
  - intros x. apply Hmem.
Qed.

Lemma eachDep_agree (visit visit' : string → walk → outcome) (g g' : graph) deps :
  (∀ d, d ∈ deps → g' !! d = g !! d ∧ ∀ w, visit' d w = visit d w) →
  ∀ w, eachDep visit' g' deps w = eachDep visit g deps w.
Proof.
  induction deps as [|d deps IH]; intros H w; simpl; [done|].
  destruct (H d) as [-> Hv]; [apply elem_of_cons; by left|].
  destruct (g !! d); [|done]. rewrite Hv.
  destruct (visit d w); [|done..]. apply IH.
  intros d' Hd'. apply H, elem_of_cons. by right.
Qed.

Lemma topoSort_agree (g g' : graph) fuel :
  ∀ node w, (∀ n, reachable g node n → g' !! n = g !! n) →
            topoSort fuel g' node w = topoSort fuel g node w.
Proof.
  induction fuel as [|fuel IH]; intros node w H; simpl; [done|].
  destruct (decide (node ∈ temp w)); [done|].
  destruct (decide (node ∈ visited w)); [done|].
  rewrite (H node (rtc_refl _ _)).
  rewrite (eachDep_agree (topoSort fuel g) (topoSort fuel g') g g'); [done|].
  intros d Hd.
  assert (He : edge g node d).
  { destruct (g !! node) as [deps|] eqn:Hn; simpl in Hd.
    - by exists deps.
    - by apply elem_of_nil in Hd. }
  split.
  - apply H. by apply rtc_once.
  - intros w'. apply IH. intros m Hm. apply H. by eapply rtc_l.
Qed.

Lemma Resolve_agree (g g' : graph) target :
  (∀ n, reachable g target n → g' !! n = g !! n) →
  Resolve g' target = Resolve g target.
Proof.
  intros H.
  pose proof (Resolve_any_fuel g target (S (size g `max` size g')) ltac:(lia)) as H1.
  pose proof (Resolve_any_fuel g' target (S (size g `max` size g')) ltac:(lia)) as H2.
  rewrite (topoSort_agree g g' _ target start H) in H2.
  destruct (topoSort _ g target start); [congruence..|done].
Qed.

(** X5.  [Resolve] looks only at what is reachable from the target: two
    registries that agree on every name reachable from the target in the
    first give the same order or the same error. *)
Theorem resolve_ignores_unreachable (g g' : graph) target :
  (∀ n, reachable g target n → g' !! n = g !! n) →
  Resolve g' target = Resolve g target.
Proof. apply Resolve_agree. Qed.

(** ** Hashing *)

Lemma copyFiles_first_error (fs : fsys.t) pre f post contents e h :
  Forall2 (λ f c, fsys.ReadAll fs f = OK c) pre contents →
  fsys.ReadAll fs f = Err e →
  main.copyFiles fs (pre ++ f :: post) h = Err e.
Proof.
  intros H Hf. revert h. induction H as [|x c pre contents Hx _ IH]; intros h; simpl.
  - by rewrite Hf.
  - by rewrite Hx, IH.
Qed.

(** X6.  [HashDir] returns the error of the first file, in sorted path
    order, that cannot be read, whatever comes after it; and the error of the
    walk when the walk fails. *)
Theorem HashDir_first_error (fs : fsys.t) dir entries pre f post contents e :
  fsys.Walk fs dir = OK entries →
  walkedFiles entries = pre ++ f :: post →
  Forall2 (λ f c, fsys.ReadAll fs f = OK c) pre contents →
  fsys.ReadAll fs f = Err e →
  main.HashDir fs dir = Err e ∧
  ∀ dir' e', fsys.Walk fs dir' = Err e' → main.HashDir fs dir' = Err e'.
Proof.
  intros Hw Hfiles Hpre Hf. split.
  - unfold main.HashDir. rewrite Hw, Hfiles.
    by rewrite (copyFiles_first_error fs pre f post contents e).
  - intros dir' e' Hw'. unfold main.HashDir. by rewrite Hw'.
Qed.

Lemma writeInputs_first_error (fs : fsys.t) pre i post hashes e h :
  Forall2 (λ i x, main.HashDir fs i = OK x) pre hashes →
  main.HashDir fs i = Err e →
  main.writeInputs fs (pre ++ i :: post) h = Err e.
Proof.
  intros H Hi. revert h. induction H as [|x c pre hashes Hx _ IH]; intros h; simpl.
  - by rewrite Hi.
  - by rewrite Hx, IH.
Qed.

Lemma writeInputs_Err (fs : fsys.t) inputs h e :
  main.writeInputs fs inputs h = Err e →
  ∃ input, input ∈ inputs ∧ main.HashDir fs input = Err e.
Proof.
  revert h. induction inputs as [|i inputs IH]; intros h; simpl; [done|].
  destruct (main.HashDir fs i) as [x|e'] eqn:Hi.
  - intros (input & Hin & He)%IH. exists input. split; [|done].
    apply elem_of_cons. by right.
  - intros [= ->]. exists i. split; [|done]. apply elem_of_cons. by left.
Qed.

Lemma ComputeFeatureHash_Err (fs : fsys.t) feat deps e :
  main.ComputeFeatureHash fs feat deps = Err e →
  ∃ input, input ∈ config.Inputs feat ∧ main.HashDir fs input = Err e.
Proof.
  unfold main.ComputeFeatureHash, main.featureBytes.
  destruct (main.writeInputs fs _ _) as [b|e'] eqn:Hw; [done|].
  intros [= ->]. by eapply writeInputs_Err.
Qed.

(** X7.  [ComputeFeatureHash] returns the error of the first input
    directory, in list order, that cannot be hashed, whatever the later inputs
    and whatever the dependency fingerprints. *)
Theorem ComputeFeatureHash_first_error (fs : fsys.t) (feat : config.Feature)
    pre i post hashes e :
  config.Inputs feat = pre ++ i :: post →
  Forall2 (λ i x, main.HashDir fs i = OK x) pre hashes →
  main.HashDir fs i = Err e →
  ∀ depHashes, main.ComputeFeatureHash fs feat depHashes = Err e.
Proof.
  intros Hin Hpre Hi depHashes.
  unfold main.ComputeFeatureHash, main.featureBytes. rewrite Hin.
  by rewrite (writeInputs_first_error fs pre i post hashes e).
Qed.

Lemma sortStrings_sorted l : Sorted String.le l → sortStrings l = l.
Proof.
  intros Hs. apply (Sorted_unique String.le); [apply sortStrings_Sorted|done|].
  apply sortStrings_Permutation.
Qed.

(** X8.  The fingerprint does not record where its parts end: a feature has
    the fingerprint of the feature without inputs whose command is followed
    by the input digests, and, without dependencies and with its input
    digests in ascending order, the fingerprint of the feature without inputs
    that has those digests as dependency fingerprints. *)
Theorem input_digests_fold_like_dependencies (fs : fsys.t)
    (feat : config.Feature) hashes :
  Forall2 (λ i x, main.HashDir fs i = OK x) (config.Inputs feat) hashes →
  (∀ depHashes,
     main.ComputeFeatureHash fs feat depHashes =
     main.ComputeFeatureHash fs
       {| config.Name := config.Name feat; config.Inputs := [];
          config.Command := config.Command feat +:+ catenate hashes;
          config.DependsOn := config.DependsOn feat |} depHashes) ∧
  (Sorted String.le hashes →
   main.ComputeFeatureHash fs feat [] =
   main.ComputeFeatureHash fs
     {| config.Name := config.Name feat; config.Inputs := [];
        config.Command := config.Command feat;
        config.DependsOn := config.DependsOn feat |} hashes).
Proof.
  intros Hin. split.
  - intros depHashes. unfold main.ComputeFeatureHash, main.featureBytes. simpl.
    by rewrite (writeInputs_hashes fs _ hashes _ Hin).
  - intros Hs. unfold main.ComputeFeatureHash, main.featureBytes. simpl.
    rewrite (writeInputs_hashes fs _ hashes _ Hin), (sortStrings_sorted hashes Hs).
    unfold main.writeAll. replace (sortStrings []) with (@nil string) by done.
    simpl. by rewrite foldl_app_catenate.
Qed.

Lemma length_substring_0 n s :
  String.length (String.substring 0 n s) = n `min` String.length s.
Proof.
  revert s. induction n as [|n IH]; intros [|c s]; simpl; try done.
  by rewrite IH.
Qed.

(** X9.  A fingerprint returned by [ComputeFeatureHash] has 64 characters,
    so that the slice [newHash[:8]] of the docker tag is in range and has 8
    characters; every input directory then has a digest of 64 characters. *)
Theorem fingerprints_have_64_characters (fs : fsys.t) (feat : config.Feature)
    depHashes h :
  main.ComputeFeatureHash fs feat depHashes = OK h →
  String.length h = 64 ∧
  String.length (String.substring 0 8 h) = 8 ∧
  Forall (λ input, ∃ x, main.HashDir fs input = OK x ∧ String.length x = 64)
    (config.Inputs feat).
Proof.
  intros Hh. pose proof (ComputeFeatureHash_length fs feat depHashes h Hh) as Hlen.
  split_and!; [done|by rewrite length_substring_0, Hlen|].
  unfold main.ComputeFeatureHash, main.featureBytes in Hh.
  destruct (main.writeInputs fs _ _) as [b|] eqn:Hw; [|done].
  apply writeInputs_OK in Hw as (hashes & HF & _).
  clear Hh. induction HF as [|i x inputs hashes Hi _ IH]; constructor; [|done].
  exists x. split; [done|]. unfold main.HashDir in Hi.
  destruct (fsys.Walk fs i); [|done].
  destruct (main.copyFiles fs _ _); [|done]. injection Hi as <-.
  apply sha256hex_length.
Qed.

Lemma catenate_empties n : catenate (replicate n "") = "".
Proof. induction n as [|n IH]; [done|]. exact IH. Qed.

(** X10.  A directory without files, or with empty files only, has the
    digest of the empty byte string. *)
Theorem HashDir_of_empty_contents (fs : fsys.t) dir entries :
  fsys.Walk fs dir = OK entries →
  (∀ f, f ∈ walkedFiles entries → fsys.ReadAll fs f = OK "") →
  main.HashDir fs dir =
    OK "e3b0c44298fc1c149afbf4c8996fb92427ae41e4649b934ca495991b7852b855".
Proof.
  intros Hw Hempty.
  assert (Hc : Forall2 (λ f c, fsys.ReadAll fs f = OK c) (walkedFiles entries)
                 (replicate (length (walkedFiles entries)) "")).
  { induction (walkedFiles entries) as [|f files IH]; simpl; constructor.
    - apply Hempty, elem_of_cons. by left.
    - apply IH. intros f' Hf'. apply Hempty, elem_of_cons. by right. }
  rewrite (HashDir_contents fs dir entries _ Hw Hc).
  rewrite catenate_empties. vm_compute. reflexivity.
Qed.

(** ** The library twins and the cache *)

Lemma length_catenate_digests (contents : list string) :
  String.length (catenate (hash.HashString <$> contents)) = 64 * length contents.
Proof.
  induction contents as [|c contents IH]; [done|]. rewrite fmap_cons.
  change (String.length
            (hash.HashString c +:+ catenate (hash.HashString <$> contents)) =
          64 * S (length contents)).
  rewrite length_app_s, IH. unfold hash.HashString. rewrite sha256hex_length. lia.
Qed.

Lemma HashFile_contents (fs : fsys.t) files contents :
  Forall2 (λ f c, fsys.ReadAll fs f = OK c) files contents →
  Forall2 (λ f c, hash.HashFile fs f = OK (hash.HashString c)) files contents.
Proof.
  intros H. induction H as [|f c files contents Hf _ IH]; constructor; [|done].
  unfold hash.HashFile. by rewrite Hf.
Qed.

(** X11.  [HashDir] of [internal/hash] digests each file with [HashFile],
    which is [HashString] of the content, and returns the digest of the
    per-file digests in sorted path order: the digested bytes have 64
    characters for each file.  Modes, modification times, directories and the
    walk order do not matter. *)
Theorem library_HashDir_digests_each_file (fs : fsys.t) dir entries contents :
  fsys.Walk fs dir = OK entries →
  Forall2 (λ f c, fsys.ReadAll fs f = OK c) (walkedFiles entries) contents →
  hash.HashDir fs dir =
    OK (hash.HashString (catenate (hash.HashString <$> contents))) ∧
  Forall2 (λ f c, hash.HashFile fs f = OK (hash.HashString c))
    (walkedFiles entries) contents ∧
  String.length (catenate (hash.HashString <$> contents)) =
    64 * length (nonDirPaths entries) ∧
  ∀ (fs' : fsys.t) dir' entries',
    fsys.Walk fs' dir' = OK entries' →
    nonDirPaths entries' ≡ₚ nonDirPaths entries →
    (∀ f, f ∈ walkedFiles entries → fsys.ReadAll fs' f = fsys.ReadAll fs f) →
    hash.HashDir fs' dir' = hash.HashDir fs dir.
Proof.
  intros Hw Hc. split_and!.
  - by apply (library_HashDir_contents fs dir entries).
  - by apply HashFile_contents.
  - rewrite length_catenate_digests. f_equal.
    rewrite <-(Forall2_length _ _ _ Hc). apply sortStrings_length.
  - intros fs' dir' entries' Hw' Hp Hext.
    rewrite (library_HashDir_contents fs dir entries contents Hw Hc).
    apply (library_HashDir_contents fs' dir' entries' contents Hw').
    rewrite (walkedFiles_perm _ _ Hp). by apply (Forall2_ReadAll_ext fs).
Qed.

Lemma depParts_singleton (a h : string) :
  feature.depParts {[a := h]} = [a +:+ h].
Proof. unfold feature.depParts. by rewrite map_to_list_singleton. Qed.

(** X12.  [ComputeFeatureHash] of [internal/feature] joins the name and the
    fingerprint of a dependency without a separator: moving leading
    characters of the fingerprint to the end of the name does not change the
    result. *)
Theorem library_fingerprint_joins_name_and_hash (fs : fsys.t)
    (f : config.Feature) (a b h : string) :
  feature.ComputeFeatureHash fs f {[a := b +:+ h]} =
  feature.ComputeFeatureHash fs f {[a +:+ b := h]}.
Proof.
  unfold feature.ComputeFeatureHash.
  by rewrite !depParts_singleton, app_assoc_s.
Qed.

(** X21.  For a plain feature name [FeatureHashPath] is
    [.builder-cache/<name>/hash] and [filepath.Dir] of it is
    [.builder-cache/<name>]: different plain names have different records.
    A name that [filepath.Join] cleans to a plain name shares its record:
    [<name>/] and [./<name>] have the path of [<name>]. *)
Theorem FeatureHashPath_of_plain_names (f : string) :
  cache.plain f = true →
  cache.FeatureHashPath f = ".builder-cache/" +:+ f +:+ "/hash" ∧
  filepath.Dir (cache.FeatureHashPath f) = ".builder-cache/" +:+ f ∧
  (∀ g, cache.plain g = true →
        cache.FeatureHashPath g = cache.FeatureHashPath f → g = f) ∧
  cache.FeatureHashPath (f +:+ "/") = cache.FeatureHashPath f ∧
  cache.FeatureHashPath ("./" +:+ f) = cache.FeatureHashPath f.
Proof.
  intros Hp. destruct (plain_ordinary f Hp) as [Hk Hf].
  split_and!.
  - by rewrite (FeatureHashPath_plain f Hp).
  - by rewrite (Dir_FeatureHashPath f Hp).
  - intros g Hg. rewrite (FeatureHashPath_plain f Hp), (FeatureHashPath_plain g Hg).
    change (".builder-cache/" +:+ (g +:+ "/hash") =
            ".builder-cache/" +:+ (f +:+ "/hash") → g = f).
    intros H. apply (inj (String.app ".builder-cache/")) in H.
    by apply app_inv_tail_s in H.
  - rewrite (FeatureHashPath_plain f Hp).
    change (cache.FeatureHashPath (f +:+ "/"))
      with (filepath.Clean
              (".builder-cache/" +:+ ((f +:+ "/") +:+ "/hash"))).
    rewrite app_assoc_s.
    change (".builder-cache/" +:+ (f +:+ "/" +:+ "/hash"))
      with (String.concat "/" [".builder-cache"; f; ""; "hash"]).
    rewrite Clean_concat; [|done|solve_ordinary].
    simpl. by rewrite Hk.
  - rewrite (FeatureHashPath_plain f Hp).
    change (cache.FeatureHashPath ("./" +:+ f))
      with (filepath.Clean
              (String.concat "/" [".builder-cache"; "."; f; "hash"])).
    rewrite Clean_concat; [|done|solve_ordinary].
    simpl. by rewrite Hk.
Qed.

(** X13.  For a plain feature name, the record that a successful
    [WriteFeatureHash] wrote is read back by [ReadFeatureHash], when the
    system lets the record be read; and writing the record, whether it
    succeeds or not, changes neither what [ReadFeatureHash] returns for
    another plain feature nor whether [WriteFeatureHash] succeeds for it. *)
Theorem cache_write_then_read (d : cache.disk) (feature h : string) :
  cache.plain feature = true →
  (cache.readable d feature →
   (cache.WriteFeatureHash d feature h).2 = OK () →
   cache.ReadFeatureHash (cache.WriteFeatureHash d feature h).1 feature =
     OK h) ∧
  ∀ g, cache.plain g = true → g ≠ feature →
    cache.ReadFeatureHash (cache.WriteFeatureHash d feature h).1 g =
      cache.ReadFeatureHash d g ∧
    ∀ h', (cache.WriteFeatureHash
             (cache.WriteFeatureHash d feature h).1 g h').2 =
          (cache.WriteFeatureHash d g h').2.
Proof.
  intros Hf. split; [apply Read_after_Write_same|].
  intros g Hg Hne. split; [by apply Read_after_Write|].
  intros h'. by apply Write_after_Write.
Qed.

(** ** Runs *)

Lemma plainNames_passed cfg target names (passed : list string) :
  Resolve (buildGraph cfg) target = BuildOrder names →
  cache.plainNames names →
  (∀ names', Resolve (buildGraph cfg) target = BuildOrder names' →
             ∀ g, g ∈ passed → g ∈ names') →
  cache.plainNames passed.
Proof.
  intros HR Hplain Hsub. apply Forall_forall. intros g Hg.
  by apply (proj1 (Forall_forall _ _) Hplain), (Hsub names HR).
Qed.

(** X15.  In a registry whose feature names are plain, however a run ends:
    the record of a feature of the per-run map holds the fingerprint of the
    map when the feature was printed SKIP, and when the record can be
    written and read in the cache directory the run started on; the records
    of the plain features that are not in the map read as before the run. *)
Theorem cache_agrees_with_run_map (cfg : config.BuilderConfig) (fs : fsys.t)
    (docker : string → string → bool) (d0 : cache.disk) target names e s' :
  Resolve (buildGraph cfg) target = BuildOrder names →
  cache.plainNames names →
  BuildFeature cfg fs docker d0 target = (e, s') →
  (∀ fname h, hashCache s' !! fname = Some h →
     cache.writable d0 fname ∧ cache.readable d0 fname ∨
       PrintSKIP fname ∈ log s' →
     cache.ReadFeatureHash (disk s') fname = OK h) ∧
  (∀ fname, cache.plain fname = true → hashCache s' !! fname = None →
     cache.ReadFeatureHash (disk s') fname = cache.ReadFeatureHash d0 fname).
Proof.
  intros HR Hplain Hrun.
  apply BuildFeature_passed in Hrun
    as (passed & sk & l & Hinv & Hhc & Hdk & Hlog & Hl & Hsub).
  pose proof (plainNames_passed cfg target names passed HR Hplain Hsub) as Hpp.
  rewrite Hhc, Hdk, Hlog. split.
  - intros fname h Hh Hcase.
    destruct (ri_cached _ _ _ _ _ Hinv Hpp fname h Hh) as [?|[Hb Hw]]; [done|].
    destruct Hcase as [[Hwr Hrd]|Hsk].
    + apply (writable_any_data d0 fname h) in Hwr. by destruct Hw.
    + assert (Hin : fname ∈ passed) by (apply (ri_dom _ _ _ _ _ Hinv); by eexists).
      apply elem_of_app in Hsk as [Hsk|Hsk]; [|by destruct (Hl fname Hin)].
      apply (ri_skip _ _ _ _ _ Hinv Hpp) in Hsk as (h1 & Hh1 & Hu1).
      apply (ri_build _ _ _ _ _ Hinv Hpp) in Hb as (h2 & Hh2 & Hu2).
      congruence.
  - intros fname Hpf Hnone. apply (ri_disk _ _ _ _ _ Hinv Hpp); [done|].
    intros Hin%(ri_dom _ _ _ _ _ Hinv). destruct Hin as [? ?]. congruence.
Qed.

Section rerun.
Context (cfg : config.BuilderConfig) (fs : fsys.t)
  (docker2 : string → string → bool) (s1 : state) (names : list string).
Hypothesis Hsound : sound cfg fs (hashCache s1).
Hypothesis Hdom : ∀ g, is_Some (hashCache s1 !! g) ↔ g ∈ names.
Hypothesis Hcached : ∀ g h, hashCache s1 !! g = Some h →
  cache.ReadFeatureHash (disk s1) g = OK h.
Hypothesis Hfirst : deps_first cfg names.

Lemma rerun_skips todo :
  ∀ done s,
    names = done ++ todo →
    (∀ g, hashCache s !! g = if decide (g ∈ done) then hashCache s1 !! g else None) →
    disk s = disk s1 →
    ∃ s', buildAll cfg fs docker2 todo s = Continue s' ∧
          (∀ g, hashCache s' !! g = hashCache s1 !! g) ∧
          disk s' = disk s1 ∧
          log s' = log s ++ (PrintSKIP <$> todo).
Proof.
  induction todo as [|fname todo IH]; intros done s Hnames Hmap Hdisk; simpl.
  - exists s. rewrite app_nil_r in *. split_and!; [done| |done..].
    intros g. rewrite Hmap. case_decide as Hin; [done|].
    symmetry. apply eq_None_not_Some. by rewrite Hdom, Hnames.
  - assert (Hin : fname ∈ names).
    { rewrite Hnames. apply elem_of_app. right. apply elem_of_cons. by left. }
    apply Hdom in Hin as [h Hh].
    destruct (Hsound fname h Hh) as (feat & Hf & Hdeps & Hcfh).
    assert (Hcollect : collectDepHashes (hashCache s) (config.DependsOn feat) =
                       collectDepHashes (hashCache s1) (config.DependsOn feat)).
    { apply collect_ext. intros dep Hdep. rewrite Hmap.
      rewrite decide_True; [done|]. by eapply (Hfirst done fname todo). }
    assert (Hone : buildOne cfg fs docker2 s fname =
              Continue {| hashCache := <[fname := h]> (hashCache s);
                          disk := disk s; log := log s ++ [PrintSKIP fname] |}).
    { unfold buildOne. rewrite Hf, Hcollect, Hcfh.
      assert (upToDate (disk s) fname h = true) as ->; [|done].
      apply upToDate_true. rewrite Hdisk. by apply Hcached. }
    rewrite Hone.
    destruct (IH (done ++ [fname])
                {| hashCache := <[fname := h]> (hashCache s);
                   disk := disk s; log := log s ++ [PrintSKIP fname] |})
      as (s' & Hall & Hm & Hd & Hl).
    + by rewrite <-app_assoc.
    + intros g. simpl. destruct (decide (g = fname)) as [->|Hne].
      * rewrite lookup_insert_eq, decide_True; [done|].
        apply elem_of_app. right. by apply list_elem_of_singleton.
      * rewrite lookup_insert_ne by done. rewrite Hmap.
        destruct (decide (g ∈ done)) as [Hg|Hg].
        -- rewrite decide_True; [done|]. apply elem_of_app. by left.
        -- rewrite decide_False; [done|].
           intros [?|?%list_elem_of_singleton]%elem_of_app; done.
    + done.
    + exists s'. split_and!; [done..|]. rewrite Hl. simpl.
      by rewrite <-app_assoc.
Qed.

End rerun.

(** X14.  In a registry whose feature names are plain, after a successful
    run from a cache directory in which the record of every feature of the
    build order can be written and read, a second run on the same registry
    and files
    prints SKIP for every feature of the build order, runs docker for none,
    and leaves the cache and the per-run map as the first run left them. *)
Theorem rerun_skips_everything (cfg : config.BuilderConfig) (fs : fsys.t)
    (docker docker2 : string → string → bool) (d0 : cache.disk) target names
    s1 :
  Resolve (buildGraph cfg) target = BuildOrder names →
  cache.plainNames names →
  Forall (cache.writable d0) names →
  Forall (cache.readable d0) names →
  BuildFeature cfg fs docker d0 target = (Success, s1) →
  BuildFeature cfg fs docker2 (disk s1) target =
    (Success,
     {| hashCache := hashCache s1; disk := disk s1;
        log := PrintBuildOrder names :: (PrintSKIP <$> names) |}).
Proof.
  intros HR Hplain Hwr Hrd Hrun.
  apply BuildFeature_run in Hrun
    as [(err & ? & _)|(names' & HR' & [[_ Hinv]|(pre & f & post & sk & _ & _ & Hstop)])];
    [done| |].
  2:{ pose proof (buildOne_iteration cfg fs docker sk f) as Hit.
      rewrite Hstop in Hit. inversion Hit. }
  assert (names' = names) as -> by congruence.
  destruct (Resolve_deps_first cfg target names HR) as [Hnd Hdf].
  assert (Hall1 : ∀ g h, hashCache s1 !! g = Some h →
            cache.ReadFeatureHash (disk s1) g = OK h).
  { intros g h Hg.
    assert (Hin : g ∈ names) by (apply (ri_dom _ _ _ _ _ Hinv); by eexists).
    destruct (ri_cached _ _ _ _ _ Hinv Hplain g h Hg) as [?|[_ [Hw|Hr]]]; [done| |].
    - destruct Hw. apply writable_any_data.
      by apply (proj1 (Forall_forall _ _) Hwr).
    - destruct Hr. by apply (proj1 (Forall_forall _ _) Hrd). }
  destruct (rerun_skips cfg fs docker2 s1 names
              (ri_sound _ _ _ _ _ Hinv) (ri_dom _ _ _ _ _ Hinv) Hall1
              Hdf names []
              {| hashCache := ∅; disk := disk s1; log := [PrintBuildOrder names] |}
              eq_refl)
    as (s' & Hall & Hm & Hd & Hl).
  - intros g. cbn [hashCache]. rewrite lookup_empty.
    destruct (decide (g ∈ [])) as [Hin|]; [|done]. by apply elem_of_nil in Hin.
  - done.
  - unfold BuildFeature. rewrite HR, Hall. f_equal.
    destruct s' as [m d l]. simpl in *. f_equal; [by apply map_eq|done..].
Qed.

Lemma order_names_are_keys (cfg : config.BuilderConfig) target names fname :
  Resolve (buildGraph cfg) target = BuildOrder names →
  fname ∈ names → fname = target ∨ is_Some (cfg !! fname).
Proof.
  intros (Hnd & Hmem & Hdeps & Hkeys)%Resolve_order Hin.
  apply Hmem in Hin as Hr. apply rtc_inv_r in Hr as [->|(n & Hn & He)]; [by left|].
  right. assert (Hk : is_Some (buildGraph cfg !! fname)).
  { apply (Hkeys n); [by apply Hmem|done]. }
  unfold buildGraph in Hk. rewrite lookup_fmap in Hk.
  destruct (cfg !! fname); [by eexists|by destruct Hk].
Qed.

(** X16.  A run dereferences a nil feature exactly when the target is not a
    registry key. *)
Theorem nil_panic_iff_target_missing (cfg : config.BuilderConfig) (fs : fsys.t)
    (docker : string → string → bool) (d : cache.disk) target :
  (BuildFeature cfg fs docker d target).1 = Panic "nil pointer dereference" ↔
  cfg !! target = None.
Proof.
  split.
  - destruct (BuildFeature cfg fs docker d target) as [e s'] eqn:Hrun. simpl.
    intros ->.
    apply BuildFeature_run in Hrun
      as [(err & ? & _)|(names & HR & [[? _]|(pre & f & post & sk & Hnames & Hinv & Hstop)])];
      [done..|].
    pose proof (buildOne_iteration cfg fs docker sk f) as Hit.
    rewrite Hstop in Hit. inversion Hit as [Hnone| | | | |]; subst.
    destruct (order_names_are_keys cfg target (pre ++ f :: post) f HR) as [->|[? ?]];
      [|done|congruence].
    apply elem_of_app. right. apply elem_of_cons. by left.
  - intros Hnone.
    assert (Hg : buildGraph cfg !! target = None).
    { unfold buildGraph. by rewrite lookup_fmap, Hnone. }
    unfold BuildFeature. rewrite (Resolve_absent_target _ _ Hg). simpl.
    unfold buildOne. by rewrite Hnone.
Qed.

(** X17.  In a registry whose feature names are plain, when a run ends on
    the hashing error of a feature, one of the input directories of that
    feature failed with that error; nothing was printed for the feature, it
    is not in the per-run map, and its record reads as before the run. *)
Theorem hash_failure_stops_before_deciding (cfg : config.BuilderConfig)
    (fs : fsys.t) (docker : string → string → bool) (d0 : cache.disk)
    target names fname e s' :
  Resolve (buildGraph cfg) target = BuildOrder names →
  cache.plainNames names →
  BuildFeature cfg fs docker d0 target = (HashFailure fname e, s') →
  (∃ feat input, cfg !! fname = Some feat ∧ input ∈ config.Inputs feat ∧
                 main.HashDir fs input = Err e) ∧
  (PrintSKIP fname ∉ log s') ∧ (PrintBUILD fname ∉ log s') ∧
  hashCache s' !! fname = None ∧
  cache.ReadFeatureHash (disk s') fname = cache.ReadFeatureHash d0 fname.
Proof.
  intros HR Hplain Hrun.
  apply BuildFeature_run in Hrun
    as [(err & ? & _)|(names' & HR' & [[? _]|(pre & f & post & sk & Hnames & Hinv & Hstop)])];
    [done..|].
  assert (names' = names) as -> by congruence.
  destruct (Resolve_deps_first cfg target names HR) as [Hnd _].
  pose proof (buildOne_iteration cfg fs docker sk f) as Hit.
  rewrite Hstop in Hit.
  inversion Hit as [|feat e' Hf Hh| | | |]; subst.
  assert (Hfresh : fname ∉ pre).
  { apply NoDup_app in Hnd as (_ & Hno & _).
    intros Hin. apply (Hno _ Hin), elem_of_cons. by left. }
  apply Forall_app in Hplain as [Hpre Hpf%Forall_inv].
  assert (Hnone : hashCache s' !! fname = None).
  { apply eq_None_not_Some. by rewrite (ri_dom _ _ _ _ _ Hinv). }
  split_and!.
  - apply ComputeFeatureHash_Err in Hh as (input & Hin & Herr). by exists feat, input.
  - intros Hin. apply Hfresh, (ri_logged _ _ _ _ _ Hinv). by left.
  - intros Hin. apply Hfresh, (ri_logged _ _ _ _ _ Hinv). by right.
  - done.
  - by apply (ri_disk _ _ _ _ _ Hinv).
Qed.

Lemma decisions_app l k : decisions (l ++ k) = decisions l ++ decisions k.
Proof. apply omap_app. Qed.

Lemma buildLines_app l k : buildLines (l ++ k) = buildLines l + buildLines k.
Proof. unfold buildLines. by rewrite filter_app, length_app. Qed.

Lemma iteration_log cfg fs docker s fname r :
  iteration cfg fs docker s fname r →
  match r with
  | Continue s' =>
      decisions (log s') = decisions (log s) ++ [fname] ∧
      dockerRuns (log s') + buildLines (log s) =
        dockerRuns (log s) + buildLines (log s')
  | Stop e s' =>
      (decisions (log s') = decisions (log s) ∨
       decisions (log s') = decisions (log s) ++ [fname]) ∧
      dockerRuns (log s') + buildLines (log s) ≤
        dockerRuns (log s) + buildLines (log s') ≤
        S (dockerRuns (log s') + buildLines (log s))
  end.
Proof.
  assert (H1 : ∀ f, dockerRuns [PrintSKIP f] = 0 ∧ buildLines [PrintSKIP f] = 0)
    by done.
  assert (H2 : ∀ f, dockerRuns [PrintBUILD f] = 0 ∧ buildLines [PrintBUILD f] = 1)
    by done.
  assert (H3 : ∀ f t c, dockerRuns [PrintBUILD f; DockerBuild t c] = 1 ∧
                        buildLines [PrintBUILD f; DockerBuild t c] = 1) by done.
  intros Hit.
  destruct Hit; cbn [log];
    rewrite ?decisions_app, ?dockerRuns_app, ?buildLines_app.
  - split; [by left|lia].
  - split; [by left|lia].
  - destruct (H1 fname) as [-> ->]. split; [done|lia].
  - destruct (H2 fname) as [-> ->]. split; [by right|lia].
  - match goal with |- context [DockerBuild ?t ?c] =>
      destruct (H3 fname t c) as [-> ->] end.
    split; [done|lia].
  - match goal with |- context [DockerBuild ?t ?c] =>
      destruct (H3 fname t c) as [-> ->] end.
    split; [by right|lia].
Qed.

Lemma buildAll_log cfg fs docker names :
  ∀ s,
    match buildAll cfg fs docker names s with
    | Continue s' =>
        decisions (log s') = decisions (log s) ++ names ∧
        dockerRuns (log s') + buildLines (log s) =
          dockerRuns (log s) + buildLines (log s')
    | Stop e s' =>
        (∃ pre, pre `prefix_of` names ∧
                decisions (log s') = decisions (log s) ++ pre) ∧
        dockerRuns (log s') + buildLines (log s) ≤
          dockerRuns (log s) + buildLines (log s') ≤
          S (dockerRuns (log s') + buildLines (log s))
    end.
Proof.
  induction names as [|fname names IH]; intros s; simpl.
  - rewrite app_nil_r. done.
  - pose proof (iteration_log cfg fs docker s fname _
                  (buildOne_iteration cfg fs docker s fname)) as H.
    destruct (buildOne cfg fs docker s fname) as [s1|e s1].
    + destruct H as [Hd Hn]. specialize (IH s1).
      destruct (buildAll cfg fs docker names s1) as [s'|e s'].
      * destruct IH as [Hd' Hn']. split; [|lia].
        by rewrite Hd', Hd, <-app_assoc.
      * destruct IH as [(pre & Hpre & Hd') Hn']. split; [|lia].
        exists (fname :: pre). split.
        -- by apply prefix_cons.
        -- by rewrite Hd', Hd, <-app_assoc.
    + destruct H as [[Hd|Hd] Hn]; (split; [|lia]).
      * exists []. split; [apply prefix_nil|by rewrite app_nil_r].
      * exists [fname]. split; [|done]. apply prefix_cons, prefix_nil.
Qed.

Lemma buildAll_stop_not_success cfg fs docker names :
  ∀ s s', buildAll cfg fs docker names s ≠ Stop Success s'.
Proof.
  induction names as [|fname names IH]; intros s s'; simpl; [done|].
  pose proof (buildOne_iteration cfg fs docker s fname) as Hit.
  destruct (buildOne cfg fs docker s fname) as [s1|e s1]; [apply IH|].
  intros [= -> ->]. inversion Hit.
Qed.

(** X18.  The features decided by a run, in the order printed, are the first
    features of the build order, and all of it when the run succeeds: each is
    decided once, dependencies first.  Docker was run once per BUILD line,
    except that the last BUILD line of a run that did not succeed may have no
    docker run. *)
Theorem decisions_follow_build_order (cfg : config.BuilderConfig) (fs : fsys.t)
    (docker : string → string → bool) (d0 : cache.disk) target names e s' :
  Resolve (buildGraph cfg) target = BuildOrder names →
  BuildFeature cfg fs docker d0 target = (e, s') →
  decisions (log s') `prefix_of` names ∧
  (e = Success → decisions (log s') = names) ∧
  dockerRuns (log s') ≤ buildLines (log s') ≤ S (dockerRuns (log s')) ∧
  (e = Success → dockerRuns (log s') = buildLines (log s')).
Proof.
  intros HR. unfold BuildFeature. rewrite HR.
  pose proof (buildAll_log cfg fs docker names
                {| hashCache := ∅; disk := d0; log := [PrintBuildOrder names] |}) as H.
  cbn [log] in H.
  change (decisions [PrintBuildOrder names]) with (@nil string) in H.
  change (dockerRuns [PrintBuildOrder names]) with 0 in H.
  change (buildLines [PrintBuildOrder names]) with 0 in H.
  destruct (buildAll cfg fs docker names _) as [s1|e1 s1] eqn:Hb; intros [= <- <-].
  - destruct H as [Hd Hn]. simpl in Hd.
    split; [by rewrite Hd|]. split; [done|]. split; [lia|]. intros _. lia.
  - destruct H as [(pre & Hpre & Hd) Hn]. simpl in Hd.
    assert (He : e1 ≠ Success).
    { intros ->. by apply buildAll_stop_not_success in Hb. }
    split; [by rewrite Hd|]. split; [done|]. split; [lia|done].
Qed.

Lemma buildAll_ext (cfg cfg' : config.BuilderConfig) fs docker names :
  (∀ f, f ∈ names → cfg' !! f = cfg !! f) →
  ∀ s, buildAll cfg' fs docker names s = buildAll cfg fs docker names s.
Proof.
  induction names as [|fname names IH]; intros H s; simpl; [done|].
  assert (buildOne cfg' fs docker s fname = buildOne cfg fs docker s fname) as ->.
  { unfold buildOne. rewrite H; [done|]. apply elem_of_cons. by left. }
  destruct (buildOne cfg fs docker s fname); [|done].
  apply IH. intros f Hf. apply H, elem_of_cons. by right.
Qed.

(** X19.  A run looks only at the features reachable from the target: two
    registries that agree on every name reachable from the target give the
    same ending, log, per-run map and cache. *)
Theorem run_ignores_unreachable_features (cfg cfg' : config.BuilderConfig)
    (fs : fsys.t) (docker : string → string → bool) (d : cache.disk) target :
  (∀ n, reachable (buildGraph cfg) target n → cfg' !! n = cfg !! n) →
  Resolve (buildGraph cfg') target = Resolve (buildGraph cfg) target ∧
  BuildFeature cfg' fs docker d target = BuildFeature cfg fs docker d target.
Proof.
  intros H.
  assert (HR : Resolve (buildGraph cfg') target = Resolve (buildGraph cfg) target).
  { apply Resolve_agree. intros n Hn.
    unfold buildGraph. by rewrite !lookup_fmap, (H n Hn). }
  split; [done|]. unfold BuildFeature. rewrite HR.
  destruct (Resolve (buildGraph cfg) target) as [names| |] eqn:HO; [|done..].
  rewrite (buildAll_ext cfg cfg'); [done|].
  intros f Hf. apply H. by apply (Resolve_order _ _ _ HO).
Qed.

Lemma BuildFeature_sound cfg fs docker d0 target e s' fname h :
  BuildFeature cfg fs docker d0 target = (e, s') →
  hashCache s' !! fname = Some h →
  ∃ names, Resolve (buildGraph cfg) target = BuildOrder names ∧
           fname ∈ names ∧ sound cfg fs (hashCache s').
Proof.
  intros Hrun Hh.
  apply BuildFeature_run in Hrun
    as [(err & _ & _ & ->)|(names & HR & [[_ Hinv]|(pre & f & post & sk & Hnames & Hinv & Hstop)])].
  - simpl in Hh. by rewrite lookup_empty in Hh.
  - exists names. split_and!; [done| |apply (ri_sound _ _ _ _ _ Hinv)].
    apply (ri_dom _ _ _ _ _ Hinv). by eexists.
  - apply buildOne_stop_log in Hstop as (Hhc & _ & _). rewrite Hhc in *.
    exists names. split_and!; [done| |apply (ri_sound _ _ _ _ _ Hinv)].
    rewrite Hnames. apply elem_of_app. left.
    apply (ri_dom _ _ _ _ _ Hinv). by eexists.
Qed.

(** X20.  The fingerprint of a feature depends on the registry and the files
    only: two runs on the same registry and files that both computed it hold
    the same fingerprint, whatever their caches, their docker outcomes and
    their endings. *)
Theorem fingerprints_reproducible (cfg : config.BuilderConfig) (fs : fsys.t)
    (docker1 docker2 : string → string → bool) (d1 d2 : cache.disk)
    target e1 s1 e2 s2 fname h1 h2 :
  BuildFeature cfg fs docker1 d1 target = (e1, s1) →
  BuildFeature cfg fs docker2 d2 target = (e2, s2) →
  hashCache s1 !! fname = Some h1 →
  hashCache s2 !! fname = Some h2 →
  h1 = h2.
Proof.
  intros Hr1 Hr2 H1 H2.
  destruct (BuildFeature_sound _ _ _ _ _ _ _ _ _ Hr1 H1) as (names & HR & Hin & Hs1).
  destruct (BuildFeature_sound _ _ _ _ _ _ _ _ _ Hr2 H2) as (names' & _ & _ & Hs2).
  destruct (Resolve_deps_first cfg target names HR) as [_ Hdf].
  by eapply (sound_agree cfg fs names (hashCache s1) (hashCache s2)).
Qed.

(** ** Instances of the further properties *)

Lemma topoSort_fuel_suffices_witness :
  Resolve (buildGraph examples.regLoop) "A" ≠ Unfinished ∧
  match topoSort 7 (buildGraph examples.regLoop) "A" start with
  | Done w => Resolve (buildGraph examples.regLoop) "A" = BuildOrder (order w)
  | Failed e => Resolve (buildGraph examples.regLoop) "A" = DependencyError e
  | OutOfFuel => False
  end.
Proof.
  apply (topoSort_fuel_suffices (buildGraph examples.regLoop) "A" 7).
  vm_compute. lia.
Defined.

Lemma reg2_reachable_from_app n :
  reachable (buildGraph examples.reg2) "app" n → n ∈ ["base"; "app"].
Proof.
  apply (Resolve_order (buildGraph examples.reg2) "app" ["base"; "app"]).
  vm_compute. reflexivity.
Qed.

Lemma regOther_agrees n :
  reachable (buildGraph examples.reg2) "app" n →
  inputs.regOther !! n = examples.reg2 !! n.
Proof.
  intros Hn%reg2_reachable_from_app. unfold inputs.regOther.
  apply lookup_insert_ne. intros <-.
  apply elem_of_cons in Hn as [Hn|Hn%list_elem_of_singleton]; discriminate Hn.
Qed.

Lemma resolve_ignores_unreachable_witness :
  Resolve (buildGraph inputs.regOther) "app" =
  Resolve (buildGraph examples.reg2) "app".
Proof.
  apply (resolve_ignores_unreachable (buildGraph examples.reg2)
           (buildGraph inputs.regOther) "app").
  intros n Hn. unfold buildGraph. by rewrite !lookup_fmap, (regOther_agrees n Hn).
Defined.

Lemma run_ignores_unreachable_features_witness :
  Resolve (buildGraph inputs.regOther) "app" =
    Resolve (buildGraph examples.reg2) "app" ∧
  BuildFeature inputs.regOther examples.fs2 examples.dockerOK
    examples.emptyDisk "app" =
  BuildFeature examples.reg2 examples.fs2 examples.dockerOK
    examples.emptyDisk "app".
Proof.
  apply (run_ignores_unreachable_features examples.reg2 inputs.regOther).
  exact regOther_agrees.
Defined.

Lemma HashDir_first_error_witness :
  main.HashDir inputs.fsDenied "d" = Err "permission denied" ∧
  ∀ dir' e', fsys.Walk inputs.fsDenied dir' = Err e' →
             main.HashDir inputs.fsDenied dir' = Err e'.
Proof.
  apply (HashDir_first_error inputs.fsDenied "d"
           [examples.dir "d"; examples.file "d/a";
            examples.file "d/b"; examples.dir "d/empty"]
           ["d/a"] "d/b" [] ["ab"]).
  - vm_compute. reflexivity.
  - vm_compute. reflexivity.
  - constructor; [vm_compute; reflexivity|constructor].
  - vm_compute. reflexivity.
Defined.

Lemma ComputeFeatureHash_first_error_witness :
  main.ComputeFeatureHash examples.fsCut inputs.mixed
    ["54005f79542b1345feac2906116a76281a587265d3f56a728d3fb73031fff6d5"] =
  Err "no such file or directory".
Proof.
  apply (ComputeFeatureHash_first_error examples.fsCut inputs.mixed
           ["d"] "gone" ["e"] [sha256hex "abc"]).
  - reflexivity.
  - constructor; [vm_compute; reflexivity|constructor].
  - vm_compute. reflexivity.
Defined.

Lemma input_digests_fold_like_dependencies_witness :
  (∀ depHashes,
     main.ComputeFeatureHash examples.fs2 inputs.app2 depHashes =
     main.ComputeFeatureHash examples.fs2
       {| config.Name := config.Name inputs.app2; config.Inputs := [];
          config.Command :=
            config.Command inputs.app2
            +:+ catenate [sha256hex "FROM basepackage main"];
          config.DependsOn := config.DependsOn inputs.app2 |} depHashes) ∧
  (Sorted String.le [sha256hex "FROM basepackage main"] →
   main.ComputeFeatureHash examples.fs2 inputs.app2 [] =
   main.ComputeFeatureHash examples.fs2
     {| config.Name := config.Name inputs.app2; config.Inputs := [];
        config.Command := config.Command inputs.app2;
        config.DependsOn := config.DependsOn inputs.app2 |}
     [sha256hex "FROM basepackage main"]).
Proof.
  apply (input_digests_fold_like_dependencies examples.fs2 inputs.app2).
  constructor; [vm_compute; reflexivity|constructor].
Defined.

Lemma fingerprints_have_64_characters_witness :
  String.length
    "bcb5bc66932cad6bcc55b9cf55248bdf6a2767cfcf617f4db5332d0b927c508e" = 64 ∧
  String.length
    (String.substring 0 8
       "bcb5bc66932cad6bcc55b9cf55248bdf6a2767cfcf617f4db5332d0b927c508e") = 8 ∧
  Forall (λ input, ∃ x, main.HashDir examples.fs2 input = OK x ∧
                        String.length x = 64)
    (config.Inputs inputs.app2).
Proof.
  apply (fingerprints_have_64_characters examples.fs2 inputs.app2
           ["54005f79542b1345feac2906116a76281a587265d3f56a728d3fb73031fff6d5"]).
  vm_compute. reflexivity.
Defined.

Lemma HashDir_of_empty_contents_witness :
  main.HashDir inputs.fsEmpty "zero" =
    OK "e3b0c44298fc1c149afbf4c8996fb92427ae41e4649b934ca495991b7852b855".
Proof.
  apply (HashDir_of_empty_contents inputs.fsEmpty "zero"
           [examples.dir "zero"; examples.file "zero/f"; examples.file "zero/g"]).
  - vm_compute. reflexivity.
  - intros f Hf.
    replace (walkedFiles _) with ["zero/f"; "zero/g"] in Hf
      by (vm_compute; reflexivity).
    apply elem_of_cons in Hf as [->|Hf%list_elem_of_singleton];
      [|subst f]; vm_compute; reflexivity.
Defined.

Lemma library_HashDir_digests_each_file_witness :
  hash.HashDir examples.fsCut "d" =
    OK (hash.HashString (catenate (hash.HashString <$> ["ab"; "c"]))) ∧
  Forall2 (λ f c, hash.HashFile examples.fsCut f = OK (hash.HashString c))
    (walkedFiles [examples.dir "d"; examples.file "d/a";
                  examples.file "d/b"; examples.dir "d/empty"])
    ["ab"; "c"] ∧
  String.length (catenate (hash.HashString <$> ["ab"; "c"])) =
    64 * length (nonDirPaths [examples.dir "d"; examples.file "d/a";
                              examples.file "d/b"; examples.dir "d/empty"]) ∧
  ∀ (fs' : fsys.t) dir' entries',
    fsys.Walk fs' dir' = OK entries' →
    nonDirPaths entries' ≡ₚ
      nonDirPaths [examples.dir "d"; examples.file "d/a";
                   examples.file "d/b"; examples.dir "d/empty"] →
    (∀ f, f ∈ walkedFiles [examples.dir "d"; examples.file "d/a";
                            examples.file "d/b"; examples.dir "d/empty"] →
          fsys.ReadAll fs' f = fsys.ReadAll examples.fsCut f) →
    hash.HashDir fs' dir' = hash.HashDir examples.fsCut "d".
Proof.
  apply (library_HashDir_digests_each_file examples.fsCut "d").
  - vm_compute. reflexivity.
  - exact fsCut_d_contents.
Defined.

Lemma FeatureHashPath_of_plain_names_witness :
  cache.FeatureHashPath "base" = ".builder-cache/" +:+ "base" +:+ "/hash" ∧
  filepath.Dir (cache.FeatureHashPath "base") = ".builder-cache/" +:+ "base" ∧
  (∀ g, cache.plain g = true →
        cache.FeatureHashPath g = cache.FeatureHashPath "base" → g = "base") ∧
  cache.FeatureHashPath ("base" +:+ "/") = cache.FeatureHashPath "base" ∧
  cache.FeatureHashPath ("./" +:+ "base") = cache.FeatureHashPath "base".
Proof.
  apply (FeatureHashPath_of_plain_names "base"). reflexivity.
Defined.

Lemma cache_write_then_read_witness :
  (cache.readable examples.emptyDisk "base" →
   (cache.WriteFeatureHash examples.emptyDisk "base"
      "54005f79542b1345feac2906116a76281a587265d3f56a728d3fb73031fff6d5").2 =
     OK () →
   cache.ReadFeatureHash
     (cache.WriteFeatureHash examples.emptyDisk "base"
        "54005f79542b1345feac2906116a76281a587265d3f56a728d3fb73031fff6d5").1
     "base" =
     OK "54005f79542b1345feac2906116a76281a587265d3f56a728d3fb73031fff6d5") ∧
  ∀ g, cache.plain g = true → g ≠ "base" →
    cache.ReadFeatureHash
      (cache.WriteFeatureHash examples.emptyDisk "base"
         "54005f79542b1345feac2906116a76281a587265d3f56a728d3fb73031fff6d5").1
      g =
      cache.ReadFeatureHash examples.emptyDisk g ∧
    ∀ h', (cache.WriteFeatureHash
             (cache.WriteFeatureHash examples.emptyDisk "base"
                "54005f79542b1345feac2906116a76281a587265d3f56a728d3fb73031fff6d5").1
             g h').2 =
          (cache.WriteFeatureHash examples.emptyDisk g h').2.
Proof.
  apply (cache_write_then_read examples.emptyDisk "base").
  reflexivity.
Defined.

Lemma rerun_skips_everything_witness :
  BuildFeature examples.reg2 examples.fs2 (examples.dockerFailsFor "app")
    (disk examples.run2.2) "app" =
    (Success,
     {| hashCache := hashCache examples.run2.2;
        disk := disk examples.run2.2;
        log := PrintBuildOrder ["base"; "app"]
               :: (PrintSKIP <$> ["base"; "app"]) |}).
Proof.
  apply (rerun_skips_everything examples.reg2 examples.fs2 examples.dockerOK
           (examples.dockerFailsFor "app") examples.emptyDisk "app").
  - vm_compute. reflexivity.
  - repeat constructor.
  - repeat constructor.
  - repeat constructor; by apply (bool_decide_unpack _).
  - vm_compute. reflexivity.
Defined.

Lemma cache_agrees_with_run_map_witness :
  (∀ fname h, hashCache examples.runSealed.2 !! fname = Some h →
     cache.writable examples.sealedDisk fname ∧
       cache.readable examples.sealedDisk fname ∨
       PrintSKIP fname ∈ log examples.runSealed.2 →
     cache.ReadFeatureHash (disk examples.runSealed.2) fname = OK h) ∧
  (∀ fname, cache.plain fname = true →
     hashCache examples.runSealed.2 !! fname = None →
     cache.ReadFeatureHash (disk examples.runSealed.2) fname =
     cache.ReadFeatureHash examples.sealedDisk fname).
Proof.
  apply (cache_agrees_with_run_map examples.reg2 examples.fs2 examples.dockerOK
           examples.sealedDisk "app" ["base"; "app"] Success).
  - vm_compute. reflexivity.
  - repeat constructor.
  - vm_compute. reflexivity.
Defined.

Lemma hash_failure_stops_before_deciding_witness :
  (∃ feat input, examples.reg2 !! "app" = Some feat ∧
                 input ∈ config.Inputs feat ∧
                 main.HashDir inputs.fsNoY input =
                   Err "no such file or directory") ∧
  (PrintSKIP "app" ∉ log inputs.runNoY.2) ∧
  (PrintBUILD "app" ∉ log inputs.runNoY.2) ∧
  hashCache inputs.runNoY.2 !! "app" = None ∧
  cache.ReadFeatureHash (disk inputs.runNoY.2) "app" =
    cache.ReadFeatureHash examples.emptyDisk "app".
Proof.
  apply (hash_failure_stops_before_deciding examples.reg2 inputs.fsNoY
           examples.dockerOK examples.emptyDisk "app" ["base"; "app"] "app").
  - vm_compute. reflexivity.
  - repeat constructor.
  - vm_compute. reflexivity.
Defined.

Lemma decisions_follow_build_order_witness :
  decisions (log examples.runFail.2) `prefix_of` ["base"; "app"] ∧
  (DockerFailure "app" = Success →
   decisions (log examples.runFail.2) = ["base"; "app"]) ∧
  dockerRuns (log examples.runFail.2) ≤ buildLines (log examples.runFail.2)
    ≤ S (dockerRuns (log examples.runFail.2)) ∧
  (DockerFailure "app" = Success →
   dockerRuns (log examples.runFail.2) = buildLines (log examples.runFail.2)).
Proof.
  apply (decisions_follow_build_order examples.reg2 examples.fs2
           (examples.dockerFailsFor "app") examples.emptyDisk "app").
  - vm_compute. reflexivity.
  - vm_compute. reflexivity.
Defined.

Lemma fingerprints_reproducible_witness :
  "54005f79542b1345feac2906116a76281a587265d3f56a728d3fb73031fff6d5" =
  "54005f79542b1345feac2906116a76281a587265d3f56a728d3fb73031fff6d5".
Proof.
  apply (fingerprints_reproducible examples.reg2 examples.fs2
           examples.dockerOK (examples.dockerFailsFor "app")
           examples.sealedDisk examples.emptyDisk "app"
           Success examples.runSealed.2
           (DockerFailure "app") examples.runFail.2 "base").
  - vm_compute. reflexivity.
  - vm_compute. reflexivity.
  - vm_compute. reflexivity.
  - vm_compute. reflexivity.
Defined.
